(** * prob_mbrl: stochastic layers, regressors and the MC-PILCO rollout

    A shallow embedding of [prob_mbrl/models/modules.py] and
    [prob_mbrl/algorithms/mc_pilco.py].

    - Tensors are a shape together with the row-major list of their entries.
    - Floating point numbers are kept abstract: every definition is generic
      in a [Scalar] type that only provides the operations the code applies
      (no algebraic law is assumed, so each statement also holds for the
      rounding arithmetic of the machine).  Reductions ([sum], [mean]) are
      left folds starting from zero.
    - The step indices that [torch.range] holds as floats are natural
      numbers rounded to the precision of the floats.
    - The global random generator of torch is an explicit state that is
      threaded through every function that draws from it.
    - Python exceptions are [None] results.  The layers keep the state they
      had reached when the exception was raised. *)

From Stdlib Require Import QArith.
From stdpp Require Import base option list gmap strings.

Set Default Proof Using "Type".

(** ** Scalars *)

Class Scalar (A : Type) := {
  lit : Q -> A;            (* a numeric literal of the source *)
  sadd : A -> A -> A;
  ssub : A -> A -> A;
  smul : A -> A -> A;
  sdiv : A -> A -> A;
  sneg : A -> A;
  smax : A -> A -> A;
  smin : A -> A -> A;
  ssqrt : A -> A;
  slog : A -> A;
  ssigmoid : A -> A
}.

Definition of_nat `{Scalar A} (n : nat) : A := lit (inject_Z (Z.of_nat n)).

Definition ssum `{Scalar A} (l : list A) : A := foldl sadd (lit 0) l.

(** ** The random generator

    [bernoulli p n] draws [n] independent 0/1 values that are one with
    probability [p]; [rand n] draws [n] uniform values of the unit interval
    and [randn n] draws [n] standard normal values. *)

Class Rng (G A : Type) := {
  bernoulli : A -> nat -> G -> list A * G;
  rand : nat -> G -> list A * G;
  randn : nat -> G -> list A * G
}.

(** ** Tensors *)

Record tensor (A : Type) := Tensor { shape : list nat; data : list A }.
Arguments Tensor {A} _ _.
Arguments shape {A} _.
Arguments data {A} _.

Definition numel (s : list nat) : nat := foldr Nat.mul 1 s.

Definition shape_eqb (s1 s2 : list nat) : bool := bool_decide (s1 = s2).

(** [s[-k:]] of Python: the last [k] entries, the whole of [s] when
    [k = 0] or when [s] has fewer than [k] entries. *)
Definition last_dims (k : nat) (s : list nat) : list nat :=
  match k with
  | 0 => s
  | _ => drop (length s - k) s
  end.

(** The shape two operands broadcast to, on reversed shapes (innermost
    dimension first). *)
Fixpoint bshape (r1 r2 : list nat) : option (list nat) :=
  match r1, r2 with
  | [], r => Some r
  | r, [] => Some r
  | d1 :: t1, d2 :: t2 =>
      if d1 =? d2 then cons d1 <$> bshape t1 t2
      else if d1 =? 1 then cons d2 <$> bshape t1 t2
      else if d2 =? 1 then cons d1 <$> bshape t1 t2
      else None
  end.

Definition broadcast_shape (s1 s2 : list nat) : option (list nat) :=
  reverse <$> bshape (reverse s1) (reverse s2).

(** Position, in an operand of reversed shape [rin], of the entry that is
    used at the row-major position [k] of the broadcast result of reversed
    shape [rout]. *)
Fixpoint bidx (rout rin : list nat) (k stride : nat) : nat :=
  match rout, rin with
  | d :: rout', e :: rin' =>
      (if e =? 1 then 0 else (k mod d) * stride)
      + bidx rout' rin' (k / d) (stride * e)
  | _, _ => 0
  end.

Section tensor_ops.
Context `{Scalar A}.

Definition getd (l : list A) (i : nat) : A := default (lit 0) (l !! i).

Definition tmap (f : A -> A) (x : tensor A) : tensor A :=
  Tensor (shape x) (f <$> data x).

(** An elementwise binary operation with broadcasting; an exception when
    the shapes do not broadcast. *)
Definition tzip (f : A -> A -> A) (x y : tensor A) : option (tensor A) :=
  s ← broadcast_shape (shape x) (shape y);
  Some (Tensor s
    ((λ k, f (getd (data x) (bidx (reverse s) (reverse (shape x)) k 1))
              (getd (data y) (bidx (reverse s) (reverse (shape y)) k 1)))
     <$> seq 0 (numel s))).

(** What broadcasting comes to for a second operand [m] whose shape is
    made of the last dimensions of [x]: [m] is laid over every block of
    [x] of that shape. *)
Definition blockwise (f : A -> A -> A) (x m : tensor A) : tensor A :=
  Tensor (shape x)
    ((λ i, f (getd (data x) i) (getd (data m) (i mod numel (shape m))))
     <$> seq 0 (numel (shape x))).

(** [x] multiplied, entry by entry, by the mask [m]. *)
Definition masked (x m : tensor A) : tensor A := blockwise smul x m.

Definition tadd := tzip sadd.
Definition tsub := tzip ssub.
Definition tmul := tzip smul.

(** [x.view(-1, *s)[0]]: the first block of shape [s].  The view fails
    when the blocks do not tile [x] (or when the size of the leading
    dimension cannot be inferred), the indexing when there is no block. *)
Definition view_first (x : tensor A) (s : list nat) : option (tensor A) :=
  if (numel s =? 0) || negb (numel (shape x) mod numel s =? 0)
     || (numel (shape x) =? 0)
  then None
  else Some (Tensor s (take (numel s) (data x))).

(** A reduction [f] of the dimension [d], as in [x.mean(d)] or
    [x.std(d, keepdim=True)]. *)
Definition reduce_dim (f : list A -> A) (d : nat) (keepdim : bool)
    (x : tensor A) : option (tensor A) :=
  match drop d (shape x) with
  | [] => None
  | n :: post =>
      let outer := numel (take d (shape x)) in
      let inner := numel post in
      Some (Tensor
        (take d (shape x) ++ (if keepdim then [1] else []) ++ post)
        (a ← seq 0 outer;
         c ← seq 0 inner;
         [f ((λ b, getd (data x) (a * n * inner + b * inner + c))
               <$> seq 0 n)]))
  end.

Definition mean (l : list A) : A := sdiv (ssum l) (of_nat (length l)).

(** The unbiased standard deviation. *)
Definition std (l : list A) : A :=
  ssqrt (sdiv (ssum ((λ a, smul (ssub a (mean l)) (ssub a (mean l))) <$> l))
              (of_nat (length l - 1))).

Definition mean_dim (d : nat) (x : tensor A) : option (tensor A) :=
  reduce_dim mean d false x.

(** The entries [g a b] of a matrix of [r] rows and [c] columns, in
    row-major order. *)
Definition grid (r c : nat) (g : nat -> nat -> A) : list A :=
  a ← seq 0 r; b ← seq 0 c; [g a b].

(** [x.t()], for matrices. *)
Definition transpose (x : tensor A) : option (tensor A) :=
  match shape x with
  | [r; c] =>
      Some (Tensor [c; r] (grid c r (λ j i, getd (data x) (i * c + j))))
  | _ => None
  end.

(** [x.mm(y)] *)
Definition mm (x y : tensor A) : option (tensor A) :=
  match shape x, shape y with
  | [r; n], [n'; c] =>
      if n =? n' then
        Some (Tensor [r; c]
          (grid r c (λ i j,
             ssum ((λ k, smul (getd (data x) (i * n + k))
                               (getd (data y) (k * c + j))) <$> seq 0 n))))
      else None
  | _, _ => None
  end.

(** [torch.eye(n)] *)
Definition eye (n : nat) : tensor A :=
  Tensor [n; n] (grid n n (λ i j, if i =? j then lit 1 else lit 0)).

(** [torch.stack(xs)]: a new leading dimension. *)
Definition stack (xs : list (tensor A)) : option (tensor A) :=
  match xs with
  | [] => None
  | x :: _ =>
      if forallb (λ y, shape_eqb (shape y) (shape x)) xs
      then Some (Tensor (length xs :: shape x) (xs ≫= data))
      else None
  end.

(** The rows of a tensor along its last dimension. *)
Fixpoint chunks (n : nat) (fuel : nat) (l : list A) : list (list A) :=
  match fuel with
  | 0 => []
  | S fuel' => take n l :: chunks n fuel' (drop n l)
  end.

Definition rows (x : tensor A) : list (list A) :=
  match reverse (shape x) with
  | [] => [data x]
  | n :: pre => chunks n (numel pre) (data x)
  end.

(** [torch.cat([x, y], -1)] *)
Definition cat_last (x y : tensor A) : option (tensor A) :=
  match reverse (shape x), reverse (shape y) with
  | n :: pre, n' :: pre' =>
      if shape_eqb pre pre' then
        Some (Tensor (reverse ((n + n') :: pre))
                (mjoin (zip_with app (rows x) (rows y))))
      else None
  | _, _ => None
  end.

(** [x.narrow(-1, start, len)] for a slice that lies inside [x]. *)
Definition narrow_last (start len : nat) (x : tensor A) : tensor A :=
  match reverse (shape x) with
  | [] => x
  | n :: pre =>
      Tensor (reverse (len :: pre))
             (mjoin ((λ r, take len (drop start r)) <$> rows x))
  end.

(** [x.split(d, -1)]: consecutive slices of width [d] of the last
    dimension, the last one narrower when [d] does not divide it. *)
Fixpoint split_from (d : nat) (fuel start n : nat) (x : tensor A)
  : list (tensor A) :=
  match fuel with
  | 0 => []
  | S fuel' =>
      if n <=? start then []
      else narrow_last start (Nat.min d (n - start)) x
           :: split_from d fuel' (start + d) n x
  end.

Definition split_last (d : nat) (x : tensor A) : option (list (tensor A)) :=
  match reverse (shape x) with
  | [] => None
  | n :: _ =>
      if d =? 0 then
        (if n =? 0 then Some [x] else None)
      else if n =? 0 then Some [x]
      else Some (split_from d n 0 n x)
  end.

(** The entries of index [j] along the last dimension, row after row. *)
Definition column (j : nat) (x : tensor A) : list A :=
  mjoin ((λ r, take 1 (drop j r)) <$> rows x).

(** [x.index_select(-1, tensor(j))] *)
Definition index_select_last (j : nat) (x : tensor A) : option (tensor A) :=
  match reverse (shape x) with
  | [] => None
  | n :: _ => if j <? n then Some (narrow_last j 1 x) else None
  end.

(** [x.max()] and [x.min()] over all the entries. *)
Definition tmax (x : tensor A) : option A :=
  match data x with
  | [] => None
  | a :: l => Some (foldl smax a l)
  end.

Definition tmin (x : tensor A) : option A :=
  match data x with
  | [] => None
  | a :: l => Some (foldl smin a l)
  end.

(** The slice [j] along the first dimension of a tensor whose other
    dimensions are [rest]. *)
Definition pool_row (z : tensor A) (rest : list nat) (j : nat) : list A :=
  take (numel rest) (drop (j * numel rest) (data z)).

(** [z[idxs]] for a vector of indices: the selected slices along the
    first dimension. *)
Definition index_rows (z : tensor A) (idxs : list nat) : option (tensor A) :=
  match shape z with
  | [] => None
  | L :: rest =>
      rs ← mapM (λ j, if decide (j < L)
                       then Some (pool_row z rest j)
                       else None) idxs;
      Some (Tensor (length idxs :: rest) (mjoin rs))
  end.
End tensor_ops.

(** ** Computations that read and update a state and may raise

    The state that a computation had reached when it raised is dropped:
    the rollout and the models are not used after an exception. *)

Definition comp (W X : Type) : Type := W -> option (X * W).

Definition cret {W X} (x : X) : comp W X := λ w, Some (x, w).

Definition cbind {W X Y} (m : comp W X) (k : X -> comp W Y) : comp W Y :=
  λ w, match m w with
       | Some (x, w') => k x w'
       | None => None
       end.

(** The result of a pure operation that may raise. *)
Definition lift {W X} (o : option X) : comp W X :=
  λ w, match o with
       | Some x => Some (x, w)
       | None => None
       end.

Declare Scope comp_scope.
Delimit Scope comp_scope with comp.
Notation "'do' x <- m ; k" := (cbind m (λ x, k))
  (at level 10, x pattern, m at level 100, k at level 200) : comp_scope.

(** The value and the state a computation that did not raise went
    through, for a hypothesis [H : (do x <- m; k) w = Some r]. *)
Ltac bind_inv H :=
  unfold cbind in H;
  match type of H with
  | match ?m with _ => _ end = Some _ =>
      let x := fresh "x" in
      let w := fresh "w" in
      let E := fresh "E" in
      destruct m as [[x w]|] eqn:E; [|discriminate H]
  end.

(** ** Natural numbers held in floating point

    On a natural number the conversion to double precision, respectively
    to single precision, is the rounding to the nearest number with 53,
    respectively 24, significant bits, a tie going to the even one. *)

Definition round_bits (p n : N) : N :=
  let e := (N.size n - p)%N in
  if (e =? 0)%N then n
  else
    let q := N.shiftr n e in
    let r := N.land n (N.ones e) in
    let half := N.shiftl 1 (e - 1) in
    N.shiftl (if (half <? r)%N || ((half =? r)%N && N.odd q)
              then (q + 1)%N else q) e.

Definition to_double (n : nat) : nat := N.to_nat (round_bits 53 (N.of_nat n)).
Definition to_float (n : nat) : nat := N.to_nat (round_bits 24 (N.of_nat n)).

(** [n] is at most [2 ^ 24]: the natural numbers up to [n] are floats. *)
Definition float_exact (n : nat) : Prop := (N.of_nat n <= 2 ^ 24)%N.

(** ** [prob_mbrl/algorithms/mc_pilco.py] *)

Module mc_pilco.
Section defs.
Context `{Scalar A} `{Rng W A}.
Local Open Scope comp_scope.

(** [torch.range(i, i + m - 1).long()] followed by [idxs %= m].

    The bounds are Python integers; torch takes them as 64-bit integers,
    refusing one that does not fit, and converts them to double
    precision.  [torch.range] refuses an upper bound below the lower one,
    which is the case [m = 0] (where [idxs %= 0] has no result either).
    It returns [(end - start) + 1] values, a number computed in double
    precision, in a tensor of floats: the value [j] is [start + j],
    computed in double precision and stored in single precision.
    [long()] is exact on these values (below [2 ^ 63]).

    For [i + m <= 2 ^ 24] every conversion is exact and the indices are
    the [(i + j) mod m], [j < m]; from there on neighbouring values are
    rounded to the same float, and from [2 ^ 53] on the number of values
    is not [m] any more. *)
Definition z_indices (i m : nat) : option (list nat) :=
  if m =? 0 then None
  else if (2 ^ 63 <=? N.of_nat (i + m - 1))%N then None
  else
    let start := to_double i in
    let stop := to_double (i + m - 1) in
    let size := to_double (to_double (stop - start) + 1) in
    Some ((λ j, to_float (to_double (start + j)) mod m) <$> seq 0 size).

Definition get_z_rnd (z : option (tensor A)) (i : nat) (shp : list nat)
  : comp W (tensor A) :=
  match z with
  | Some z =>
      lift (m ← head shp;
            idxs ← z_indices i m;
            index_rows z idxs)
  | None =>
      λ w, let '(d, w') := randn (numel shp) w in Some (Tensor shp d, w')
  end.

(** One entry [(states, actions, rewards)] of a trajectory. *)
Record entry := Entry {
  e_states : tensor A;
  e_actions : tensor A;
  e_rewards : tensor A
}.

Record options := Options {
  resample_model : bool;
  resample_policy : bool;
  mm_states : bool;
  mm_rewards : bool;
  z_mm : option (tensor A);
  z_states : option (tensor A);
  z_rewards : option (tensor A)
}.

(** The callables that [rollout] receives, and the Cholesky factorisation
    of torch, which raises on a matrix that is not positive definite. *)
Variable policy : tensor A -> bool -> comp W (tensor A).
Variable forward :
  tensor A -> tensor A -> bool -> bool -> tensor A -> tensor A ->
  comp W (tensor A * tensor A).
Variable potrf : tensor A -> option (tensor A).

(** The body of [if mm_states:] (and of [if mm_rewards:]) for the batch
    [x] and the noise [z]; [M] is the particle count that [rollout] read
    from its argument. *)
Definition moment_match (M : nat) (x z : tensor A) : option (tensor A) :=
  m ← mean_dim 0 x;
  deltas ← tsub x m;
  dt ← transpose deltas;
  dd ← mm dt deltas;
  D ← last (shape m);
  S ← tadd (tmap (λ a, sdiv a (of_nat M)) dd)
           (tmap (smul (lit (1 # 1000000))) (eye D));
  U ← potrf S;
  zu ← mm z U;
  tadd m zu.

(** The claim on [moment_match], in its words: the batch [y] is
    [m + z · L], where [m] is the mean of the batch [x] over its particles,
    [L] the Cholesky factor of [deltasᵀ · deltas / M + 1e-6 · I] and
    [deltas = x - m]. *)
Definition gaussian_redraw (M : nat) (x z y : tensor A) : Prop :=
  ∃ m deltas dt dd D S L zL,
    mean_dim 0 x = Some m
    ∧ tsub x m = Some deltas
    ∧ transpose deltas = Some dt
    ∧ mm dt deltas = Some dd
    ∧ last (shape m) = Some D
    ∧ tadd (tmap (λ a, sdiv a (of_nat M)) dd)
           (tmap (smul (lit (1 # 1000000))) (eye D)) = Some S
    ∧ potrf S = Some L
    ∧ mm z L = Some zL
    ∧ tadd m zL = Some y.

(** The same, entry by entry, for a batch [x] of [n] particles of
    dimension [d]: the mean of the component [j], the deviation of the
    particle [p] from it, and the entry [(a, b)] of the matrix that is
    factorised. *)
Definition particle_mean (x : tensor A) (n d j : nat) : A :=
  mean ((λ p, getd (data x) (p * d + j)) <$> seq 0 n).

Definition deviation (x : tensor A) (n d p j : nat) : A :=
  ssub (getd (data x) (p * d + j)) (particle_mean x n d j).

Definition covariance (M : nat) (x : tensor A) (n d a b : nat) : A :=
  sadd (sdiv (ssum ((λ p, smul (deviation x n d p a) (deviation x n d p b))
                      <$> seq 0 n))
             (of_nat M))
       (smul (lit (1 # 1000000)) (if a =? b then lit 1 else lit 0)).

(** One pass through the body of the loop of [rollout], at step [i]. *)
Definition rollout_step (o : options) (M i : nat) (states : tensor A)
  : comp W (entry * tensor A) :=
  do z1 <- get_z_rnd (z_mm o) i (shape states);
  do z2 <- get_z_rnd (z_states o) i (shape states);
  do m <- lift (head (shape states));
  do z3 <- get_z_rnd (z_rewards o) i [m; 1];
  do actions <- policy states (resample_policy o);
  do nr <- forward states actions true (resample_model o) z2 z3;
  do next_states <-
     lift (if mm_states o then moment_match M nr.1 z1 else Some nr.1);
  do rewards <-
     lift (if mm_rewards o then moment_match M nr.2 z3 else Some nr.2);
  cret (Entry states actions rewards, next_states).

(** [n] more passes, from step [i] on. *)
Fixpoint rollout_loop (o : options) (M : nat) (n i : nat)
    (states : tensor A) : comp W (list entry) :=
  match n with
  | 0 => cret []
  | S n' =>
      do r <- rollout_step o M i states;
      do rest <- rollout_loop o M n' (S i) r.2;
      cret (r.1 :: rest)
  end.

(** What the entry [e], recorded at the step [i], and the entry [next]
    that follows it owe to this step: the noise, the actions and the
    transition, the rewards of [e] and the states of [next]. *)
Definition step_trace (o : options) (M i : nat) (e : entry)
    (next : option entry) : Prop :=
  ∃ z1 z2 z3 m next_states rewards w1 w2 w3 w4 w5 w6,
    get_z_rnd (z_mm o) i (shape (e_states e)) w1 = Some (z1, w2)
    ∧ get_z_rnd (z_states o) i (shape (e_states e)) w2 = Some (z2, w3)
    ∧ head (shape (e_states e)) = Some m
    ∧ get_z_rnd (z_rewards o) i [m; 1] w3 = Some (z3, w4)
    ∧ policy (e_states e) (resample_policy o) w4 = Some (e_actions e, w5)
    ∧ forward (e_states e) (e_actions e) true (resample_model o) z2 z3 w5
      = Some ((next_states, rewards), w6)
    ∧ (if mm_rewards o then gaussian_redraw M rewards z3 (e_rewards e)
       else e_rewards e = rewards)
    ∧ (∀ e', next = Some e' ->
             if mm_states o then gaussian_redraw M next_states z1 (e_states e')
             else e_states e' = next_states).

Definition rollout (states : tensor A) (steps : nat) (o : options)
  : comp W (list entry) :=
  do M <- lift (head (shape states));
  rollout_loop o M steps 0 states.

(** The sign of the objective: negated for a reward to maximise. *)
Definition sign (maximize : bool) (a : A) : A :=
  if maximize then sneg a else a.

(** The loss of one iteration of [mc_pilco], from the trajectory. *)
Definition loss (trajs : list entry) (maximize : bool)
  : option (tensor A) :=
  _ ← stack (e_states <$> trajs);
  _ ← stack (e_actions <$> trajs);
  rewards ← stack (e_rewards <$> trajs);
  r1 ← mean_dim 1 rewards;
  r0 ← mean_dim 0 r1;
  Some (if maximize then tmap sneg r0 else r0).

(** The noise pools of the pegasus mode. *)
Definition randn_pool (shp : list nat) (D : nat) : comp W (tensor A) :=
  λ w, let '(d, w') := randn (numel shp) w in
       if (D =? 0) || negb (numel shp mod D =? 0) then None
       else Some (Tensor [numel shp / D; D] d, w').

Record pools := Pools {
  p_mm : option (tensor A);
  p_states : option (tensor A);
  p_rewards : option (tensor A)
}.

(** What [mc_pilco] calls on the models and on the optimiser. *)
Variable model_resample : comp W unit.       (* dynamics.model.resample() *)
Variable policy_resample : comp W unit.      (* policy.model.resample() *)
Variable sample_initial_state : option (nat -> comp W (tensor A)).
Variable update : tensor A -> comp W unit.   (* backward, clip, opt.step *)

Definition alloc_pools (pegasus : bool) (steps : nat) (shp : list nat)
    (D : nat) : comp W pools :=
  if pegasus then
    do m <- lift (head shp);
    do z1 <- randn_pool ((steps + m) :: tail shp) D;
    do z2 <- randn_pool ((steps + m) :: tail shp) D;
    do z3 <- (λ w, let '(d, w') := randn (numel [steps + m; 1]) w in
                   Some (Tensor [steps + m; 1] d, w'));
    do _ <- model_resample;
    do _ <- policy_resample;
    cret (Pools (Some z1) (Some z2) (Some z3))
  else cret (Pools None None None).

(** The initial states of an iteration: redrawn from the experience and
    perturbed when a dataset is given. *)
Definition perturb (x : tensor A) : comp W (tensor A) :=
  do sd <- lift (reduce_dim std 0 false x);
  do e <- (λ w, let '(d, w') := randn (numel (shape x)) w in
                Some (Tensor (shape x) d, w'));
  do r <- lift (tmul (tmap (smul (lit (1 # 100))) sd) e);
  lift (tadd x r).

Definition iteration (z : pools) (pegasus : bool) (init_states : tensor A)
    (steps : nat) (mms mmr maximize : bool)
  : comp W (tensor A * tensor A) :=
  do _ <- (if pegasus then cret () else
           do _ <- model_resample; policy_resample);
  do init_states <-
     match sample_initial_state with
     | Some sample =>
         do m <- lift (head (shape init_states));
         do x <- sample m;
         perturb x
     | None => cret init_states
     end;
  do trajs <- rollout init_states steps
                (Options false false mms mmr (p_mm z) (p_states z)
                         (p_rewards z));
  do l <- lift (loss trajs maximize);
  do _ <- update l;
  cret (l, init_states).

Fixpoint iterations (z : pools) (pegasus : bool) (init_states : tensor A)
    (steps : nat) (mms mmr maximize : bool) (n : nat)
  : comp W (list (tensor A)) :=
  match n with
  | 0 => cret []
  | S n' =>
      do r <- iteration z pegasus init_states steps mms mmr maximize;
      do rest <- iterations z pegasus r.2 steps mms mmr maximize n';
      cret (r.1 :: rest)
  end.

(** [mc_pilco]: the losses it reports, one for each iteration. *)
Definition mc_pilco (init_states : tensor A) (steps opt_iters : nat)
    (pegasus mms mmr maximize : bool) : comp W (list (tensor A)) :=
  do D <- lift (last (shape init_states));
  do z <- alloc_pools pegasus steps (shape init_states) D;
  iterations z pegasus init_states steps mms mmr maximize opt_iters.
End defs.
End mc_pilco.

(** ** Keyword arguments *)

Inductive pyval : Type :=
  | VBool (b : bool)
  | VInt (n : nat)
  | VNone.

Definition truthy (v : pyval) : bool :=
  match v with
  | VBool b => b
  | VInt n => negb (n =? 0)
  | VNone => false
  end.

(** The value of a keyword used as an index; [None] is not one. *)
Definition as_index (v : pyval) : option nat :=
  match v with
  | VBool b => Some (if b then 1 else 0)
  | VInt n => Some n
  | VNone => None
  end.

(** ** [prob_mbrl/models/modules.py]: the stochastic layers *)

Module BDropout.
Section defs.
Context `{Scalar A} `{Rng G A}.

(** The buffers [regularizer_scale], [rate], [noise] and the attribute
    [p]; the first three are scalars (tensors without dimension). *)
Record state := State {
  regularizer_scale : A;
  rate : A;
  p : A;
  noise : tensor A
}.

Definition init (rate0 regularizer_scale0 : A) (g : G) : state * G :=
  let '(d, g') := bernoulli (ssub (lit 1) rate0) 1 g in
  (State (smul (lit (1 # 2)) (smul regularizer_scale0 regularizer_scale0))
         rate0 (ssub (lit 1) rate0) (Tensor [] d), g').

Definition weights_regularizer (L : state) (weights : tensor A)
  : A * state :=
  let p' := ssub (lit 1) (rate L) in
  (smul (regularizer_scale L)
        (ssum ((λ w, smul p' (smul w w)) <$> data weights)),
   State (regularizer_scale L) (rate L) p' (noise L)).

Definition biases_regularizer (L : state) (biases : tensor A) : A :=
  smul (regularizer_scale L) (ssum ((λ b, smul b b) <$> data biases)).

Definition update_noise (L : state) (x : tensor A) (g : G) : state * G :=
  let p' := ssub (lit 1) (rate L) in
  let '(d, g') := bernoulli p' (numel (shape x)) g in
  (State (regularizer_scale L) (rate L) p' (Tensor (shape x) d), g').

Definition resample (L : state) (g : G) : state * G :=
  update_noise L (noise L) g.

Definition forward (L : state) (x : tensor A) (resample : bool)
    (mask_dims : nat) (g : G) : option (tensor A) * state * G :=
  let sample_shape := last_dims mask_dims (shape x) in
  if negb (shape_eqb sample_shape (shape (noise L))) then
    match view_first x sample_shape with
    | None => (None, L, g)
    | Some sample =>
        let '(L', g') := update_noise L sample g in
        (tmul x (noise L'), L', g')
    end
  else if resample then
    let '(d, g') := bernoulli (p L) (numel (shape x)) g in
    (tmul x (Tensor (shape x) d), L, g')
  else (tmul x (noise L), L, g).

(** [layer(x, **kw)]: the defaults of the signature
    [forward(self, x, resample=True, mask_dims=2, **kwargs)]. *)
Definition call (L : state) (x : tensor A) (kw : gmap string pyval)
    (g : G) : option (tensor A) * state * G :=
  match as_index (default (VInt 2) (kw !! "mask_dims"%string)) with
  | None => (None, L, g)
  | Some mask_dims =>
      forward L x (truthy (default (VBool true) (kw !! "resample"%string)))
              mask_dims g
  end.
End defs.
Arguments state : clear implicits.
End BDropout.

Module CDropout.
Section defs.
Context `{Scalar A} `{Rng G A}.

(** The state of a [BDropout], the buffer [temp], the parameter
    [logit_p], the attribute [concrete_noise] and the flag [training] of
    every torch module. *)
Record state := State {
  regularizer_scale : A;
  rate : A;
  p : A;
  noise : tensor A;
  temp : A;
  logit_p : A;
  concrete_noise : option (tensor A);
  training : bool
}.

Definition init (rate0 regularizer_scale0 temperature : A) (g : G)
  : state * G :=
  let '(L, g') := BDropout.init rate0 regularizer_scale0 g in
  (State (BDropout.regularizer_scale L) (BDropout.rate L) (BDropout.p L)
         (BDropout.noise L) temperature
         (sneg (slog (ssub (sdiv (lit 1) (ssub (lit 1) (BDropout.rate L)))
                           (lit 1))))
         None true, g').

Definition weights_regularizer (L : state) (weights : tensor A) : A :=
  let p := ssigmoid (logit_p L) in
  let reg := smul (regularizer_scale L)
                  (ssum ((λ w, smul p (smul w w)) <$> data weights)) in
  ssub reg (ssub (smul (sneg p) (slog p))
                 (smul (ssub (lit 1) p) (slog (ssub (lit 1) p)))).

Definition biases_regularizer (L : state) (biases : tensor A) : A :=
  smul (regularizer_scale L) (ssum ((λ b, smul b b) <$> data biases)).

Definition set_noise (L : state) (n : tensor A) : state :=
  State (regularizer_scale L) (rate L) (p L) n (temp L) (logit_p L)
        (concrete_noise L) (training L).

Definition update_noise (L : state) (x : tensor A) (g : G) : state * G :=
  let '(d, g') := rand (numel (shape x)) g in
  (set_noise L (Tensor (shape x) d), g').

Definition resample (L : state) (g : G) : state * G :=
  update_noise L (noise L) g.

(** The relaxed mask of a base noise. *)
Definition concrete (L : state) (n : tensor A) : tensor A :=
  tmap (λ u, ssigmoid (sdiv (ssub (sadd (logit_p L) (slog u))
                                  (slog (ssub (lit 1) u)))
                            (temp L))) n.

Definition update_concrete_noise (L : state) (n : tensor A) : state :=
  State (regularizer_scale L) (rate L) (ssigmoid (logit_p L)) (noise L)
        (temp L) (logit_p L) (Some (concrete L n)) (training L).

Definition forward (L : state) (x : tensor A) (resample : bool)
    (mask_dims : nat) (g : G) : option (tensor A) * state * G :=
  let sample_shape := last_dims mask_dims (shape x) in
  (* the base noise of this call, or an exception *)
  let drawn : option (tensor A * bool * state * G) :=
    if resample then
      let '(d, g') := rand (numel (shape x)) g in
      Some (Tensor (shape x) d, true, L, g')
    else if match concrete_noise L with
            | None => true
            | Some c => negb (shape_eqb sample_shape (shape c))
            end then
      match view_first x sample_shape with
      | None => None
      | Some sample =>
          let '(L', g') := update_noise L sample g in
          Some (noise L', true, L', g')
      end
    else Some (noise L, false, L, g) in
  match drawn with
  | None => (None, L, g)
  | Some (n, resampled, L1, g1) =>
      let L2 := if training L1 || resampled
                then update_concrete_noise L1 n else L1 in
      match concrete_noise L2 with
      | None => (None, L2, g1)
      | Some c => (tmul x c, L2, g1)
      end
  end.

(** [layer(x, **kw)]: the defaults of the signature
    [forward(self, x, resample=False, mask_dims=2, **kwargs)]. *)
Definition call (L : state) (x : tensor A) (kw : gmap string pyval)
    (g : G) : option (tensor A) * state * G :=
  match as_index (default (VInt 2) (kw !! "mask_dims"%string)) with
  | None => (None, L, g)
  | Some mask_dims =>
      forward L x (truthy (default (VBool false) (kw !! "resample"%string)))
              mask_dims g
  end.
End defs.
Arguments state : clear implicits.
End CDropout.

(** ** [BSequential] *)

Module BSequential.
Section defs.
Context `{Scalar A} `{Rng G A}.

(** The modules of a network: the two stochastic layers, the affine
    layers ([nn.Linear] and the convolutions, with their parameters
    [weight] and [bias]) and every other module, which is only called. *)
Inductive layer : Type :=
  | Bernoulli (L : BDropout.state A)
  | Concrete (L : CDropout.state A)
  | Affine (weight : tensor A) (bias : option (tensor A))
           (apply : tensor A -> option (tensor A))
  | Plain (apply : tensor A -> option (tensor A)).

(** [isinstance(module, StochasticModule)], which is also
    [isinstance(module, BDropout)] and
    [hasattr(module, 'weights_regularizer')] on these modules. *)
Definition is_stochastic (m : layer) : bool :=
  match m with
  | Bernoulli _ | Concrete _ => true
  | _ => false
  end.

Definition resample_layer (m : layer) (g : G) : layer * G :=
  match m with
  | Bernoulli L => let '(L', g') := BDropout.resample L g in (Bernoulli L', g')
  | Concrete L => let '(L', g') := CDropout.resample L g in (Concrete L', g')
  | _ => (m, g)
  end.

Fixpoint resample (ms : list layer) (g : G) : list layer * G :=
  match ms with
  | [] => ([], g)
  | m :: ms' =>
      let '(m', g1) := resample_layer m g in
      let '(ms'', g2) := resample ms' g1 in
      (m' :: ms'', g2)
  end.

(** The keywords a stochastic module receives from [forward]. *)
Definition layer_kwargs (resample repeat_mask : pyval)
    (kw : gmap string pyval) : gmap string pyval :=
  <["resample"%string := resample]>
    (<["repeat_mask"%string := repeat_mask]> kw).

Definition call_layer (m : layer) (x : tensor A) (kw : gmap string pyval)
    (g : G) : option (tensor A) * layer * G :=
  match m with
  | Bernoulli L =>
      let '(y, L', g') := BDropout.call L x kw g in (y, Bernoulli L', g')
  | Concrete L =>
      let '(y, L', g') := CDropout.call L x kw g in (y, Concrete L', g')
  | Affine _ _ f | Plain f => (f x, m, g)
  end.

Fixpoint forward_loop (ms : list layer) (input : tensor A)
    (kw : gmap string pyval) (g : G)
  : option (tensor A) * list layer * G :=
  match ms with
  | [] => (Some input, [], g)
  | m :: ms' =>
      match call_layer m input kw g with
      | (None, m', g') => (None, m' :: ms', g')
      | (Some y, m', g') =>
          let '(r, ms'', g'') := forward_loop ms' y kw g' in
          (r, m' :: ms'', g'')
      end
  end.

(** [net(input, **kw)] for
    [forward(self, input, resample=True, repeat_mask=False, **kwargs)]. *)
Definition forward (ms : list layer) (input : tensor A)
    (kw : gmap string pyval) (g : G)
  : option (tensor A) * list layer * G :=
  forward_loop ms input
    (layer_kwargs (default (VBool true) (kw !! "resample"%string))
                  (default (VBool false) (kw !! "repeat_mask"%string))
                  (delete "resample"%string
                     (delete "repeat_mask"%string kw)))
    g.

(** The inner loop of [regularization_loss]: the first affine module of
    [modules[i:]]. *)
Fixpoint first_affine (ms : list layer)
  : option (tensor A * option (tensor A)) :=
  match ms with
  | [] => None
  | Affine w b _ :: _ => Some (w, b)
  | _ :: ms' => first_affine ms'
  end.

(** The claim on [regularization_loss], in its words: a stochastic layer
    is paired with the first affine layer that follows it, it contributes
    its weight regularizer on the weights of that layer and, when that
    layer has a bias, its bias regularizer on the bias; it contributes
    nothing when no affine layer follows. *)
Definition is_affine (m : layer) : bool :=
  match m with
  | Affine _ _ _ => true
  | _ => false
  end.

Definition paired (rest : list layer)
  : option (tensor A * option (tensor A)) :=
  match list_find (λ m, Is_true (is_affine m)) rest with
  | Some (_, Affine w b _) => Some (w, b)
  | _ => None
  end.

Definition contribution (m : layer) (rest : list layer) : list A :=
  match m, paired rest with
  | Bernoulli L, Some (w, b) =>
      (BDropout.weights_regularizer L w).1
      :: match b with
         | Some b => [BDropout.biases_regularizer L b]
         | None => []
         end
  | Concrete L, Some (w, b) =>
      CDropout.weights_regularizer L w
      :: match b with
         | Some b => [CDropout.biases_regularizer L b]
         | None => []
         end
  | _, _ => []
  end.

Fixpoint contributions (ms : list layer) : list A :=
  match ms with
  | [] => []
  | m :: rest => contribution m rest ++ contributions rest
  end.

(** What the body of the outer loop does with the module [m] at position
    [i]: the new value of [reg_loss] and the module after the calls. *)
Definition regularize (reg_loss : A) (m : layer) (rest : list layer)
  : A * layer :=
  match m with
  | Bernoulli L =>
      match first_affine rest with
      | None => (reg_loss, m)
      | Some (w, b) =>
          let '(rw, L') := BDropout.weights_regularizer L w in
          let reg_loss := sadd reg_loss rw in
          (match b with
           | Some b => sadd reg_loss (BDropout.biases_regularizer L' b)
           | None => reg_loss
           end, Bernoulli L')
      end
  | Concrete L =>
      match first_affine rest with
      | None => (reg_loss, m)
      | Some (w, b) =>
          let reg_loss := sadd reg_loss (CDropout.weights_regularizer L w) in
          (match b with
           | Some b => sadd reg_loss (CDropout.biases_regularizer L b)
           | None => reg_loss
           end, m)
      end
  | _ => (reg_loss, m)
  end.

(** [regularization_loss]: the loop over [enumerate(modules)], with
    [modules] the list of the modules in their order. *)
Definition regularization_loss (modules : list layer) : A * list layer :=
  foldl (λ '(reg_loss, ms) i,
           match ms !! i with
           | None => (reg_loss, ms)
           | Some m =>
               let '(reg_loss', m') := regularize reg_loss m (drop i ms) in
               (reg_loss', <[i := m']> ms)
           end)
        (lit 0, modules) (seq 0 (length modules)).
End defs.
Arguments layer _ : clear implicits.
End BSequential.

(** ** [Regressor], [Policy] and [DynamicsModel] *)

(** What a network or an output density returns: a tensor, or a tuple of
    the parameters of a distribution. *)
Inductive output (A : Type) : Type :=
  | OTensor (t : tensor A)
  | OTuple (ts : list (tensor A)).
Arguments OTensor {A} _.
Arguments OTuple {A} _.

Module Regressor.
Section defs.
Context `{Scalar A} {W : Type}.

(** [utils.to_complex(x, angle_dims)] *)
Variable to_complex : tensor A -> list nat -> option (tensor A).
(** [self.model(x, **kwargs)] *)
Variable model : tensor A -> gmap string pyval -> comp W (output A).
(** [self.output_density(outs, scaling_params=..., **kwargs)] *)
Variable output_density :
  option (output A -> option (tensor A * tensor A) ->
          gmap string pyval -> comp W (output A)).

Record state := State {
  angle_dims : list nat;
  X : tensor A;
  Y : tensor A;
  mx : tensor A;
  Sx : tensor A;
  iSx : tensor A;
  my : tensor A;
  Sy : tensor A;
  iSy : tensor A
}.

Definition reciprocal (x : tensor A) : tensor A := tmap (sdiv (lit 1)) x.

Definition set_dataset (R : state) (X0 Y0 : tensor A) : option state :=
  X1 ← to_complex X0 (angle_dims R);
  mx1 ← reduce_dim mean 0 true X1;
  Sx1 ← reduce_dim std 0 true X1;
  my1 ← reduce_dim mean 0 true Y0;
  Sy1 ← reduce_dim std 0 true Y0;
  Some (State (angle_dims R) X1 Y0 mx1 Sx1 (reciprocal Sx1)
              my1 Sy1 (reciprocal Sy1)).

Local Open Scope comp_scope.

Definition forward (R : state) (x : tensor A) (normalize : bool)
    (kw : gmap string pyval) : comp W (output A) :=
  do d <- lift (last (shape x));
  do dX <- lift (last (shape (X R)));
  do x <- lift (if d =? dX then Some x else to_complex x (angle_dims R));
  do x <- lift (if normalize
                then c ← tsub x (mx R); tmul c (iSx R)
                else Some x);
  do outs <- model x kw;
  match output_density with
  | Some density =>
      density outs (if normalize then Some (my R, Sy R) else None) kw
  | None => cret outs
  end.
End defs.
Arguments state : clear implicits.
End Regressor.

Module Policy.
Section defs.
Context `{Scalar A} {W : Type}.
Variable to_complex : tensor A -> list nat -> option (tensor A).
Variable model : tensor A -> gmap string pyval -> comp W (output A).

Record state := State {
  angle_dims : list nat;
  scale : tensor A;
  bias : tensor A
}.

(** The keywords [forward] hands to the model. *)
Definition model_kwargs (kw : gmap string pyval) : gmap string pyval :=
  <["resample"%string :=
      default (VBool true) (kw !! "resample"%string)]> kw.

Local Open Scope comp_scope.

Definition forward (P : state) (x : tensor A) (kw : gmap string pyval)
  : comp W (tensor A) :=
  do x <- lift (to_complex x (angle_dims P));
  do y <- model x (model_kwargs kw);
  match y with
  | OTensor y => lift (u ← tmul (scale P) y; tadd u (bias P))
  | OTuple _ => lift None
  end.
End defs.
Arguments state : clear implicits.
End Policy.

Module DynamicsModel.
Section defs.
Context `{Scalar A} {W : Type}.
Variable to_complex : tensor A -> list nat -> option (tensor A).
Variable model : tensor A -> gmap string pyval -> comp W (output A).
Variable output_density :
  option (output A -> option (tensor A * tensor A) ->
          gmap string pyval -> comp W (output A)).
(** [self.reward_func], when it is callable. *)
Variable reward_func : option (tensor A -> option (tensor A)).

Record state := State {
  regressor : Regressor.state A;
  maxR : tensor A;
  minR : tensor A
}.

Definition set_dataset (S : state) (X0 Y0 : tensor A) : option state :=
  R ← Regressor.set_dataset to_complex (regressor S) X0 Y0;
  n ← last (shape (Regressor.Y R));
  let D := n - 1 in
  (* the index [D] is [-1] for [n = 0] *)
  r ← (if n =? 0 then None else index_select_last D (Regressor.Y R));
  hi ← tmax r;
  lo ← tmin r;
  Some (State R (Tensor [] [hi]) (Tensor [] [lo])).

(** The argument of [forward]: a pair (tuple or list) of states and
    actions, or their concatenation. *)
Inductive input : Type :=
  | Pair (prev_states actions : tensor A)
  | Joint (inputs : tensor A).

(** What [forward] returns: the parameters of the output distribution,
    the pair [(states, rewards)], or their concatenation. *)
Inductive result : Type :=
  | Params (ts : list (tensor A))
  | Separate (states rewards : tensor A)
  | Joined (t : tensor A).

(** [a, b = x.split(d, -1)] *)
Definition split_pair (d : nat) (x : tensor A)
  : option (tensor A * tensor A) :=
  match split_last d x with
  | Some [a; b] => Some (a, b)
  | _ => None
  end.

Local Open Scope comp_scope.

Definition forward (S : state) (inp : input) (separate_outputs : bool)
    (deltas : bool) (normalize : bool) (kw : gmap string pyval)
  : comp W result :=
  do inputs <- lift (match inp with
                     | Pair s a => cat_last s a
                     | Joint x => Some x
                     end);
  do outs <- Regressor.forward to_complex model output_density
               (regressor S) inputs normalize kw;
  match outs with
  | OTuple ts => cret (Params ts)
  | OTensor outs =>
      do prev_states <-
         lift (match inp with
               | Pair s _ => Some s
               | Joint x => D ← last (shape outs);
                            fst <$> split_pair D x
               end);
      do sr <- lift (match reward_func with
                     | Some f => r ← f prev_states; Some (outs, r)
                     | None => n ← last (shape outs);
                               split_pair (n - 1) outs
                     end);
      do states <- lift (if deltas then Some sr.1
                         else tadd prev_states sr.1);
      if separate_outputs then cret (Separate states sr.2)
      else lift (Joined <$> cat_last states sr.2)
  end.
End defs.
Arguments state : clear implicits.
End DynamicsModel.

(** ** Two interpretations of the scalars

    [xq]: exact rational arithmetic.  A value is [Some q] when it is the
    rational [q] and [None] when it is not known to be rational (a
    division by zero, a root, logarithm or sigmoid that is not evaluated);
    an unknown operand makes the result unknown. *)

Definition xq : Type := option Q.

Definition xq_lift2 (f : Q -> Q -> Q) (a b : xq) : xq :=
  match a, b with
  | Some x, Some y => Some (Qred (f x y))
  | _, _ => None
  end.

Definition xq_div (a b : xq) : xq :=
  match a, b with
  | Some x, Some y =>
      if Qeq_bool y 0 then None else Some (Qred (Qdiv x y))
  | _, _ => None
  end.

Definition xq_sqrt (a : xq) : xq :=
  match a with
  | Some x =>
      let n := Qnum (Qred x) in
      let d := Zpos (Qden (Qred x)) in
      if ((0 <=? n)%Z && (Z.sqrt n * Z.sqrt n =? n)%Z
          && (Z.sqrt d * Z.sqrt d =? d)%Z)%bool
      then Some (Qred (Qmake (Z.sqrt n) (Z.to_pos (Z.sqrt d))))
      else None
  | None => None
  end.

Definition xq_log (a : xq) : xq :=
  match a with
  | Some x => if Qeq_bool x 1 then Some 0%Q else None
  | None => None
  end.

Definition xq_sigmoid (a : xq) : xq :=
  match a with
  | Some x => if Qeq_bool x 0 then Some (1 # 2)%Q else None
  | None => None
  end.

#[export] Instance xq_scalar : Scalar xq := {|
  lit q := Some (Qred q);
  sadd := xq_lift2 Qplus;
  ssub := xq_lift2 Qminus;
  smul := xq_lift2 Qmult;
  sdiv := xq_div;
  sneg a := Qred <$> (Qopp <$> a);
  smax := xq_lift2 (λ x y, if Qle_bool x y then y else x);
  smin := xq_lift2 (λ x y, if Qle_bool x y then x else y);
  ssqrt := xq_sqrt;
  slog := xq_log;
  ssigmoid := xq_sigmoid
|}.

(** A generator that reads its draws from a tape of uniform values (zeros
    once the tape is used up); a Bernoulli draw is one when the uniform
    value is below the probability. *)
Definition tape : Type := list Q.

Definition tape_take (n : nat) (t : tape) : list Q * tape :=
  (take n (t ++ replicate n 0%Q), drop n t).

#[export] Instance tape_rng : Rng tape xq := {|
  bernoulli p n t :=
    let '(us, t') := tape_take n t in
    ((λ u, match p with
           | Some q => Some (if Qle_bool q u then 0%Q else 1%Q)
           | None => None
           end) <$> us, t');
  rand n t := let '(us, t') := tape_take n t in (Some <$> us, t');
  randn n t := let '(us, t') := tape_take n t in (Some <$> us, t')
|}.

(** [sym]: the terms over the literals and the draws of the generator, the
    [k]-th draw being an atom of its own.  Two computations that agree
    here agree in every interpretation. *)
Inductive sym : Type :=
  | SLit (q : Q)
  | SBernoulli (p : sym) (k : nat)
  | SUniform (k : nat)
  | SNormal (k : nat)
  | SAdd (a b : sym)
  | SSub (a b : sym)
  | SMul (a b : sym)
  | SDiv (a b : sym)
  | SNeg (a : sym)
  | SMax (a b : sym)
  | SMin (a b : sym)
  | SSqrt (a : sym)
  | SLog (a : sym)
  | SSigmoid (a : sym).

#[export] Instance sym_scalar : Scalar sym := {|
  lit := SLit;
  sadd := SAdd;
  ssub := SSub;
  smul := SMul;
  sdiv := SDiv;
  sneg := SNeg;
  smax := SMax;
  smin := SMin;
  ssqrt := SSqrt;
  slog := SLog;
  ssigmoid := SSigmoid
|}.

(** The generator counts its draws. *)
#[export] Instance sym_rng : Rng nat sym := {|
  bernoulli p n k := (SBernoulli p <$> seq k n, k + n);
  rand n k := (SUniform <$> seq k n, k + n);
  randn n k := (SNormal <$> seq k n, k + n)
|}.

(** A tensor of rationals. *)
Definition qtensor (s : list nat) (l : list Q) : tensor xq :=
  Tensor s (Some <$> l).

(** ** Inputs of the examples *)

Module examples.
(** A Bernoulli layer with keep probability 3/4 whose stored mask has
    the shape [(2,)], a batch of three rows and a tape. *)
Definition bdropout : BDropout.state xq :=
  BDropout.State (Some (1 # 2)%Q) (Some (1 # 4)%Q) (Some (3 # 4)%Q)
                 (qtensor [2] [1; 0]%Q).
Definition x32 : tensor xq := qtensor [3; 2] [1; 2; 3; 4; 5; 6]%Q.
Definition x23 : tensor xq := qtensor [2; 3] [1; 2; 3; 4; 5; 6]%Q.
Definition uniforms : tape :=
  [1 # 2; 9 # 10; 1 # 10; 4 # 5; 3 # 10; 7 # 10; 1 # 5; 3 # 5]%Q.

(** A relaxed layer with a stored base noise and relaxed mask of the
    shape [(2,)]. *)
Definition cdropout : CDropout.state xq :=
  CDropout.State (Some (1 # 2)%Q) (Some (1 # 4)%Q) (Some (3 # 4)%Q)
                 (qtensor [2] [1 # 2; 1 # 2]%Q) (Some (1 # 10)%Q)
                 (Some 0%Q) (Some (qtensor [2] [1 # 2; 1 # 2]%Q)) true.

(** A policy on a model that returns its input when it is called with
    [resample=True] and raises otherwise. *)
Definition policy : Policy.state xq :=
  Policy.State [] (qtensor [] [2]%Q) (qtensor [] [1]%Q).
Definition plain_complex (x : tensor xq) (angle_dims : list nat)
  : option (tensor xq) := Some x.
Definition resampling_model (x : tensor xq) (kw : gmap string pyval)
  : comp tape (output xq) :=
  match kw !! "resample"%string with
  | Some (VBool true) => cret (OTensor x)
  | _ => lift None
  end.

(** Batches whose scalars are terms, a relaxed layer as its constructor
    leaves it ([fresh]) and after a first call on a batch of the shape
    [(1, 2)] ([used]), each with the state of the generator, which counts
    its draws. *)
Definition y12 : tensor sym := Tensor [1; 2] [SLit 1; SLit 2].
Definition y213 : tensor sym :=
  Tensor [2; 1; 3] [SLit 1; SLit 2; SLit 3; SLit 4; SLit 5; SLit 6].
Definition y22 : tensor sym :=
  Tensor [2; 2] [SLit 1; SLit 2; SLit 3; SLit 4].
Definition y32 : tensor sym :=
  Tensor [3; 2] [SLit 1; SLit 2; SLit 3; SLit 4; SLit 5; SLit 6].
Definition fresh : CDropout.state sym * nat :=
  CDropout.init (SLit (1 # 4)) (SLit 1) (SLit (1 # 10)) 0.
Definition used : CDropout.state sym * nat :=
  let '(_, L, g) := CDropout.forward fresh.1 y12 false 2 fresh.2 in (L, g).

(** The noise pool of a policy search with three steps and two
    particles of dimension one: five rows. *)
Definition pool : tensor xq := qtensor [5; 1] [10; 11; 12; 13; 14]%Q.

(** A rollout of two steps with two particles of dimension one: the
    actions are the states, the transition returns the batch [(3, 3)] with
    the rewards [(1, 1)], and the Cholesky factor of a matrix [(a)] is
    [(sqrt a)]. *)
Definition mm_policy (s : tensor xq) (resample : bool)
  : comp tape (tensor xq) := cret s.
Definition mm_forward (s a : tensor xq) (measurement_noise resample : bool)
    (z_states z_rewards : tensor xq) : comp tape (tensor xq * tensor xq) :=
  cret (qtensor [2; 1] [3; 3]%Q, qtensor [2; 1] [1; 1]%Q).
Definition potrf1 (S : tensor xq) : option (tensor xq) :=
  match shape S, data S with
  | [1; 1], [a] =>
      match ssqrt a with
      | Some r => Some (Tensor [1; 1] [Some r])
      | None => None
      end
  | _, _ => None
  end.
Definition mm_options : mc_pilco.options :=
  mc_pilco.Options false false true true (Some pool) (Some pool) (Some pool).
Definition mm_states0 : tensor xq := qtensor [2; 1] [5; 6]%Q.

(** A trajectory of two steps with two particles. *)
Definition trajectory : list mc_pilco.entry :=
  [mc_pilco.Entry mm_states0 mm_states0 (qtensor [2; 1] [1; 2]%Q);
   mc_pilco.Entry mm_states0 mm_states0 (qtensor [2; 1] [3; 6]%Q)].

(** A network: dropout, a linear layer with a bias, dropout, a linear
    layer without bias, relaxed dropout; and a network without stochastic
    layer.  The linear layers are not called in the examples. *)
Definition linear (w : tensor xq) (b : option (tensor xq))
  : BSequential.layer xq :=
  BSequential.Affine w b (λ x, Some x).
Definition network : list (BSequential.layer xq) :=
  [BSequential.Bernoulli bdropout;
   linear (qtensor [1; 2] [2; 4]%Q) (Some (qtensor [1] [3]%Q));
   BSequential.Bernoulli bdropout;
   linear (qtensor [1; 1] [2]%Q) None;
   BSequential.Concrete cdropout].
Definition plain_network : list (BSequential.layer xq) :=
  [linear (qtensor [1; 2] [2; 4]%Q) (Some (qtensor [1] [3]%Q));
   BSequential.Plain (λ x, Some x)].

(** A dynamics model of a state and an action of dimension one.  The
    network returns the first column of its input, the inputs are not
    rescaled, and the reward is ten times the state.  The targets of the
    dataset have three columns. *)
Definition regressor : Regressor.state xq :=
  Regressor.State [] (qtensor [1; 2] [0; 0]%Q) (qtensor [1; 1] [0]%Q)
    (qtensor [1; 2] [0; 0]%Q) (qtensor [1; 2] [1; 1]%Q)
    (qtensor [1; 2] [1; 1]%Q) (qtensor [1; 1] [0]%Q)
    (qtensor [1; 1] [1]%Q) (qtensor [1; 1] [1]%Q).
Definition dynamics : DynamicsModel.state xq :=
  DynamicsModel.State regressor (qtensor [1; 1] [1]%Q) (qtensor [1; 1] [1]%Q).
Definition first_column (x : tensor xq) (kw : gmap string pyval)
  : comp tape (output xq) := cret (OTensor (narrow_last 0 1 x)).
Definition tenfold (s : tensor xq) : option (tensor xq) :=
  Some (tmap (smul (lit 10)) s).
Definition inputs22 : tensor xq := qtensor [2; 2] [1; 2; 3; 4]%Q.
Definition targets23 : tensor xq := qtensor [2; 3] [1; 5; 9; 2; 7; 4]%Q.
End examples.

(** ** Invariants and relations of the layers *)

(** A tensor that has as many entries as its shape says. *)
Definition wf {A : Type} (x : tensor A) : Prop :=
  length (data x) = numel (shape x).

Section invariants.
Context `{Scalar A}.

(** The stored relaxed mask of a [CDropout] layer, when there is one, has
    the shape of the stored base noise. *)
Definition consistent (L : CDropout.state A) : Prop :=
  match CDropout.concrete_noise L with
  | Some c => shape c = shape (CDropout.noise L)
  | None => True
  end.

Definition layer_consistent (m : BSequential.layer A) : Prop :=
  match m with
  | BSequential.Concrete L => consistent L
  | _ => True
  end.

(** Two modules that differ at most in what the calls of this file
    write: the masks of a stochastic layer and its attribute [p]. *)
Definition same_parameters (m m' : BSequential.layer A) : Prop :=
  match m, m' with
  | BSequential.Bernoulli L, BSequential.Bernoulli L' =>
      BDropout.rate L' = BDropout.rate L
      ∧ BDropout.regularizer_scale L' = BDropout.regularizer_scale L
  | BSequential.Concrete L, BSequential.Concrete L' =>
      CDropout.rate L' = CDropout.rate L
      ∧ CDropout.regularizer_scale L' = CDropout.regularizer_scale L
      ∧ CDropout.logit_p L' = CDropout.logit_p L
      ∧ CDropout.temp L' = CDropout.temp L
      ∧ CDropout.training L' = CDropout.training L
  | BSequential.Affine _ _ _, _ | BSequential.Plain _, _ => m' = m
  | _, _ => False
  end.

(** The column [j] of a matrix of [n] rows and [d] columns. *)
Definition matrix_column (x : tensor A) (n d j : nat) : list A :=
  (λ p, getd (data x) (p * d + j)) <$> seq 0 n.
End invariants.

(** ** More inputs of the examples *)

Module more_examples.
(** The relaxed layer of the examples in evaluation mode. *)
Definition cdropout_eval : CDropout.state xq :=
  CDropout.State (Some (1 # 2)%Q) (Some (1 # 4)%Q) (Some (3 # 4)%Q)
                 (qtensor [2] [1 # 2; 1 # 2]%Q) (Some (1 # 10)%Q)
                 (Some 0%Q) (Some (qtensor [2] [1 # 2; 1 # 2]%Q)) false.

(** A model that returns its input unless it is called with
    [resample=True], where it raises. *)
Definition reusing_model (x : tensor xq) (kw : gmap string pyval)
  : comp tape (output xq) :=
  match kw !! "resample"%string with
  | Some (VBool true) => lift None
  | _ => cret (OTensor x)
  end.

(** The keywords of a pass that reuses the stored masks. *)
Definition reuse : gmap string pyval := {[ "resample"%string := VBool false ]}.
Definition redraw : gmap string pyval := {[ "resample"%string := VBool true ]}.

(** Two particles of dimension one that agree, the noise of a step and
    the Cholesky factor of the jitter alone. *)
Definition particles : tensor xq := qtensor [2; 1] [3; 3]%Q.
Definition noise21 : tensor xq := qtensor [2; 1] [10; 11]%Q.
Definition factor : tensor xq := qtensor [1; 1] [1 # 1000]%Q.

(** A policy search on models that have nothing to resample and an
    optimiser that does nothing. *)
Definition no_resample : comp tape unit := cret ().
Definition no_update (l : tensor xq) : comp tape unit := cret ().

(** The pools that the tape of the examples fills for three steps and
    two particles of dimension one. *)
Definition pegasus_pools : mc_pilco.pools :=
  mc_pilco.Pools
    (Some (qtensor [5; 1] [1 # 2; 9 # 10; 1 # 10; 4 # 5; 3 # 10]%Q))
    (Some (qtensor [5; 1] [7 # 10; 1 # 5; 3 # 5; 0; 0]%Q))
    (Some (qtensor [5; 1] [0; 0; 0; 0; 0]%Q)).

(** The states and the actions of which [examples.inputs22] is the
    concatenation. *)
Definition states21 : tensor xq := qtensor [2; 1] [1; 3]%Q.
Definition actions21 : tensor xq := qtensor [2; 1] [2; 4]%Q.

(** A dataset of three rows whose columns have the means 1 and 2 and
    the standard deviations 1 and 2, and the models of the examples after
    [set_dataset]. *)
Definition inputs32 : tensor xq := qtensor [3; 2] [0; 0; 1; 2; 2; 4]%Q.
Definition targets31 : tensor xq := qtensor [3; 1] [5; 7; 9]%Q.
Definition fitted : Regressor.state xq :=
  default examples.regressor
    (Regressor.set_dataset examples.plain_complex examples.regressor
       inputs32 targets31).
Definition fitted_dynamics : DynamicsModel.state xq :=
  default examples.dynamics
    (DynamicsModel.set_dataset examples.plain_complex examples.dynamics
       examples.inputs22 examples.targets23).
End more_examples.

(** * Properties *)

(** ** Broadcasting a mask over the leading dimensions *)

Section tensor_facts.
Context `{Scalar A}.

Lemma numel_app (s t : list nat) : numel (s ++ t) = numel s * numel t.
Proof.
  unfold numel. induction s as [|d s IH]; cbn [foldr app]; [lia|].
  rewrite IH. lia.
Qed.

Lemma numel_reverse (s : list nat) : numel (reverse s) = numel s.
Proof.
  induction s as [|d s IH]; [done|].
  rewrite reverse_cons, numel_app, IH. unfold numel. cbn [foldr]. lia.
Qed.

Lemma bshape_take (r : list nat) (j : nat) : bshape r (take j r) = Some r.
Proof.
  revert j. induction r as [|d r IH]; intros [|j]; try done.
  cbn [take bshape]. rewrite Nat.eqb_refl, IH. done.
Qed.

Lemma bshape_refl (r : list nat) : bshape r r = Some r.
Proof. rewrite <- (firstn_all r) at 2. apply bshape_take. Qed.

Lemma broadcast_shape_drop (s : list nat) (j : nat) :
  broadcast_shape s (drop j s) = Some s.
Proof.
  unfold broadcast_shape. rewrite reverse_drop.
  rewrite bshape_take. cbn. by rewrite reverse_involutive.
Qed.

Lemma last_dims_drop (k : nat) (s : list nat) :
  exists j, last_dims k s = drop j s.
Proof.
  destruct k as [|k]; [by exists 0|]. by exists (length s - S k).
Qed.

Lemma bidx_take (r : list nat) (j k st : nat) :
  bidx r (take j r) k st = (k mod numel (take j r)) * st.
Proof.
  revert j k st. unfold numel.
  induction r as [|d r IH]; intros [|j] k st;
    cbn [take bidx foldr]; try (rewrite Nat.mod_1_r; lia).
  rewrite IH, Nat.Div0.mod_mul_r.
  destruct (d =? 1) eqn:Hd.
  - apply Nat.eqb_eq in Hd. subst d. rewrite Nat.mod_1_r. lia.
  - lia.
Qed.

Lemma bidx_same (r : list nat) (k : nat) :
  k < numel r -> bidx r r k 1 = k.
Proof.
  intros Hk. rewrite <- (firstn_all r) at 2. rewrite bidx_take, firstn_all.
  rewrite Nat.mod_small by done. lia.
Qed.

(** A mask whose shape is made of the last dimensions of [x] multiplies,
    entry by entry, every block of [x] of that shape. *)
Lemma tzip_suffix (f : A -> A -> A) (x y : tensor A) (j : nat) :
  shape y = drop j (shape x) ->
  tzip f x y = Some (blockwise f x y).
Proof.
  intros Hy. unfold tzip, blockwise. rewrite Hy, broadcast_shape_drop. cbn.
  do 2 f_equal. apply list_fmap_ext. intros i k Hk.
  apply lookup_seq in Hk as [-> Hi]. cbn.
  rewrite bidx_same by (by rewrite numel_reverse).
  rewrite reverse_drop, bidx_take, <- reverse_drop, numel_reverse.
  by rewrite Nat.mul_1_r.
Qed.

Lemma tzip_same_shape (f : A -> A -> A) (x y : tensor A) :
  shape y = shape x ->
  tzip f x y =
  Some (Tensor (shape x)
          ((λ i, f (getd (data x) i) (getd (data y) i))
           <$> seq 0 (numel (shape x)))).
Proof.
  intros Hy. rewrite (tzip_suffix f x y 0) by done.
  unfold blockwise. do 2 f_equal.
  apply list_fmap_ext. intros i k Hk.
  apply lookup_seq in Hk as [-> Hi]. cbn.
  by rewrite Hy, Nat.mod_small.
Qed.
End tensor_facts.

(** ** Lists of entries in row-major order *)

Section grids.
Context `{Scalar A}.

Lemma seq_bind_inner {B : Type} (f : nat -> nat -> B) (j n : nat) :
  (seq j n ≫= λ a, seq 0 1 ≫= λ c, [f a c]) = (λ a, f a 0) <$> seq j n.
Proof.
  revert j. induction n as [|n IH]; intros j; [done|].
  cbn. by rewrite IH.
Qed.

Lemma getd_fmap_seq (l : list A) : (λ i, getd l i) <$> seq 0 (length l) = l.
Proof.
  apply list_eq. intros i. rewrite list_lookup_fmap.
  destruct (decide (i < length l)) as [Hi|Hi].
  - rewrite lookup_seq_lt by done. cbn. unfold getd.
    destruct (lookup_lt_is_Some_2 l i Hi) as [x Hx]. by rewrite Hx.
  - rewrite lookup_seq_ge by lia. cbn. symmetry. apply lookup_ge_None. lia.
Qed.

Lemma list_bind_join {B C : Type} (f : B -> list C) (l : list B) :
  l ≫= f = mjoin (f <$> l).
Proof. induction l as [|x l IH]; [done|]. cbn. by rewrite IH. Qed.

(** The batch [k] of a stack of batches of [n] entries. *)
Lemma getd_join (ls : list (list A)) (l : list A) (n k b : nat) :
  Forall (λ l, length l = n) ls -> ls !! k = Some l -> b < n ->
  getd (mjoin ls) (k * n + b) = getd l b.
Proof.
  intros Hn Hk Hb. unfold getd. f_equal.
  assert (length l = n) as Hl.
  { eapply Forall_forall in Hn; [done|]. by eapply list_elem_of_lookup_2. }
  destruct (lookup_lt_is_Some_2 l b) as [x Hx]; [lia|].
  rewrite Hx. apply (join_lookup_Some_same_length' n); [done..|].
  by exists l.
Qed.

Lemma grid_join (r c : nat) (g : nat -> nat -> A) :
  grid r c g = mjoin ((λ a, g a <$> seq 0 c) <$> seq 0 r).
Proof.
  unfold grid. rewrite list_bind_join. f_equal.
Qed.

Lemma grid_length (r c : nat) (g : nat -> nat -> A) :
  length (grid r c g) = r * c.
Proof.
  rewrite grid_join. generalize 0 at 2. 
  induction r as [|r IH]; intros j; [done|].
  cbn. rewrite length_app, length_fmap, length_seq, IH. done.
Qed.

Lemma grid_lookup (r c : nat) (g : nat -> nat -> A) (a b : nat) :
  a < r -> b < c -> grid r c g !! (a * c + b) = Some (g a b).
Proof.
  intros Ha Hb. rewrite grid_join.
  apply (join_lookup_Some_same_length' c); [|done|].
  - apply Forall_fmap, Forall_forall. intros k _. cbn.
    by rewrite length_fmap, length_seq.
  - exists (g a <$> seq 0 c). split.
    + by rewrite list_lookup_fmap, lookup_seq_lt.
    + by rewrite list_lookup_fmap, lookup_seq_lt.
Qed.

Lemma getd_grid (r c : nat) (g : nat -> nat -> A) (a b : nat) :
  a < r -> b < c -> getd (grid r c g) (a * c + b) = g a b.
Proof. intros Ha Hb. unfold getd. by rewrite grid_lookup. Qed.

Lemma grid_ext (r c : nat) (g g' : nat -> nat -> A) :
  (forall a b, a < r -> b < c -> g a b = g' a b) -> grid r c g = grid r c g'.
Proof.
  intros Hg. rewrite !grid_join. f_equal.
  apply list_fmap_ext. intros i a [-> Ha]%lookup_seq.
  apply list_fmap_ext. intros j b [-> Hb]%lookup_seq. by apply Hg.
Qed.

Lemma fmap_seq_grid (f : nat -> A) (r c : nat) :
  f <$> seq 0 (r * c) = grid r c (λ a b, f (a * c + b)).
Proof.
  apply list_eq. intros i. rewrite list_lookup_fmap.
  destruct (decide (i < r * c)) as [Hi|Hi].
  - rewrite lookup_seq_lt by done. cbn.
    assert (c ≠ 0) as Hc by (intros ->; lia).
    pose proof (Nat.div_mod_eq i c) as Hdm.
    pose proof (Nat.mod_upper_bound i c Hc) as Hm.
    assert (i `div` c < r) as Hd.
    { apply Nat.Div0.div_lt_upper_bound. lia. }
    replace i with (i `div` c * c + i `mod` c) at 2 by lia.
    rewrite grid_lookup by done. do 2 f_equal. lia.
  - rewrite lookup_seq_ge by lia. cbn. symmetry.
    apply lookup_ge_None. rewrite grid_length. lia.
Qed.

Lemma getd_fmap_seq_lt (f : nat -> A) (n i : nat) :
  i < n -> getd (f <$> seq 0 n) i = f i.
Proof.
  intros Hi. unfold getd. by rewrite list_lookup_fmap, lookup_seq_lt.
Qed.

Lemma fmap_grid (f : A -> A) (r c : nat) (g : nat -> nat -> A) :
  f <$> grid r c g = grid r c (λ a b, f (g a b)).
Proof.
  rewrite (grid_join r c (λ a b, f (g a b))), grid_join.
  generalize 0 at 2 4. induction r as [|r IH]; intros j; [done|].
  cbn. rewrite fmap_app, IH. f_equal. by rewrite <- list_fmap_compose.
Qed.

Lemma tmap_grid (f : A -> A) (s : list nat) (r c : nat)
    (g : nat -> nat -> A) :
  tmap f (Tensor s (grid r c g)) = Tensor s (grid r c (λ a b, f (g a b))).
Proof. unfold tmap. cbn. by rewrite fmap_grid. Qed.

Lemma tzip_grid (f : A -> A -> A) (r c : nat) (g g' : nat -> nat -> A) :
  tzip f (Tensor [r; c] (grid r c g)) (Tensor [r; c] (grid r c g'))
  = Some (Tensor [r; c] (grid r c (λ a b, f (g a b) (g' a b)))).
Proof.
  rewrite tzip_same_shape by done. cbn [shape data]. do 2 f_equal.
  unfold numel. cbn [foldr]. rewrite Nat.mul_1_r, fmap_seq_grid.
  apply grid_ext. intros a b Ha Hb. by rewrite !getd_grid.
Qed.

Lemma transpose_grid (r c : nat) (g : nat -> nat -> A) :
  transpose (Tensor [r; c] (grid r c g))
  = Some (Tensor [c; r] (grid c r (λ j i, g i j))).
Proof.
  unfold transpose. cbn [shape data]. do 2 f_equal.
  apply grid_ext. intros j i Hj Hi. by rewrite getd_grid.
Qed.

Lemma mm_grid (r n c : nat) (g g' : nat -> nat -> A) :
  mm (Tensor [r; n] (grid r n g)) (Tensor [n; c] (grid n c g'))
  = Some (Tensor [r; c]
            (grid r c (λ i j, ssum ((λ k, smul (g i k) (g' k j))
                                      <$> seq 0 n)))).
Proof.
  unfold mm. cbn [shape data]. rewrite Nat.eqb_refl. do 2 f_equal.
  apply grid_ext. intros i j Hi Hj. f_equal.
  apply list_fmap_ext. intros ? k [-> Hk]%lookup_seq. cbn.
  by rewrite !getd_grid.
Qed.
End grids.

(** ** The stochastic layers *)

Section dropout_facts.
Context `{Scalar A} `{Rng G A}.

Lemma shape_eqb_refl (s : list nat) : shape_eqb s s = true.
Proof. unfold shape_eqb. by apply bool_decide_eq_true_2. Qed.

Lemma shape_eqb_ne (s t : list nat) : s ≠ t -> shape_eqb s t = false.
Proof. unfold shape_eqb. by apply bool_decide_eq_false_2. Qed.

Lemma tmul_last_dims (x m : tensor A) (k : nat) :
  shape m = last_dims k (shape x) -> tmul x m = Some (masked x m).
Proof.
  intros Hm. destruct (last_dims_drop k (shape x)) as [j Hj].
  unfold tmul, masked. apply tzip_suffix with j. congruence.
Qed.

Lemma tmul_same_shape (x m : tensor A) :
  shape m = shape x -> tmul x m = Some (masked x m).
Proof. intros Hm. by apply tmul_last_dims with 0. Qed.

Lemma numel_take_drop (s : list nat) (j : nat) :
  numel s = numel (take j s) * numel (drop j s).
Proof. by rewrite <- numel_app, take_drop. Qed.

(** The first block of a tensor that has entries. *)
Lemma view_first_last_dims (x : tensor A) (k : nat) :
  numel (shape x) ≠ 0 ->
  view_first x (last_dims k (shape x)) =
  Some (Tensor (last_dims k (shape x))
               (take (numel (last_dims k (shape x))) (data x))).
Proof.
  intros Hx. destruct (last_dims_drop k (shape x)) as [j Hj].
  unfold view_first. rewrite Hj.
  pose proof (numel_take_drop (shape x) j) as Hn.
  assert (numel (drop j (shape x)) ≠ 0) as Hd by (intros E; rewrite E in Hn; lia).
  assert (numel (shape x) mod numel (drop j (shape x)) = 0) as Hm.
  { rewrite Hn at 1. apply Nat.Div0.mod_mul. }
  rewrite Hm. apply Nat.eqb_neq in Hd, Hx. rewrite Hd, Hx. done.
Qed.

(** [BDropout.forward] on an input whose last dimensions have the shape
    of the stored mask. *)
Lemma BDropout_forward_reuse (L : BDropout.state A) (x : tensor A)
    (mask_dims : nat) (g : G) :
  last_dims mask_dims (shape x) = shape (BDropout.noise L) ->
  BDropout.forward L x false mask_dims g
  = (Some (masked x (BDropout.noise L)), L, g).
Proof.
  intros Hs. unfold BDropout.forward. rewrite Hs, shape_eqb_refl. cbn.
  by rewrite (tmul_last_dims x _ mask_dims).
Qed.

Lemma BDropout_forward_transient (L : BDropout.state A) (x : tensor A)
    (mask_dims : nat) (g : G) :
  last_dims mask_dims (shape x) = shape (BDropout.noise L) ->
  BDropout.forward L x true mask_dims g
  = (Some (masked x (Tensor (shape x)
             (bernoulli (BDropout.p L) (numel (shape x)) g).1)),
     L, (bernoulli (BDropout.p L) (numel (shape x)) g).2).
Proof.
  intros Hs. unfold BDropout.forward. rewrite Hs, shape_eqb_refl. cbn.
  destruct (bernoulli _ _ g) as [d g']. cbn.
  by rewrite tmul_same_shape.
Qed.

(** C4.  On an input whose last dimensions have the shape of the stored
    mask, [BDropout.forward] with [resample=False] returns the input
    multiplied entry by entry by the stored mask and leaves the layer
    and the generator as they were, so that the next such call uses the
    same mask; with [resample=True] it returns the input multiplied by a
    mask newly drawn with the keep probability [p], of which the layer,
    returned unchanged, keeps nothing. *)
Theorem BDropout_forward_stored_shape (L : BDropout.state A)
    (x : tensor A) (mask_dims : nat) (g : G) :
  last_dims mask_dims (shape x) = shape (BDropout.noise L) ->
  BDropout.forward L x false mask_dims g
    = (Some (masked x (BDropout.noise L)), L, g)
  ∧ BDropout.forward L x true mask_dims g
    = (Some (masked x (Tensor (shape x)
               (bernoulli (BDropout.p L) (numel (shape x)) g).1)),
       L, (bernoulli (BDropout.p L) (numel (shape x)) g).2).
Proof.
  intros Hs. split.
  - by apply BDropout_forward_reuse.
  - by apply BDropout_forward_transient.
Qed.
End dropout_facts.

Lemma BDropout_forward_stored_shape_witness :
  last_dims 1 (shape examples.x32) = shape (BDropout.noise examples.bdropout)
  ∧ BDropout.forward examples.bdropout examples.x32 false 1 examples.uniforms
    = (Some (qtensor [3; 2] [1; 0; 3; 0; 5; 0]%Q),
       examples.bdropout, examples.uniforms)
  ∧ BDropout.forward examples.bdropout examples.x32 true 1 examples.uniforms
    = (Some (qtensor [3; 2] [1; 0; 3; 0; 5; 6]%Q),
       examples.bdropout, [1 # 5; 3 # 5]%Q).
Proof.
  split; [reflexivity|].
  destruct (BDropout_forward_stored_shape examples.bdropout examples.x32 1
              examples.uniforms eq_refl) as [H1 H2].
  rewrite H1, H2. split; vm_compute; reflexivity.
Defined.

Section shape_change.
Context `{Scalar A} `{Rng G A}.

(** A [BDropout] layer checks the shape before it looks at [resample]:
    on an input with entries whose last dimensions differ from the shape
    of the stored mask, a mask of that shape is drawn and stored, and
    the input is multiplied by it. *)
Lemma BDropout_forward_new_shape (L : BDropout.state A) (x : tensor A)
    (resample : bool) (mask_dims : nat) (g : G) :
  last_dims mask_dims (shape x) ≠ shape (BDropout.noise L) ->
  numel (shape x) ≠ 0 ->
  let s := last_dims mask_dims (shape x) in
  let p := ssub (lit 1) (BDropout.rate L) in
  let mask := Tensor s (bernoulli p (numel s) g).1 in
  BDropout.forward L x resample mask_dims g
  = (Some (masked x mask),
     BDropout.State (BDropout.regularizer_scale L) (BDropout.rate L) p mask,
     (bernoulli p (numel s) g).2).
Proof.
  intros Hs Hx. cbn zeta. unfold BDropout.forward.
  rewrite shape_eqb_ne by done. cbn [negb].
  rewrite view_first_last_dims by done.
  unfold BDropout.update_noise. cbn [shape].
  destruct (bernoulli _ _ g) as [d g']. cbn.
  by rewrite (tmul_last_dims x _ mask_dims).
Qed.

(** A [CDropout] layer looks at [resample] first.  With [resample=True]
    the base noise of the call has the shape of the whole input and is
    not stored: the buffer [noise] keeps its value and its shape,
    whatever the shape of the input. *)
Lemma CDropout_forward_resample (L : CDropout.state A) (x : tensor A)
    (mask_dims : nat) (g : G) :
  let u := Tensor (shape x) (rand (numel (shape x)) g).1 in
  CDropout.forward L x true mask_dims g
  = (Some (masked x (CDropout.concrete L u)),
     CDropout.update_concrete_noise L u,
     (rand (numel (shape x)) g).2).
Proof.
  cbn zeta. unfold CDropout.forward.
  destruct (rand _ g) as [d g']. cbn.
  rewrite orb_true_r. cbn.
  by rewrite tmul_same_shape.
Qed.

(** With [resample=False] the shape is compared with that of the stored
    relaxed mask: when there is none, or one of another shape, a base
    noise with the shape of the last dimensions is drawn and stored, and
    the relaxed mask is computed from it. *)
Lemma CDropout_forward_new_shape (L : CDropout.state A) (x : tensor A)
    (mask_dims : nat) (g : G) :
  (forall c, CDropout.concrete_noise L = Some c ->
             last_dims mask_dims (shape x) ≠ shape c) ->
  numel (shape x) ≠ 0 ->
  let s := last_dims mask_dims (shape x) in
  let u := Tensor s (rand (numel s) g).1 in
  CDropout.forward L x false mask_dims g
  = (Some (masked x (CDropout.concrete L u)),
     CDropout.update_concrete_noise (CDropout.set_noise L u) u,
     (rand (numel s) g).2).
Proof.
  intros Hc Hx. cbn zeta. unfold CDropout.forward.
  assert (match CDropout.concrete_noise L with
          | Some c => negb (shape_eqb (last_dims mask_dims (shape x))
                                      (shape c))
          | None => true
          end = true) as ->.
  { destruct (CDropout.concrete_noise L) as [c|]; [|done].
    by rewrite shape_eqb_ne by auto. }
  rewrite view_first_last_dims by done.
  unfold CDropout.update_noise. cbn [shape].
  destruct (rand _ g) as [d g']. cbn.
  rewrite orb_true_r. cbn.
  by rewrite (tmul_last_dims x _ mask_dims).
Qed.

(** What the layers do on a new shape.  On an input with entries whose
    last dimensions differ from the shape of the stored mask, [BDropout]
    draws and stores a mask of the new shape and multiplies the input by
    it, whatever [resample] is.  [CDropout] does so, for its base noise
    and the relaxed mask computed from it, when [resample] is false and
    the stored relaxed mask is absent or of another shape; when
    [resample] is true it leaves the stored base noise as it is. *)
Theorem forward_on_new_shape (B : BDropout.state A) (C : CDropout.state A)
    (x : tensor A) (mask_dims : nat) (g : G) :
  numel (shape x) ≠ 0 ->
  let s := last_dims mask_dims (shape x) in
  (s ≠ shape (BDropout.noise B) ->
   forall resample,
     let r := BDropout.forward B x resample mask_dims g in
     let mask := Tensor s (bernoulli (ssub (lit 1) (BDropout.rate B))
                             (numel s) g).1 in
     r.1.1 = Some (masked x mask) ∧ BDropout.noise r.1.2 = mask)
  ∧ ((forall c, CDropout.concrete_noise C = Some c -> s ≠ shape c) ->
     let r := CDropout.forward C x false mask_dims g in
     let u := Tensor s (rand (numel s) g).1 in
     r.1.1 = Some (masked x (CDropout.concrete C u))
     ∧ CDropout.noise r.1.2 = u
     ∧ CDropout.concrete_noise r.1.2 = Some (CDropout.concrete C u))
  ∧ CDropout.noise (CDropout.forward C x true mask_dims g).1.2
    = CDropout.noise C.
Proof.
  intros Hx s. split; [|split].
  - intros Hs resample. cbn zeta.
    by rewrite (BDropout_forward_new_shape B x resample mask_dims g).
  - intros Hc. cbn zeta.
    by rewrite (CDropout_forward_new_shape C x mask_dims g).
  - by rewrite CDropout_forward_resample.
Qed.

(** The calls of the layers, with the defaults of their signatures. *)
Lemma BDropout_call_default (L : BDropout.state A) (x : tensor A)
    (kw : gmap string pyval) (mask_dims : nat) (g : G) :
  kw !! "resample"%string = None ->
  as_index (default (VInt 2) (kw !! "mask_dims"%string)) = Some mask_dims ->
  BDropout.call L x kw g = BDropout.forward L x true mask_dims g.
Proof. intros Hr Hm. unfold BDropout.call. by rewrite Hr, Hm. Qed.

Lemma CDropout_call_default (L : CDropout.state A) (x : tensor A)
    (kw : gmap string pyval) (mask_dims : nat) (g : G) :
  kw !! "resample"%string = None ->
  as_index (default (VInt 2) (kw !! "mask_dims"%string)) = Some mask_dims ->
  CDropout.call L x kw g = CDropout.forward L x false mask_dims g.
Proof. intros Hr Hm. unfold CDropout.call. by rewrite Hr, Hm. Qed.

(** A [CDropout] layer whose relaxed mask has the shape of the last
    dimensions of the input draws nothing when [resample] is false. *)
Lemma CDropout_forward_stored_shape (L : CDropout.state A) (x : tensor A)
    (c : tensor A) (mask_dims : nat) (g : G) :
  CDropout.concrete_noise L = Some c ->
  last_dims mask_dims (shape x) = shape c ->
  CDropout.forward L x false mask_dims g
  = if CDropout.training L
    then (tmul x (CDropout.concrete L (CDropout.noise L)),
          CDropout.update_concrete_noise L (CDropout.noise L), g)
    else (Some (masked x c), L, g).
Proof.
  intros Hc Hs. unfold CDropout.forward. rewrite Hc, Hs, shape_eqb_refl.
  cbn. rewrite orb_false_r. destruct (CDropout.training L); cbn.
  - done.
  - rewrite Hc. by rewrite (tmul_last_dims x c mask_dims).
Qed.
End shape_change.

Section defaults.
Context `{Scalar A} `{Rng G A} {W : Type}.
Variable to_complex : tensor A -> list nat -> option (tensor A).
Variable model : tensor A -> gmap string pyval -> comp W (output A).

Lemma Policy_model_kwargs_default (kw : gmap string pyval) :
  kw !! "resample"%string = None ->
  Policy.model_kwargs kw = <["resample"%string := VBool true]> kw.
Proof. intros Hr. unfold Policy.model_kwargs. by rewrite Hr. Qed.

Lemma Policy_model_kwargs_given (kw : gmap string pyval) (v : pyval) :
  Policy.model_kwargs (<["resample"%string := v]> kw)
  = <["resample"%string := v]> kw.
Proof.
  unfold Policy.model_kwargs. rewrite lookup_insert_eq. cbn.
  apply insert_insert_eq.
Qed.

(** C10.  Called without the keyword [resample], a [BDropout] layer
    runs [forward] with [resample=True]: on an input with the shape of
    the stored mask it returns the input times a mask drawn for this call
    and keeps its own.  A [CDropout] layer runs [forward] with
    [resample=False]: when its relaxed mask has the shape of the input it
    draws nothing and keeps its base noise, from which the relaxed mask of
    the output is computed (in evaluation mode the stored relaxed mask is
    used as it is).  [Policy.forward], whatever its model is, calls it on
    the converted input with the keywords it was given and
    [resample=True], and returns [scale * y + bias] for the tensor [y] the
    model returns; it raises when the conversion or the model does.  A
    value of [resample] that the caller gives is passed on as it is. *)
Theorem resample_defaults (B : BDropout.state A) (C : CDropout.state A)
    (P : Policy.state A) (x : tensor A) (kw : gmap string pyval)
    (mask_dims : nat) (g : G) (w : W) :
  kw !! "resample"%string = None ->
  as_index (default (VInt 2) (kw !! "mask_dims"%string)) = Some mask_dims ->
  BDropout.call B x kw g = BDropout.forward B x true mask_dims g
  ∧ (last_dims mask_dims (shape x) = shape (BDropout.noise B) ->
     BDropout.call B x kw g
     = (Some (masked x (Tensor (shape x)
                (bernoulli (BDropout.p B) (numel (shape x)) g).1)),
        B, (bernoulli (BDropout.p B) (numel (shape x)) g).2))
  ∧ CDropout.call C x kw g = CDropout.forward C x false mask_dims g
  ∧ (forall c, CDropout.concrete_noise C = Some c ->
               last_dims mask_dims (shape x) = shape c ->
               CDropout.call C x kw g
               = (if CDropout.training C
                  then (tmul x (CDropout.concrete C (CDropout.noise C)),
                        CDropout.update_concrete_noise C (CDropout.noise C),
                        g)
                  else (Some (masked x c), C, g))
               ∧ (CDropout.call C x kw g).2 = g
               ∧ CDropout.noise (CDropout.call C x kw g).1.2
                 = CDropout.noise C)
  ∧ Policy.forward to_complex model P x kw w
    = (do x' <- lift (to_complex x (Policy.angle_dims P));
       do y <- model x' (<["resample"%string := VBool true]> kw);
       match y with
       | OTensor y =>
           lift (u ← tmul (Policy.scale P) y; tadd u (Policy.bias P))
       | OTuple _ => lift None
       end)%comp w
  ∧ (forall v kw',
       Policy.forward to_complex model P x (<["resample"%string := v]> kw') w
       = (do x' <- lift (to_complex x (Policy.angle_dims P));
          do y <- model x' (<["resample"%string := v]> kw');
          match y with
          | OTensor y =>
              lift (u ← tmul (Policy.scale P) y; tadd u (Policy.bias P))
          | OTuple _ => lift None
          end)%comp w).
Proof.
  intros Hr Hm.
  rewrite (BDropout_call_default B x kw mask_dims g Hr Hm).
  rewrite (CDropout_call_default C x kw mask_dims g Hr Hm).
  split; [done|]. split; [by apply BDropout_forward_transient|].
  split; [done|]. split.
  - intros c Hc Hs.
    rewrite (CDropout_forward_stored_shape C x c mask_dims g Hc Hs).
    by destruct (CDropout.training C).
  - split.
    + unfold Policy.forward. by rewrite Policy_model_kwargs_default.
    + intros v kw'. unfold Policy.forward.
      by rewrite Policy_model_kwargs_given.
Qed.
End defaults.

Lemma resample_defaults_witness :
  (∅ : gmap string pyval) !! "resample"%string = None
  ∧ as_index (default (VInt 2) ((∅ : gmap string pyval) !! "mask_dims"%string))
    = Some 2
  ∧ BDropout.call examples.bdropout (qtensor [2] [5; 7]%Q) ∅ examples.uniforms
    = (Some (qtensor [2] [5; 0]%Q), examples.bdropout,
       drop 2 examples.uniforms)
  ∧ CDropout.call more_examples.cdropout_eval (qtensor [2] [5; 7]%Q) ∅
      examples.uniforms
    = (Some (qtensor [2] [5 # 2; 7 # 2]%Q), more_examples.cdropout_eval,
       examples.uniforms)
  ∧ Policy.forward examples.plain_complex examples.resampling_model
      examples.policy examples.x23 ∅ examples.uniforms
    = Some (qtensor [2; 3] [3; 5; 7; 9; 11; 13]%Q, examples.uniforms)
  ∧ Policy.forward examples.plain_complex more_examples.reusing_model
      examples.policy examples.x23 ∅ examples.uniforms
    = None.
Proof.
  assert ((∅ : gmap string pyval) !! "resample"%string = None) as Hr
    by (vm_compute; reflexivity).
  assert (as_index (default (VInt 2)
                      ((∅ : gmap string pyval) !! "mask_dims"%string))
          = Some 2) as Hm by (vm_compute; reflexivity).
  split; [exact Hr|]. split; [exact Hm|].
  destruct (resample_defaults examples.plain_complex examples.resampling_model
              examples.bdropout more_examples.cdropout_eval examples.policy
              (qtensor [2] [5; 7]%Q) ∅ 2 examples.uniforms examples.uniforms
              Hr Hm) as (_ & HB & _ & HC & _ & _).
  destruct (resample_defaults examples.plain_complex examples.resampling_model
              examples.bdropout more_examples.cdropout_eval examples.policy
              examples.x23 ∅ 2 examples.uniforms examples.uniforms
              Hr Hm) as (_ & _ & _ & _ & HP & _).
  destruct (resample_defaults examples.plain_complex
              more_examples.reusing_model
              examples.bdropout more_examples.cdropout_eval examples.policy
              examples.x23 ∅ 2 examples.uniforms examples.uniforms
              Hr Hm) as (_ & _ & _ & _ & HP' & _).
  destruct (HC (qtensor [2] [1 # 2; 1 # 2]%Q) eq_refl eq_refl) as (HC' & _).
  rewrite HB by reflexivity. rewrite HC', HP, HP'.
  split; [vm_compute; reflexivity|]. split; [vm_compute; reflexivity|].
  split; vm_compute; reflexivity.
Defined.

Lemma forward_on_new_shape_witness :
  numel (shape examples.x23) ≠ 0
  ∧ last_dims 1 (shape examples.x23) ≠ shape (BDropout.noise examples.bdropout)
  ∧ (forall c, CDropout.concrete_noise examples.cdropout = Some c ->
               last_dims 1 (shape examples.x23) ≠ shape c)
  ∧ (forall resample,
       (BDropout.forward examples.bdropout examples.x23 resample 1
          examples.uniforms).1.1
       = Some (qtensor [2; 3] [1; 0; 3; 4; 0; 6]%Q)
       ∧ BDropout.noise (BDropout.forward examples.bdropout examples.x23
                           resample 1 examples.uniforms).1.2
         = qtensor [3] [1; 0; 1]%Q)
  ∧ CDropout.noise (CDropout.forward examples.cdropout examples.x23 false 1
                      examples.uniforms).1.2
    = qtensor [3] [1 # 2; 9 # 10; 1 # 10]%Q
  ∧ CDropout.noise (CDropout.forward examples.cdropout examples.x23 true 1
                      examples.uniforms).1.2
    = qtensor [2] [1 # 2; 1 # 2]%Q.
Proof.
  assert (numel (shape examples.x23) ≠ 0) as Hx by (vm_compute; lia).
  assert (last_dims 1 (shape examples.x23)
          ≠ shape (BDropout.noise examples.bdropout)) as HB
    by (vm_compute; discriminate).
  assert (forall c, CDropout.concrete_noise examples.cdropout = Some c ->
                    last_dims 1 (shape examples.x23) ≠ shape c) as HC
    by (intros c [= <-]; vm_compute; discriminate).
  split; [exact Hx|]. split; [exact HB|]. split; [exact HC|].
  destruct (forward_on_new_shape examples.bdropout examples.cdropout
              examples.x23 1 examples.uniforms Hx) as (H1 & H2 & H3).
  split; [|split].
  - intros resample. destruct (H1 HB resample) as [-> ->].
    split; vm_compute; reflexivity.
  - destruct (H2 HC) as (_ & -> & _). vm_compute; reflexivity.
  - rewrite H3. reflexivity.
Defined.

(** C5 fails on [CDropout].  A call with [resample=True] on a batch of
    the shape [(2, 1, 3)], whose last two dimensions differ from the shape
    [(1, 2)] of the stored base noise and relaxed mask, returns a result
    and leaves the stored base noise as it was; the relaxed mask it stores
    has the shape of the whole batch.  Neither has the shape [(1, 3)] of
    the last two dimensions.  A [BDropout] layer called in the same way
    stores a mask of the shape [(1, 3)]: it tests the shape first, where
    [CDropout] tests [resample] first. *)
Theorem CDropout_resample_skips_shape_check :
  let L := examples.used.1 in
  let r := CDropout.forward L examples.y213 true 2 examples.used.2 in
  let s := last_dims 2 (shape examples.y213) in
  let B := (BDropout.init (SLit (1 # 4)) (SLit 1) 0).1 in
  let b := BDropout.forward B examples.y213 true 2 1 in
  s ≠ shape (CDropout.noise L)
  ∧ shape <$> CDropout.concrete_noise L ≠ Some s
  ∧ is_Some r.1.1
  ∧ ¬ (shape (CDropout.noise r.1.2) = s
       ∨ shape <$> CDropout.concrete_noise r.1.2 = Some s)
  ∧ s ≠ shape (BDropout.noise B)
  ∧ is_Some b.1.1
  ∧ shape (BDropout.noise b.1.2) = s.
Proof.
  vm_compute. split; [discriminate|]. split; [discriminate|].
  split; [eauto|]. split; [intros [E|E]; discriminate|].
  split; [discriminate|]. split; [eauto|reflexivity].
Qed.

Section mask_reuse.
Context `{Scalar A} `{Rng G A}.

(** The mask of a [BDropout] layer is reused: after [resample()], two
    calls of [forward] with [resample=False] on the same input return
    the same result. *)
Lemma BDropout_mask_reuse (L : BDropout.state A) (x : tensor A)
    (mask_dims : nat) (g : G) :
  let '(L0, g0) := BDropout.resample L g in
  let '(out1, L1, g1) := BDropout.forward L0 x false mask_dims g0 in
  let '(out2, L2, g2) := BDropout.forward L1 x false mask_dims g1 in
  out1 = out2.
Proof.
  destruct (BDropout.resample L g) as [L0 g0].
  destruct (decide (last_dims mask_dims (shape x)
                    = shape (BDropout.noise L0))) as [Hs|Hs].
  - rewrite !(BDropout_forward_reuse L0 x mask_dims g0 Hs). done.
  - destruct (decide (numel (shape x) = 0)) as [Hx|Hx].
    + unfold BDropout.forward at 1. rewrite shape_eqb_ne by done. cbn [negb].
      unfold view_first. rewrite Hx. cbn [Nat.eqb].
      rewrite orb_true_r.
      unfold BDropout.forward. rewrite shape_eqb_ne by done. cbn [negb].
      unfold view_first. rewrite Hx. cbn [Nat.eqb].
      by rewrite orb_true_r.
    + rewrite (BDropout_forward_new_shape L0 x false mask_dims g0 Hs Hx).
      cbn zeta. by rewrite BDropout_forward_reuse.
Qed.
End mask_reuse.

(** C7 fails on [CDropout] in training mode.  A layer is built, called
    once with [resample=True] on a batch of the shape [(2, 2)] and
    resampled.  The stored base noise is still the scalar of the
    constructor, and the stored relaxed mask has the shape of the batch:
    the first call with [resample=False] takes its mask from the scalar
    (the draw 5), and leaves a relaxed mask without dimension, so the
    second call draws a base noise (the draws 6 to 9) and returns another
    result. *)
Theorem CDropout_second_forward_redraws :
  let '(_, L1, g1) :=
    CDropout.forward examples.fresh.1 examples.y22 true 2 examples.fresh.2 in
  let '(L2, g2) := CDropout.resample L1 g1 in
  let '(out1, L3, g3) := CDropout.forward L2 examples.y22 false 2 g2 in
  let '(out2, L4, g4) := CDropout.forward L3 examples.y22 false 2 g3 in
  out1 = Some (masked examples.y22
                 (CDropout.concrete L2 (Tensor [] [SUniform 5])))
  ∧ out2 = Some (masked examples.y22
                   (CDropout.concrete L2
                      (Tensor [2; 2] (SUniform <$> [6; 7; 8; 9]))))
  ∧ (g2, g3, g4) = (6, 6, 10)
  ∧ out1 ≠ out2.
Proof.
  vm_compute. split; [reflexivity|]. split; [reflexivity|].
  split; [reflexivity|]. intros E. discriminate E.
Qed.

(** When the stored base noise has the shape [(2, 2)] and the batch the
    shape [(3, 2)], the first of the two calls raises (the relaxed mask it
    computes does not broadcast) and the second one returns a result. *)
Lemma CDropout_first_forward_raises :
  let '(_, L1, g1) :=
    CDropout.forward examples.fresh.1 examples.y22 false 2 examples.fresh.2 in
  let '(_, L2, g2) := CDropout.forward L1 examples.y32 true 2 g1 in
  let '(L3, g3) := CDropout.resample L2 g2 in
  let '(out1, L4, g4) := CDropout.forward L3 examples.y32 false 2 g3 in
  let '(out2, L5, g5) := CDropout.forward L4 examples.y32 false 2 g4 in
  out1 = None ∧ is_Some out2.
Proof. vm_compute. split; [reflexivity|eauto]. Qed.

(** ** The noise pools *)

Section pools.
Context `{Scalar A} `{Rng W A}.

Lemma mapM_fmap_total {X Y Z : Type} (f : Y -> option Z) (g : X -> Y)
    (h : X -> Z) (l : list X) :
  Forall (λ x, f (g x) = Some (h x)) l -> mapM f (g <$> l) = Some (h <$> l).
Proof.
  induction 1 as [|x l Hx _ IH]; [done|].
  cbn. rewrite Hx. cbn. rewrite IH. done.
Qed.

(** The numbers up to [2 ^ p] have at most [p] significant bits. *)
Lemma round_bits_small (p n : N) : (n < 2 ^ p)%N -> round_bits p n = n.
Proof.
  intros Hn. unfold round_bits.
  assert (N.size n <= p)%N as Hs.
  { pose proof (N.size_le n) as Hle.
    assert (2 ^ N.size n < 2 ^ N.succ p)%N as Hlt
      by (rewrite N.pow_succ_r'; lia).
    apply N.pow_lt_mono_r_iff in Hlt; lia. }
  by replace (N.size n - p)%N with 0%N by lia.
Qed.

Lemma to_float_exact (n : nat) : float_exact n -> to_float n = n.
Proof.
  unfold float_exact, to_float. intros Hn.
  destruct (N.eq_dec (N.of_nat n) (2 ^ 24)%N) as [E|E].
  - assert (round_bits 24 (2 ^ 24)%N = (2 ^ 24)%N) as Hr
      by (vm_compute; reflexivity).
    by rewrite E, Hr, <- E, Nat2N.id.
  - rewrite round_bits_small by lia. apply Nat2N.id.
Qed.

Lemma to_double_exact (n : nat) : (N.of_nat n <= 2 ^ 53)%N -> to_double n = n.
Proof.
  unfold to_double. intros Hn.
  destruct (N.eq_dec (N.of_nat n) (2 ^ 53)%N) as [E|E].
  - assert (round_bits 53 (2 ^ 53)%N = (2 ^ 53)%N) as Hr
      by (vm_compute; reflexivity).
    by rewrite E, Hr, <- E, Nat2N.id.
  - rewrite round_bits_small by lia. apply Nat2N.id.
Qed.

(** Where the floats fall between the integers, neighbours are read as
    the same index: the odd numbers after [2 ^ 24] are no floats. *)
Lemma round_bits_ties :
  round_bits 24 (2 ^ 24 + 1)%N = (2 ^ 24)%N
  ∧ round_bits 24 (2 ^ 24 + 3)%N = (2 ^ 24 + 4)%N.
Proof. vm_compute. done. Qed.

Lemma float_exact_le (n n' : nat) : n <= n' -> float_exact n' -> float_exact n.
Proof. unfold float_exact. lia. Qed.

(** The indices of the step [i] for [m] particles, as long as the floats
    hold them exactly. *)
Lemma z_indices_exact (i m : nat) :
  0 < m -> float_exact (i + m) ->
  mc_pilco.z_indices i m = Some ((λ k, k mod m) <$> seq i m).
Proof.
  intros Hm Hb. unfold mc_pilco.z_indices.
  destruct (m =? 0) eqn:E; [apply Nat.eqb_eq in E; lia|].
  unfold float_exact in Hb.
  replace (2 ^ 63 <=? N.of_nat (i + m - 1))%N with false
    by (symmetry; apply N.leb_gt; lia).
  cbn zeta. rewrite (to_double_exact i), (to_double_exact (i + m - 1)) by lia.
  replace (i + m - 1 - i) with (m - 1) by lia.
  rewrite (to_double_exact (m - 1)) by lia.
  replace (m - 1 + 1) with m by lia. rewrite (to_double_exact m) by lia.
  f_equal.
  replace (seq i m) with (Nat.add i <$> seq 0 m)
    by (rewrite fmap_add_seq; f_equal; lia).
  rewrite <- list_fmap_compose.
  apply list_fmap_ext. intros k j Hk. apply lookup_seq in Hk as [-> Hk].
  cbn. rewrite (to_double_exact (i + k)) by lia.
  rewrite to_float_exact by (unfold float_exact; lia). done.
Qed.

(** At the step [2 ^ 24] the two indices of a batch of two particles are
    the floats [2 ^ 24] and, for [2 ^ 24 + 1], [2 ^ 24] again: both are
    reduced to the row 0, where the exact indices give the rows 0 and 1. *)
Lemma z_indices_rounded (i : nat) :
  N.of_nat i = (2 ^ 24)%N -> mc_pilco.z_indices i 2 = Some [0; 0].
Proof.
  intros Hi.
  assert (forall n a, N.of_nat n = a -> to_double n = N.to_nat (round_bits 53 a))
    as Hd by (by intros n a <-).
  assert (forall n a, N.of_nat n = a -> to_float n = N.to_nat (round_bits 24 a))
    as Hf by (by intros n a <-).
  assert (round_bits 53 (2 ^ 24) = N.of_nat i)%N as E1
    by (rewrite Hi; vm_compute; reflexivity).
  assert (round_bits 53 (2 ^ 24 + 1) = N.of_nat (i + 1))%N as E2
    by (rewrite Nat2N.inj_add, Hi; vm_compute; reflexivity).
  assert (round_bits 24 (2 ^ 24) = N.of_nat i)%N as E3
    by (rewrite Hi; vm_compute; reflexivity).
  assert (round_bits 24 (2 ^ 24 + 1) = N.of_nat i)%N as E4
    by (rewrite Hi; vm_compute; reflexivity).
  assert (to_double i = i) as Di
    by (by rewrite (Hd i _ Hi), E1, Nat2N.id).
  assert (to_double (i + 1) = i + 1) as Di1.
  { rewrite (Hd (i + 1) (2 ^ 24 + 1)%N) by lia. by rewrite E2, Nat2N.id. }
  assert (to_float i = i) as Fi
    by (by rewrite (Hf i _ Hi), E3, Nat2N.id).
  assert (to_float (i + 1) = i) as Fi1.
  { rewrite (Hf (i + 1) (2 ^ 24 + 1)%N) by lia. by rewrite E4, Nat2N.id. }
  assert (i mod 2 = 0) as Hmod.
  { assert (N.of_nat (i mod 2) = 0%N) as Hm; [|lia].
    rewrite Nat2N.inj_mod, Hi. vm_compute. reflexivity. }
  unfold mc_pilco.z_indices. cbn [Nat.eqb].
  replace (i + 2 - 1) with (i + 1) by lia.
  replace (2 ^ 63 <=? N.of_nat (i + 1))%N with false
    by (symmetry; apply N.leb_gt; lia).
  cbn zeta. rewrite Di, Di1.
  replace (i + 1 - i) with 1 by lia.
  assert (to_double 1 = 1) as -> by (vm_compute; reflexivity).
  assert (to_double (1 + 1) = 2) as -> by (vm_compute; reflexivity).
  cbn [seq fmap list_fmap]. rewrite Nat.add_0_r, Di, Di1, Fi, Fi1, Hmod.
  done.
Qed.

(** What [get_z_rnd] reads from a pool at the step [i], for a batch of
    [m] particles: the rows [(i + k) mod m] for [k < m], in this order.
    The rows from [m] on are never read, and the generator is not
    used. *)
Lemma get_z_rnd_pool (z : tensor A) (L : nat) (rest shp : list nat)
    (i m : nat) (w : W) :
  shape z = L :: rest -> 0 < m -> m <= L -> float_exact (i + m) ->
  mc_pilco.get_z_rnd (Some z) i (m :: shp) w
  = Some (Tensor (m :: rest)
            (mjoin ((λ k, pool_row z rest ((i + k) mod m)) <$> seq 0 m)),
          w).
Proof.
  intros Hz Hm HL Hb. unfold mc_pilco.get_z_rnd, lift.
  cbn [head mbind option_bind]. rewrite z_indices_exact by done.
  cbn [mbind option_bind].
  unfold index_rows. rewrite Hz.
  rewrite (mapM_fmap_total _ _ (λ k, pool_row z rest (k mod m))).
  - cbn. rewrite !length_fmap, length_seq. do 3 f_equal.
    replace (seq i m) with (Nat.add i <$> seq 0 m)
      by (rewrite fmap_add_seq; f_equal; lia).
    by rewrite <- list_fmap_compose.
  - apply Forall_forall. intros k _.
    destruct (decide (k mod m < L)) as [|Hn]; [done|].
    pose proof (Nat.mod_upper_bound k m). lia.
Qed.

(** Two iterations that use the same pool read the same noise at the
    same step, whatever the state of the models and of the generator. *)
Lemma get_z_rnd_pool_fixed (z : tensor A) (i : nat) (shp : list nat)
    (w w' : W) :
  fst <$> mc_pilco.get_z_rnd (Some z) i shp w
  = fst <$> mc_pilco.get_z_rnd (Some z) i shp w'.
Proof.
  unfold mc_pilco.get_z_rnd, lift.
  by destruct (_ ≫= _).
Qed.

(** The steps [i] and [i + m] read the same rows. *)
Lemma get_z_rnd_period (z : tensor A) (i : nat) (m : nat) (shp : list nat)
    (w : W) :
  float_exact (i + m + m) ->
  mc_pilco.get_z_rnd (Some z) (i + m) (m :: shp) w
  = mc_pilco.get_z_rnd (Some z) i (m :: shp) w.
Proof.
  intros Hb. unfold mc_pilco.get_z_rnd. cbn [head mbind option_bind].
  destruct (m =? 0) eqn:E.
  { apply Nat.eqb_eq in E. subst m. done. }
  apply Nat.eqb_neq in E.
  rewrite (z_indices_exact (i + m) m) by (done || lia).
  rewrite (z_indices_exact i m)
    by (lia || (apply (float_exact_le _ (i + m + m)); [lia|done])).
  do 3 f_equal.
  replace (seq (i + m) m) with (Nat.add m <$> seq i m)
    by (rewrite fmap_add_seq; f_equal; lia).
  rewrite <- list_fmap_compose.
  apply list_fmap_ext. intros j k _. cbn.
  rewrite <- (Nat.Div0.add_mod_idemp_l m k m), Nat.Div0.mod_same. done.
Qed.
End pools.

(** C1 fails on the code: the indices are reduced modulo the number of
    particles, not modulo the length of the pool.  With a pool of five
    rows (three steps, two particles), the step 1 reads the rows 1 and 0,
    where the indices 1 and 2, taken modulo the length of the pool, select
    the rows 1 and 2; the step 2 reads the rows of the step 0 again, and
    the rows 2, 3 and 4 are never read. *)
Theorem get_z_rnd_wraps_at_particle_count :
  mc_pilco.get_z_rnd (Some examples.pool) 1 [2; 1] examples.uniforms
  = Some (qtensor [2; 1] [11; 10]%Q, examples.uniforms)
  ∧ index_rows examples.pool ((λ k, k mod 5) <$> seq 1 2)
    = Some (qtensor [2; 1] [11; 12]%Q)
  ∧ mc_pilco.get_z_rnd (Some examples.pool) 0 [2; 1] examples.uniforms
    = Some (qtensor [2; 1] [10; 11]%Q, examples.uniforms)
  ∧ mc_pilco.get_z_rnd (Some examples.pool) 2 [2; 1] examples.uniforms
    = Some (qtensor [2; 1] [10; 11]%Q, examples.uniforms).
Proof. vm_compute. done. Qed.

(** ** The rollout *)

Lemma lift_Some {W X : Type} (o : option X) (w w' : W) (x : X) :
  lift o w = Some (x, w') <-> o = Some x ∧ w' = w.
Proof.
  unfold lift. destruct o as [y|]; split.
  - by intros [= -> ->].
  - by intros [[= ->] ->].
  - done.
  - by intros [? _].
Qed.

Section entries.
Context `{Scalar A}.
Variable potrf : tensor A -> option (tensor A).

Lemma mean_dim_0_matrix (x : tensor A) (n d : nat) :
  shape x = [n; d] ->
  mean_dim 0 x
  = Some (Tensor [d] (mc_pilco.particle_mean x n d <$> seq 0 d)).
Proof.
  intros Hs. unfold mean_dim, reduce_dim. rewrite Hs.
  cbn [drop take app]. unfold numel. cbn [foldr].
  rewrite Nat.mul_1_r. cbn [seq mbind list_bind]. 
  cbn. by rewrite app_nil_r.
Qed.

Lemma deviations (x : tensor A) (n d : nat) :
  shape x = [n; d] ->
  tsub x (Tensor [d] (mc_pilco.particle_mean x n d <$> seq 0 d))
  = Some (Tensor [n; d] (grid n d (mc_pilco.deviation x n d))).
Proof.
  intros Hs. unfold tsub. rewrite (tzip_suffix _ _ _ 1) by (by rewrite Hs).
  unfold blockwise. rewrite Hs. cbn [shape data]. do 2 f_equal.
  unfold numel. cbn [foldr]. rewrite !Nat.mul_1_r, fmap_seq_grid.
  apply grid_ext. intros p j Hp Hj. unfold mc_pilco.deviation. f_equal.
  rewrite Nat.add_comm, Nat.Div0.mod_add, Nat.mod_small by done.
  by apply getd_fmap_seq_lt.
Qed.

(** The moment matching, entry by entry. *)
Lemma moment_match_entries (M : nat) (x z : tensor A) (n d : nat) :
  shape x = [n; d] ->
  mc_pilco.moment_match potrf M x z
  = (L ← potrf (Tensor [d; d] (grid d d (mc_pilco.covariance M x n d)));
     zL ← mm z L;
     tadd (Tensor [d] (mc_pilco.particle_mean x n d <$> seq 0 d)) zL).
Proof.
  intros Hs. unfold mc_pilco.moment_match.
  rewrite (mean_dim_0_matrix x n d Hs). cbn [mbind option_bind].
  rewrite (deviations x n d Hs). cbn [mbind option_bind].
  rewrite transpose_grid. cbn [mbind option_bind].
  rewrite mm_grid. cbn [mbind option_bind shape last].
  rewrite tmap_grid. unfold eye.
  rewrite tmap_grid. unfold tadd. rewrite (tzip_grid sadd).
  cbn [mbind option_bind]. done.
Qed.
End entries.

Section rollout_facts.
Context `{Scalar A} `{Rng W A}.
Variable policy : tensor A -> bool -> comp W (tensor A).
Variable forward :
  tensor A -> tensor A -> bool -> bool -> tensor A -> tensor A ->
  comp W (tensor A * tensor A).
Variable potrf : tensor A -> option (tensor A).

Abbreviation moment_match := (mc_pilco.moment_match potrf).
Abbreviation gaussian_redraw := (mc_pilco.gaussian_redraw potrf).
Abbreviation rollout_step := (mc_pilco.rollout_step policy forward potrf).
Abbreviation rollout_loop := (mc_pilco.rollout_loop policy forward potrf).
Abbreviation rollout := (mc_pilco.rollout policy forward potrf).
Abbreviation step_trace := (mc_pilco.step_trace policy forward potrf).

(** The code of the moment matching computes what the claim says. *)
Lemma moment_match_spec (M : nat) (x z y : tensor A) :
  moment_match M x z = Some y <-> gaussian_redraw M x z y.
Proof.
  unfold mc_pilco.moment_match, mc_pilco.gaussian_redraw. split.
  - intros Hy.
    apply bind_Some in Hy as (m & E1 & Hy).
    apply bind_Some in Hy as (deltas & E2 & Hy).
    apply bind_Some in Hy as (dt & E3 & Hy).
    apply bind_Some in Hy as (dd & E4 & Hy).
    apply bind_Some in Hy as (D & E5 & Hy).
    apply bind_Some in Hy as (S & E6 & Hy).
    apply bind_Some in Hy as (L & E7 & Hy).
    apply bind_Some in Hy as (zL & E8 & Hy).
    by exists m, deltas, dt, dd, D, S, L, zL.
  - intros (m & deltas & dt & dd & D & S & L & zL & E1 & E2 & E3 & E4 & E5
            & E6 & E7 & E8 & E9).
    apply bind_Some. exists m. split; [done|].
    apply bind_Some. exists deltas. split; [done|].
    apply bind_Some. exists dt. split; [done|].
    apply bind_Some. exists dd. split; [done|].
    apply bind_Some. exists D. split; [done|].
    apply bind_Some. exists S. split; [done|].
    apply bind_Some. exists L. split; [done|].
    apply bind_Some. exists zL. by split.
Qed.

(** What a pass of the loop that did not raise has done. *)
Lemma rollout_step_inv (o : mc_pilco.options) (M i : nat)
    (states : tensor A) (w : W) (e : mc_pilco.entry) (next : tensor A)
    (w' : W) :
  rollout_step o M i states w = Some ((e, next), w') ->
  mc_pilco.e_states e = states
  ∧ step_trace o M i e None
  ∧ forall e', mc_pilco.e_states e' = next -> step_trace o M i e (Some e').
Proof.
  intros Hs. unfold mc_pilco.rollout_step in Hs.
  bind_inv Hs. rename x into z1, w0 into w2, E into E1.
  bind_inv Hs. rename x into z2, w0 into w3, E into E2.
  bind_inv Hs. rename x into m, w0 into w3', E into E3.
  bind_inv Hs. rename x into z3, w0 into w4, E into E4.
  bind_inv Hs. rename x into actions, w0 into w5, E into E5.
  bind_inv Hs. destruct x as [next_states rewards].
  rename w0 into w6, E into E6.
  bind_inv Hs. rename x into next', w0 into w7, E into E7.
  bind_inv Hs. rename x into rewards', w0 into w8, E into E8.
  unfold cret in Hs. injection Hs as <- <- <-.
  apply lift_Some in E3 as [E3 ->].
  apply lift_Some in E7 as [E7 ->].
  apply lift_Some in E8 as [E8 ->]. cbn [fst snd] in *.
  assert (if mc_pilco.mm_rewards o
          then gaussian_redraw M rewards z3 rewards'
          else rewards' = rewards) as Hr.
  { destruct (mc_pilco.mm_rewards o).
    - by apply moment_match_spec.
    - congruence. }
  assert (if mc_pilco.mm_states o
          then gaussian_redraw M next_states z1 next'
          else next' = next_states) as Hn.
  { destruct (mc_pilco.mm_states o).
    - by apply moment_match_spec.
    - congruence. }
  split; [done|]. split.
  - exists z1, z2, z3, m, next_states, rewards, w, w2, w3, w4, w5, w6.
    cbn. repeat (split; [done|]). intros e' [=].
  - intros e' He'.
    exists z1, z2, z3, m, next_states, rewards, w, w2, w3, w4, w5, w6.
    cbn. repeat (split; [done|]). intros e'' [= <-]. by rewrite He'.
Qed.

Lemma rollout_loop_trace (o : mc_pilco.options) (M n i : nat)
    (states : tensor A) (w : W) (tr : list mc_pilco.entry) (w' : W) :
  rollout_loop o M n i states w = Some (tr, w') ->
  length tr = n
  ∧ (forall e, tr !! 0 = Some e -> mc_pilco.e_states e = states)
  ∧ forall k e, tr !! k = Some e -> step_trace o M (i + k) e (tr !! S k).
Proof.
  revert i states w tr w'.
  induction n as [|n IH]; intros i states w tr w' Hl; cbn in Hl.
  - unfold cret in Hl. injection Hl as <- <-. done.
  - bind_inv Hl. destruct x as [e next]. bind_inv Hl.
    unfold cret in Hl. injection Hl as <- <-.
    destruct (rollout_step_inv _ _ _ _ _ _ _ _ E) as (He & Hlast & Hnext).
    destruct (IH _ _ _ _ _ E0) as (Hlen & Hhead & Htail).
    cbn [fst snd] in *.
    split; [cbn; by rewrite Hlen|]. split.
    + intros e' [= <-]. done.
    + intros [|k] e' He'.
      * injection He' as <-. rewrite Nat.add_0_r. cbn.
        destruct (x !! 0) as [e'|] eqn:E0'; [|done].
        apply Hnext. by apply Hhead.
      * cbn in He'. replace (i + S k) with (S i + k) by lia.
        by apply Htail.
Qed.

End rollout_facts.


(** ** The objective *)

Section objective.
Context `{Scalar A}.

Lemma stack_batches (rs : list (tensor A)) (s : list nat) :
  rs ≠ [] -> Forall (λ r, shape r = s) rs ->
  stack rs = Some (Tensor (length rs :: s) (mjoin (data <$> rs))).
Proof.
  intros Hne Hs. unfold stack. destruct rs as [|r rs']; [done|].
  assert (forallb (λ y, shape_eqb (shape y) (shape r)) (r :: rs') = true)
    as ->.
  { apply forallb_forall. intros y Hy. apply list_elem_of_In in Hy.
    eapply Forall_forall in Hs as Hy'; [|exact Hy].
    apply Forall_inv in Hs. rewrite Hy', Hs. apply shape_eqb_refl. }
  apply Forall_inv in Hs. by rewrite list_bind_join, Hs.
Qed.

(** The mean over the particles of a stack of [(M, 1)] batches. *)
Lemma mean_particles (rs : list (tensor A)) (M : nat) :
  Forall (λ r, length (data r) = M) rs ->
  mean_dim 1 (Tensor [length rs; M; 1] (mjoin (data <$> rs)))
  = Some (Tensor [length rs; 1] ((λ r, mean (data r)) <$> rs)).
Proof.
  intros Hl. unfold mean_dim, reduce_dim. cbn [shape data drop take app].
  unfold numel. cbn [foldr]. rewrite !Nat.mul_1_r. do 2 f_equal.
  rewrite seq_bind_inner. apply list_eq. intros k.
  rewrite !list_lookup_fmap.
  destruct (rs !! k) as [r|] eqn:Hk.
  - rewrite lookup_seq_lt by (by eapply lookup_lt_Some). cbn. do 2 f_equal.
    assert (length (data r) = M) as Hr.
    { eapply Forall_forall in Hl; [done|]. by eapply list_elem_of_lookup_2. }
    rewrite <- (getd_fmap_seq (data r)), Hr.
    apply list_fmap_ext. intros j b Hb. apply lookup_seq in Hb as [-> Hb].
    cbn. rewrite !Nat.mul_1_r, Nat.add_0_r.
    apply (getd_join _ (data r) M); [|by rewrite list_lookup_fmap, Hk|done].
    by apply Forall_fmap.
  - rewrite lookup_seq_ge; [done|]. by apply lookup_ge_None.
Qed.

(** The mean over the steps of a [(T, 1)] tensor. *)
Lemma mean_steps (l : list A) :
  mean_dim 0 (Tensor [length l; 1] l) = Some (Tensor [1] [mean l]).
Proof.
  unfold mean_dim, reduce_dim. cbn [shape data drop take app].
  unfold numel. cbn [foldr seq mbind]. cbn. do 4 f_equal.
  rewrite <- (getd_fmap_seq l) at 2.
  apply list_fmap_ext. intros j b _. f_equal. lia.
Qed.

(** C3.  For a trajectory whose reward batches have the shape [(M, 1)]
    (and whose states and actions stack), the loss is the tensor with the
    one entry obtained by taking the mean of the rewards of each step over
    the particles, then the mean of these over the steps; it is negated
    when [maximize] is true, and only then. *)
Theorem loss_mean_of_means (trajs : list mc_pilco.entry) (maximize : bool)
    (M : nat) :
  trajs ≠ [] ->
  is_Some (stack (mc_pilco.e_states <$> trajs)) ->
  is_Some (stack (mc_pilco.e_actions <$> trajs)) ->
  Forall (λ e, shape (mc_pilco.e_rewards e) = [M; 1]
               ∧ length (data (mc_pilco.e_rewards e)) = M) trajs ->
  mc_pilco.loss trajs maximize
  = Some (Tensor [1]
            [mc_pilco.sign maximize
               (mean ((λ e, mean (data (mc_pilco.e_rewards e))) <$> trajs))]).
Proof.
  intros Hne [ss Hss] [sa Hsa] Hr. unfold mc_pilco.loss.
  rewrite Hss, Hsa. cbn [mbind option_bind].
  rewrite (stack_batches _ [M; 1]).
  - cbn [mbind option_bind]. rewrite length_fmap.
    rewrite <- (length_fmap mc_pilco.e_rewards), mean_particles.
    + cbn [mbind option_bind].
      rewrite <- (length_fmap (λ r, mean (data r))), mean_steps.
      cbn [mbind option_bind]. rewrite <- list_fmap_compose.
      by destruct maximize.
    + apply Forall_fmap. eapply Forall_impl; [exact Hr|]. by intros e [_ ?].
  - by destruct trajs.
  - apply Forall_fmap. eapply Forall_impl; [exact Hr|]. by intros e [? _].
Qed.
End objective.

Lemma loss_mean_of_means_witness :
  examples.trajectory ≠ []
  ∧ is_Some (stack (mc_pilco.e_states <$> examples.trajectory))
  ∧ is_Some (stack (mc_pilco.e_actions <$> examples.trajectory))
  ∧ Forall (λ e, shape (mc_pilco.e_rewards e) = [2; 1]
                 ∧ length (data (mc_pilco.e_rewards e)) = 2)
           examples.trajectory
  ∧ mc_pilco.loss examples.trajectory true = Some (qtensor [1] [-3]%Q)
  ∧ mc_pilco.loss examples.trajectory false = Some (qtensor [1] [3]%Q).
Proof.
  assert (examples.trajectory ≠ []) as H1 by discriminate.
  assert (is_Some (stack (mc_pilco.e_states <$> examples.trajectory))) as H2
    by (vm_compute; eauto).
  assert (is_Some (stack (mc_pilco.e_actions <$> examples.trajectory))) as H3
    by (vm_compute; eauto).
  assert (Forall (λ e, shape (mc_pilco.e_rewards e) = [2; 1]
                       ∧ length (data (mc_pilco.e_rewards e)) = 2)
                 examples.trajectory) as H4
    by (repeat constructor).
  repeat (split; [assumption|]).
  rewrite !(loss_mean_of_means examples.trajectory _ 2 H1 H2 H3 H4).
  split; vm_compute; reflexivity.
Defined.

(** ** The regularization loss *)

Section regularization.
Context `{Scalar A}.

(** The inner loop of [regularization_loss] finds the affine layer of the
    claim. *)
Lemma first_affine_paired (rest : list (BSequential.layer A)) :
  BSequential.first_affine rest = BSequential.paired rest.
Proof.
  unfold BSequential.paired.
  induction rest as [|m rest IH]; [done|].
  destruct m; cbn; try done;
    rewrite IH; by destruct (list_find _ rest) as [[i []]|].
Qed.

Lemma first_affine_skip (m : BSequential.layer A)
    (rest : list (BSequential.layer A)) :
  BSequential.is_affine m = false ->
  BSequential.first_affine (m :: rest) = BSequential.first_affine rest.
Proof. by destruct m. Qed.

(** One pass of the outer loop adds the contribution of its module. *)
Lemma regularize_contribution (acc : A) (m : BSequential.layer A)
    (rest : list (BSequential.layer A)) :
  (BSequential.regularize acc m (m :: rest)).1
  = foldl sadd acc (BSequential.contribution m rest).
Proof.
  unfold BSequential.regularize, BSequential.contribution.
  destruct m as [L|L|w b f|f]; try done.
  - rewrite first_affine_skip, first_affine_paired by done.
    destruct (BSequential.paired rest) as [[w [b|]]|]; done.
  - rewrite first_affine_skip, first_affine_paired by done.
    destruct (BSequential.paired rest) as [[w [b|]]|]; done.
Qed.

Lemma regularization_loop (post pre : list (BSequential.layer A)) (acc : A) :
  (foldl (λ '(reg_loss, ms) i,
            match ms !! i with
            | None => (reg_loss, ms)
            | Some m =>
                let '(reg_loss', m') :=
                  BSequential.regularize reg_loss m (drop i ms) in
                (reg_loss', <[i := m']> ms)
            end)
         (acc, pre ++ post) (seq (length pre) (length post))).1
  = foldl sadd acc (BSequential.contributions post).
Proof.
  revert pre acc. induction post as [|m rest IH]; intros pre acc; [done|].
  cbn [length seq foldl BSequential.contributions].
  rewrite list_lookup_middle by done. rewrite drop_app_length.
  pose proof (regularize_contribution acc m rest) as Hc.
  destruct (BSequential.regularize acc m (m :: rest)) as [acc' m'].
  cbn [fst] in Hc. rewrite foldl_app, <- Hc.
  rewrite insert_app_r_alt, Nat.sub_diag by done. cbn [insert list_insert].
  specialize (IH (pre ++ [m']) acc').
  rewrite length_app, <- app_assoc in IH. cbn [length app] in IH.
  rewrite Nat.add_1_r in IH. exact IH.
Qed.

Lemma contributions_plain (ms : list (BSequential.layer A)) :
  forallb (λ m, negb (BSequential.is_stochastic m)) ms = true ->
  BSequential.contributions ms = [].
Proof.
  induction ms as [|m ms IH]; [done|]. cbn [forallb].
  intros [Hm Hms]%andb_true_iff. cbn. rewrite IH by done.
  by destruct m.
Qed.

(** C6.  [regularization_loss] adds up, in the order of the layers, the
    contributions of the stochastic layers: the weight regularizer of the
    layer on the weights of the first affine layer that follows it, then
    its bias regularizer on the bias of that layer when it has one.  A
    layer that no affine layer follows contributes nothing, and the loss
    of a network without stochastic layer is zero. *)
Theorem regularization_loss_sum (ms : list (BSequential.layer A)) :
  (BSequential.regularization_loss ms).1
  = foldl sadd (lit 0) (BSequential.contributions ms)
  ∧ (forall m rest,
       BSequential.paired rest = None ->
       BSequential.contribution m rest = [])
  ∧ (forallb (λ m, negb (BSequential.is_stochastic m)) ms = true ->
     (BSequential.regularization_loss ms).1 = lit 0).
Proof.
  assert ((BSequential.regularization_loss ms).1
          = foldl sadd (lit 0) (BSequential.contributions ms)) as Hsum
    by apply (regularization_loop ms []).
  split; [exact Hsum|]. split.
  - intros m rest Hp. unfold BSequential.contribution. rewrite Hp.
    by destruct m.
  - intros Hp. by rewrite Hsum, contributions_plain.
Qed.
End regularization.

Lemma regularization_loss_sum_witness :
  forallb (λ m, negb (BSequential.is_stochastic m)) examples.plain_network
  = true
  ∧ (BSequential.regularization_loss examples.plain_network).1 = Some 0%Q
  ∧ BSequential.contributions examples.network
    = [Some (15 # 2)%Q; Some (9 # 2)%Q; Some (3 # 2)%Q]
  ∧ (BSequential.regularization_loss examples.network).1 = Some (27 # 2)%Q.
Proof.
  assert (forallb (λ m, negb (BSequential.is_stochastic m))
                  examples.plain_network = true) as Hp by reflexivity.
  split; [exact Hp|].
  destruct (regularization_loss_sum examples.plain_network) as (_ & _ & H0).
  destruct (regularization_loss_sum examples.network) as (Hs & _ & _).
  rewrite (H0 Hp), Hs. repeat split; vm_compute; reflexivity.
Defined.

(** ** The dynamics model *)

Section dynamics.
Context `{Scalar A} {W : Type}.
Variable to_complex : tensor A -> list nat -> option (tensor A).
Variable model : tensor A -> gmap string pyval -> comp W (output A).
Variable output_density :
  option (output A -> option (tensor A * tensor A) ->
          gmap string pyval -> comp W (output A)).

Lemma reduce_dim_0 (f : list A -> A) (keepdim : bool) (x : tensor A) :
  shape x ≠ [] -> is_Some (reduce_dim f 0 keepdim x).
Proof.
  intros Hx. unfold reduce_dim. cbn [drop].
  destruct (shape x); [done|eauto].
Qed.

Lemma last_reverse_cons (s : list nat) (n : nat) :
  last s = Some n -> exists pre, reverse s = n :: pre.
Proof.
  intros Hl. rewrite <- head_reverse in Hl.
  destruct (reverse s) as [|k pre]; [done|].
  injection Hl as ->. by exists pre.
Qed.

(** C8, as the code has it.  For a dataset whose inputs [to_complex]
    accepts and whose targets have [n > 0] entries along their last
    dimension (and at least one row), [set_dataset] sets [maxR] and [minR]
    to the maximum and the minimum of the last column of the targets, the
    one of index [n - 1]. *)
Theorem set_dataset_reward_range (S : DynamicsModel.state A)
    (X0 Y0 X1 : tensor A) (n : nat) (a : A) (l : list A) :
  to_complex X0 (Regressor.angle_dims (DynamicsModel.regressor S)) = Some X1 ->
  shape X1 ≠ [] ->
  last (shape Y0) = Some n ->
  0 < n ->
  column (n - 1) Y0 = a :: l ->
  exists S',
    DynamicsModel.set_dataset to_complex S X0 Y0 = Some S'
    ∧ Regressor.Y (DynamicsModel.regressor S') = Y0
    ∧ DynamicsModel.maxR S' = Tensor [] [foldl smax a l]
    ∧ DynamicsModel.minR S' = Tensor [] [foldl smin a l].
Proof.
  intros HX HX1 Hn Hpos Hcol.
  assert (shape Y0 ≠ []) as HY by (by destruct (shape Y0)).
  unfold DynamicsModel.set_dataset, Regressor.set_dataset.
  rewrite HX. cbn [mbind option_bind].
  destruct (reduce_dim_0 mean true X1 HX1) as [mx ->].
  destruct (reduce_dim_0 std true X1 HX1) as [sx ->].
  destruct (reduce_dim_0 mean true Y0 HY) as [my ->].
  destruct (reduce_dim_0 std true Y0 HY) as [sy ->].
  cbn [mbind option_bind Regressor.Y]. rewrite Hn. cbn [mbind option_bind].
  destruct (n =? 0) eqn:E; [apply Nat.eqb_eq in E; lia|].
  unfold index_select_last.
  destruct (last_reverse_cons _ _ Hn) as [pre Hrev]. rewrite Hrev.
  assert ((n - 1 <? n) = true) as -> by (apply Nat.ltb_lt; lia).
  cbn [mbind option_bind]. unfold tmax, tmin, narrow_last. rewrite Hrev.
  cbn [data]. fold (column (n - 1) Y0). rewrite Hcol.
  cbn [mbind option_bind]. eauto.
Qed.
End dynamics.

Lemma set_dataset_reward_range_witness :
  examples.plain_complex examples.inputs22
    (Regressor.angle_dims (DynamicsModel.regressor examples.dynamics))
  = Some examples.inputs22
  ∧ shape examples.inputs22 ≠ []
  ∧ last (shape examples.targets23) = Some 3
  ∧ 0 < 3
  ∧ column (3 - 1) examples.targets23 = [Some 9%Q; Some 4%Q]
  ∧ exists S',
      DynamicsModel.set_dataset examples.plain_complex examples.dynamics
        examples.inputs22 examples.targets23 = Some S'
      ∧ DynamicsModel.maxR S' = qtensor [] [9]%Q
      ∧ DynamicsModel.minR S' = qtensor [] [4]%Q.
Proof.
  assert (shape examples.inputs22 ≠ []) as H2 by discriminate.
  assert (0 < 3) as H4 by lia.
  split; [reflexivity|]. split; [exact H2|]. split; [reflexivity|].
  split; [exact H4|]. split; [reflexivity|].
  destruct (set_dataset_reward_range examples.plain_complex examples.dynamics
              examples.inputs22 examples.targets23 examples.inputs22
              3 (Some 9%Q) [Some 4%Q] eq_refl H2 eq_refl H4 eq_refl)
    as (S' & HS & _ & Hmax & Hmin).
  exists S'. split; [exact HS|]. rewrite Hmax, Hmin.
  split; vm_compute; reflexivity.
Defined.

(** C8, as it is stated, fails: for the targets
    [[1, 5, 9], [2, 7, 4]] the buffers are set to the maximum 9 and the
    minimum 4 of the last column, and not to the maximum 7 and the minimum
    5 of the column before it. *)
Lemma set_dataset_not_second_to_last :
  exists S',
    DynamicsModel.set_dataset examples.plain_complex examples.dynamics
      examples.inputs22 examples.targets23 = Some S'
    ∧ column (3 - 2) examples.targets23 = [Some 5%Q; Some 7%Q]
    ∧ tmax (Tensor [2; 1] (column (3 - 2) examples.targets23)) = Some (Some 7%Q)
    ∧ tmin (Tensor [2; 1] (column (3 - 2) examples.targets23)) = Some (Some 5%Q)
    ∧ DynamicsModel.maxR S' = qtensor [] [9]%Q
    ∧ DynamicsModel.minR S' = qtensor [] [4]%Q
    ∧ DynamicsModel.maxR S' ≠ qtensor [] [7]%Q
    ∧ DynamicsModel.minR S' ≠ qtensor [] [5]%Q.
Proof.
  eexists. split; [vm_compute; reflexivity|].
  vm_compute. repeat split; discriminate.
Qed.

Section known_reward.
Context `{Scalar A} {W : Type}.
Variable to_complex : tensor A -> list nat -> option (tensor A).
Variable model : tensor A -> gmap string pyval -> comp W (output A).
Variable output_density :
  option (output A -> option (tensor A * tensor A) ->
          gmap string pyval -> comp W (output A)).
Variable reward : tensor A -> option (tensor A).

Lemma split_pair_Some (d : nat) (x a b : tensor A) :
  DynamicsModel.split_pair d x = Some (a, b) -> split_last d x = Some [a; b].
Proof.
  unfold DynamicsModel.split_pair.
  destruct (split_last d x) as [[|a' [|b' [|c l]]]|]; try done.
  by intros [= -> ->].
Qed.

(** C9.  When a reward function is configured and [forward] returns
    samples, the rewards it returns are the reward function applied to the
    previous states, which are the first component of a pair of inputs
    or, for concatenated inputs, their first columns, as many as the
    network returns; the whole output of the network is the change of the
    states: the states returned are this output, or the previous states
    plus this output. *)
Theorem forward_known_reward (S : DynamicsModel.state A)
    (inp : DynamicsModel.input) (separate_outputs deltas normalize : bool)
    (kw : gmap string pyval) (w : W) (res : DynamicsModel.result) (w' : W) :
  DynamicsModel.forward to_complex model output_density (Some reward)
    S inp separate_outputs deltas normalize kw w = Some (res, w') ->
  (forall ts, res ≠ DynamicsModel.Params ts) ->
  exists inputs outs prev_states rewards states,
    match inp with
    | DynamicsModel.Pair s a =>
        cat_last s a = Some inputs ∧ prev_states = s
    | DynamicsModel.Joint x =>
        inputs = x
        ∧ exists D actions,
            last (shape outs) = Some D
            ∧ split_last D x = Some [prev_states; actions]
    end
    ∧ Regressor.forward to_complex model output_density
        (DynamicsModel.regressor S) inputs normalize kw w
      = Some (OTensor outs, w')
    ∧ reward prev_states = Some rewards
    ∧ (if deltas then states = outs
       else tadd prev_states outs = Some states)
    ∧ (if separate_outputs then res = DynamicsModel.Separate states rewards
       else exists t, cat_last states rewards = Some t
                      ∧ res = DynamicsModel.Joined t).
Proof.
  intros Hf Hres. unfold DynamicsModel.forward in Hf.
  bind_inv Hf. rename x into inputs. apply lift_Some in E as [Hin ->].
  bind_inv Hf. destruct x as [outs|ts].
  2:{ unfold cret in Hf. injection Hf as <- <-. by destruct (Hres ts). }
  bind_inv Hf. rename x into prev. apply lift_Some in E0 as [Hprev ->].
  bind_inv Hf. destruct x as [dstates rewards].
  apply lift_Some in E0 as [Hsr ->].
  bind_inv Hf. rename x into states. apply lift_Some in E0 as [Hst ->].
  apply bind_Some in Hsr as (r & Hr & [= <- <-]). cbn [fst snd] in *.
  exists inputs, outs, prev, r, states.
  split; [|split; [|split; [|split]]].
  - destruct inp as [s a|x].
    + by injection Hprev as <-.
    + injection Hin as <-. split; [done|].
      apply bind_Some in Hprev as (D & HD & Hprev).
      apply fmap_Some in Hprev as ([p acts] & Hsp & ->).
      exists D, acts. split; [done|]. by apply split_pair_Some.
  - destruct separate_outputs.
    + unfold cret in Hf. by injection Hf as <- <-.
    + apply lift_Some in Hf as [_ ->]. done.
  - done.
  - destruct deltas; [by injection Hst as <-|done].
  - destruct separate_outputs.
    + unfold cret in Hf. by injection Hf as <- <-.
    + apply lift_Some in Hf as [Hj _].
      apply fmap_Some in Hj as (t & Ht & ->). by exists t.
Qed.
End known_reward.

Lemma forward_known_reward_witness :
  DynamicsModel.forward examples.plain_complex examples.first_column None
    (Some examples.tenfold) examples.dynamics
    (DynamicsModel.Joint examples.inputs22) false false true ∅
    examples.uniforms
  = Some (DynamicsModel.Joined (qtensor [2; 2] [2; 10; 6; 30]%Q),
          examples.uniforms)
  ∧ (forall ts, DynamicsModel.Joined (qtensor [2; 2] [2; 10; 6; 30]%Q)
                ≠ DynamicsModel.Params ts)
  ∧ exists prev_states actions outs rewards states,
      split_last 1 examples.inputs22 = Some [prev_states; actions]
      ∧ prev_states = qtensor [2; 1] [1; 3]%Q
      ∧ outs = qtensor [2; 1] [1; 3]%Q
      ∧ examples.tenfold prev_states = Some rewards
      ∧ rewards = qtensor [2; 1] [10; 30]%Q
      ∧ tadd prev_states outs = Some states
      ∧ cat_last states rewards = Some (qtensor [2; 2] [2; 10; 6; 30]%Q).
Proof.
  assert (DynamicsModel.forward examples.plain_complex examples.first_column
            None (Some examples.tenfold) examples.dynamics
            (DynamicsModel.Joint examples.inputs22) false false true ∅
            examples.uniforms
          = Some (DynamicsModel.Joined (qtensor [2; 2] [2; 10; 6; 30]%Q),
                  examples.uniforms)) as Hf by (vm_compute; reflexivity).
  assert (forall ts, DynamicsModel.Joined (qtensor [2; 2] [2; 10; 6; 30]%Q)
                     ≠ DynamicsModel.Params ts) as Hp by discriminate.
  split; [exact Hf|]. split; [exact Hp|].
  destruct (forward_known_reward _ _ _ _ _ _ _ _ _ _ _ _ _ Hf Hp)
    as (inputs & outs & prev & rewards & states & (-> & D & acts & HD & Hsp)
        & Hreg & Hrew & Hst & (t & Hcat & [= <-])).
  assert (outs = qtensor [2; 1] [1; 3]%Q) as ->.
  { vm_compute in Hreg. by injection Hreg as <-. }
  injection HD as <-.
  assert (prev = qtensor [2; 1] [1; 3]%Q) as ->.
  { vm_compute in Hsp. by injection Hsp as <- <-. }
  assert (rewards = qtensor [2; 1] [10; 30]%Q) as ->.
  { vm_compute in Hrew. by injection Hrew as <-. }
  exists (qtensor [2; 1] [1; 3]%Q), acts, (qtensor [2; 1] [1; 3]%Q),
    (qtensor [2; 1] [10; 30]%Q), states.
  repeat (split; [done|]). done.
Defined.

(** ** The policy search *)

Section search.
Context `{Scalar A} `{Rng W A}.
Variable policy : tensor A -> bool -> comp W (tensor A).
Variable forward :
  tensor A -> tensor A -> bool -> bool -> tensor A -> tensor A ->
  comp W (tensor A * tensor A).
Variable potrf : tensor A -> option (tensor A).
Variable model_resample : comp W unit.
Variable policy_resample : comp W unit.
Variable sample_initial_state : option (nat -> comp W (tensor A)).
Variable update : tensor A -> comp W unit.

(** The loss an iteration of [mc_pilco] reports is the loss of the
    trajectory it has rolled out, without resampling, with the pools it
    was given. *)
Lemma iteration_loss (z : mc_pilco.pools) (pegasus : bool)
    (init_states : tensor A) (steps : nat) (mms mmr maximize : bool)
    (w : W) (l x0 : tensor A) (w' : W) :
  mc_pilco.iteration policy forward potrf model_resample policy_resample
    sample_initial_state update z pegasus init_states steps mms mmr maximize w
  = Some ((l, x0), w') ->
  exists trajs w1 w2,
    mc_pilco.rollout policy forward potrf x0 steps
      (mc_pilco.Options false false mms mmr (mc_pilco.p_mm z)
         (mc_pilco.p_states z) (mc_pilco.p_rewards z)) w1
    = Some (trajs, w2)
    ∧ mc_pilco.loss trajs maximize = Some l.
Proof.
  intros Hi. unfold mc_pilco.iteration in Hi.
  bind_inv Hi. bind_inv Hi. rename x1 into x0'.
  bind_inv Hi. rename x1 into trajs.
  bind_inv Hi. apply lift_Some in E2 as [Hl ->].
  bind_inv Hi. unfold cret in Hi. injection Hi as <- <- <-.
  by exists trajs, w1, w2.
Qed.

(** Every loss that [mc_pilco] reports is the loss of a rollout that was
    given the same pools. *)
Lemma iterations_losses (z : mc_pilco.pools) (pegasus : bool)
    (init_states : tensor A) (steps : nat) (mms mmr maximize : bool)
    (n : nat) (w : W) (ls : list (tensor A)) (w' : W) :
  mc_pilco.iterations policy forward potrf model_resample policy_resample
    sample_initial_state update z pegasus init_states steps mms mmr maximize
    n w = Some (ls, w') ->
  length ls = n
  ∧ Forall (λ l, exists x0 trajs w1 w2,
              mc_pilco.rollout policy forward potrf x0 steps
                (mc_pilco.Options false false mms mmr (mc_pilco.p_mm z)
                   (mc_pilco.p_states z) (mc_pilco.p_rewards z)) w1
              = Some (trajs, w2)
              ∧ mc_pilco.loss trajs maximize = Some l) ls.
Proof.
  revert init_states w ls w'.
  induction n as [|n IH]; intros x w ls w' Hn; cbn in Hn.
  - unfold cret in Hn. by injection Hn as <- <-.
  - bind_inv Hn. destruct x0 as [l x1]. bind_inv Hn.
    unfold cret in Hn. injection Hn as <- <-.
    destruct (IH _ _ _ _ E0) as [Hlen Hall].
    destruct (iteration_loss _ _ _ _ _ _ _ _ _ _ _ E)
      as (trajs & v1 & v2 & Hr & Hl).
    split; [cbn; by rewrite Hlen|].
    constructor; [|done]. by exists x1, trajs, v1, v2.
Qed.

(** In the pegasus mode, the pools allocated for a batch of [m] particles
    of dimension [d > 0] have [steps + m] rows. *)
Lemma alloc_pools_rows (steps m d : nat) (w : W) (z : mc_pilco.pools)
    (w' : W) :
  mc_pilco.alloc_pools model_resample policy_resample true steps [m; d] d w
  = Some (z, w') ->
  exists z1 z2 z3,
    z = mc_pilco.Pools (Some z1) (Some z2) (Some z3)
    ∧ shape z1 = [steps + m; d]
    ∧ shape z2 = [steps + m; d]
    ∧ shape z3 = [steps + m; 1].
Proof.
  assert (forall v t v', mc_pilco.randn_pool [steps + m; d] d v = Some (t, v')
                         -> shape t = [steps + m; d]) as Hpool.
  { intros v t v'. unfold mc_pilco.randn_pool.
    destruct (randn _ v) as [l v1].
    destruct (_ || _) eqn:E; [done|]. intros [= <- _]. cbn.
    apply orb_false_iff in E as [Hd%Nat.eqb_neq _].
    unfold numel. cbn [foldr].
    by rewrite Nat.mul_1_r, Nat.div_mul. }
  intros Ha. unfold mc_pilco.alloc_pools in Ha. cbn [head tail] in Ha.
  bind_inv Ha. apply lift_Some in E as [[= <-] ->].
  bind_inv Ha. rename x into z1. apply Hpool in E.
  bind_inv Ha. rename x into z2. apply Hpool in E0.
  bind_inv Ha. rename x into z3.
  destruct (randn _ w1) as [l v1]. injection E1 as <- <-.
  bind_inv Ha. bind_inv Ha. unfold cret in Ha. injection Ha as <- <-.
  by exists z1, z2, (Tensor [steps + m; 1] l).
Qed.
End search.

(** * Further properties *)

(** ** The noise pools, the moment matching and the search *)

Section more_pools.
Context `{Scalar A} `{Rng W A}.

Lemma mapM_None_elem {X Y : Type} (f : X -> option Y) (l : list X) (x : X) :
  x ∈ l -> f x = None -> mapM f l = None.
Proof.
  intros Hx Hf. destruct (mapM f l) as [k|] eqn:E; [|done].
  assert (is_Some (mapM f l)) as Hs by eauto.
  apply mapM_is_Some in Hs. eapply Forall_forall in Hs; [|exact Hx].
  cbn in Hs. rewrite Hf in Hs. by destruct Hs.
Qed.

Lemma residue_in_window (i m L : nat) :
  L < m -> exists k, k ∈ seq i m ∧ k mod m = L.
Proof.
  intros HL. pose proof (Nat.div_mod_eq i m) as Hi.
  pose proof (Nat.mod_upper_bound i m ltac:(lia)) as Hr.
  destruct (decide (i mod m <= L)) as [Hle|Hgt].
  - exists (i + (L - i mod m)). split.
    + apply elem_of_seq. lia.
    + replace (i + (L - i mod m)) with (L + i / m * m) by lia.
      by rewrite Nat.Div0.mod_add, Nat.mod_small.
  - exists (i + (m - i mod m + L)). split.
    + apply elem_of_seq. lia.
    + replace (i + (m - i mod m + L)) with (L + (i / m + 1) * m) by lia.
      by rewrite Nat.Div0.mod_add, Nat.mod_small.
Qed.

(** X1.  [get_z_rnd] on a pool whose first dimension has [L] entries, for a
    batch of [m > 0] particles, at a step [i] with [i + m <= 2 ^ 24] (the
    indices are then exact as floats): when [m <= L] it returns the rows
    [(i + k) mod m], [k < m], of the pool and leaves the generator as it
    is; when the pool has fewer than [m] rows the indexing raises. *)
Theorem get_z_rnd_of_pool (z : tensor A) (L : nat) (rest shp : list nat)
    (i m : nat) (w : W) :
  shape z = L :: rest -> 0 < m -> float_exact (i + m) ->
  mc_pilco.get_z_rnd (Some z) i (m :: shp) w
  = if decide (m <= L)
    then Some (Tensor (m :: rest)
                 (mjoin ((λ k, pool_row z rest ((i + k) mod m)) <$> seq 0 m)),
               w)
    else None.
Proof.
  intros Hz Hm Hb. destruct (decide (m <= L)) as [HL|HL].
  - apply get_z_rnd_pool with L; done.
  - unfold mc_pilco.get_z_rnd, lift.
    cbn [head mbind option_bind]. rewrite z_indices_exact by done.
    cbn [mbind option_bind].
    unfold index_rows. rewrite Hz.
    destruct (residue_in_window i m L) as (k & Hk & Hmod); [lia|].
    rewrite (mapM_None_elem _ _ (k mod m)); [done| |].
    + apply list_elem_of_fmap. by exists k.
    + rewrite Hmod. destruct (decide (L < L)); [lia|done].
Qed.

(** X2.  The noise read from a pool repeats with the number [m] of
    particles: the steps [i] and [i + j m] read the same rows (or both
    raise), as long as the indices of the later step are exact as floats,
    that is for [i + j m + m <= 2 ^ 24]. *)
Theorem get_z_rnd_repeats (z : tensor A) (i j m : nat) (shp : list nat)
    (w : W) :
  float_exact (i + j * m + m) ->
  mc_pilco.get_z_rnd (Some z) (i + j * m) (m :: shp) w
  = mc_pilco.get_z_rnd (Some z) i (m :: shp) w.
Proof.
  induction j as [|j IH]; intros Hb; [by rewrite Nat.add_0_r|].
  replace (i + S j * m) with (i + j * m + m) by lia.
  rewrite get_z_rnd_period
    by (apply (float_exact_le _ (i + S j * m + m)); [lia|done]).
  apply IH. apply (float_exact_le _ (i + S j * m + m)); [lia|done].
Qed.
End more_pools.

Lemma get_z_rnd_of_pool_witness :
  shape examples.pool = [5; 1]
  ∧ 0 < 2
  ∧ float_exact (1 + 2)
  ∧ mc_pilco.get_z_rnd (Some examples.pool) 1 [2; 1] examples.uniforms
    = Some (qtensor [2; 1] [11; 10]%Q, examples.uniforms)
  ∧ mc_pilco.get_z_rnd (Some examples.pool) 1 [6; 1] examples.uniforms
    = None.
Proof.
  assert (0 < 2) as H2 by lia. assert (0 < 6) as H6 by lia.
  assert (float_exact (1 + 2)) as Hb2 by (unfold float_exact; lia).
  assert (float_exact (1 + 6)) as Hb6 by (unfold float_exact; lia).
  split; [reflexivity|]. split; [exact H2|]. split; [exact Hb2|].
  rewrite (get_z_rnd_of_pool examples.pool 5 [1] [1] 1 2 examples.uniforms
             eq_refl H2 Hb2).
  rewrite (get_z_rnd_of_pool examples.pool 5 [1] [1] 1 6 examples.uniforms
             eq_refl H6 Hb6).
  split; vm_compute; reflexivity.
Defined.

Lemma get_z_rnd_repeats_witness :
  float_exact (1 + 3 * 2 + 2)
  ∧ mc_pilco.get_z_rnd (Some examples.pool) (1 + 3 * 2) [2; 1]
      examples.uniforms
    = Some (qtensor [2; 1] [11; 10]%Q, examples.uniforms).
Proof.
  assert (float_exact (1 + 3 * 2 + 2)) as Hb by (unfold float_exact; lia).
  split; [exact Hb|].
  rewrite (get_z_rnd_repeats examples.pool 1 3 2 [1] examples.uniforms Hb).
  vm_compute. reflexivity.
Defined.

Section prefix.
Context `{Scalar A}.

Lemma bshape_take_l (r : list nat) (j : nat) : bshape (take j r) r = Some r.
Proof.
  revert j. induction r as [|d r IH]; intros [|j]; try done.
  cbn [take bshape]. rewrite Nat.eqb_refl, IH. done.
Qed.

(** A first operand whose shape is made of the last dimensions of the
    second one is laid over every block of the second one. *)
Lemma tzip_prefix (f : A -> A -> A) (x y : tensor A) (j : nat) :
  shape x = drop j (shape y) ->
  tzip f x y
  = Some (Tensor (shape y)
            ((λ i, f (getd (data x) (i mod numel (shape x))) (getd (data y) i))
             <$> seq 0 (numel (shape y)))).
Proof.
  intros Hx. unfold tzip, broadcast_shape.
  rewrite Hx, reverse_drop, bshape_take_l. cbn.
  rewrite reverse_involutive. do 2 f_equal.
  apply list_fmap_ext. intros i k Hk.
  apply lookup_seq in Hk as [-> Hi]. cbn.
  rewrite (bidx_same (reverse (shape y))) by (by rewrite numel_reverse).
  rewrite bidx_take, <- reverse_drop, numel_reverse.
  by rewrite Nat.mul_1_r.
Qed.
End prefix.

Section redraw.
Context `{Scalar A}.
Variable potrf : tensor A -> option (tensor A).

(** X4.  The moment matching of the rollout, entry by entry: for a batch
    [x] of [n] particles of dimension [d], a noise [z] of [n'] rows and the
    factor [L] that [potrf] returns for the matrix of the covariances
    [deltasᵀ · deltas / M + 1e-6 · I], the entry [(p, j)] of the result is
    the mean of the component [j] of [x] plus the product of the row [p]
    of [z] with the column [j] of [L]; the result has as many rows as the
    noise. *)
Theorem moment_match_redraw (M : nat) (x z L : tensor A) (n n' d : nat) :
  shape x = [n; d] ->
  shape z = [n'; d] ->
  potrf (Tensor [d; d] (grid d d (mc_pilco.covariance M x n d))) = Some L ->
  shape L = [d; d] ->
  mc_pilco.moment_match potrf M x z
  = Some (Tensor [n'; d]
            (grid n' d (λ p j,
               sadd (mc_pilco.particle_mean x n d j)
                    (ssum ((λ k, smul (getd (data z) (p * d + k))
                                      (getd (data L) (k * d + j)))
                           <$> seq 0 d))))).
Proof.
  intros Hx Hz HL HsL.
  rewrite (moment_match_entries potrf M x z n d Hx), HL.
  cbn [mbind option_bind]. unfold mm. rewrite Hz, HsL, Nat.eqb_refl.
  cbn [mbind option_bind]. unfold tadd.
  rewrite (tzip_prefix _ _ _ 1) by done. cbn [shape data]. do 2 f_equal.
  unfold numel. cbn [foldr]. rewrite !Nat.mul_1_r, fmap_seq_grid.
  apply grid_ext. intros p j Hp Hj. rewrite getd_grid by done.
  replace ((p * d + j) mod d) with j
    by (by rewrite Nat.add_comm, Nat.Div0.mod_add, Nat.mod_small).
  by rewrite getd_fmap_seq_lt.
Qed.
End redraw.

Section more_search.
Context `{Scalar A} `{Rng W A}.
Variable policy : tensor A -> bool -> comp W (tensor A).
Variable forward :
  tensor A -> tensor A -> bool -> bool -> tensor A -> tensor A ->
  comp W (tensor A * tensor A).
Variable potrf : tensor A -> option (tensor A).
Variable model_resample : comp W unit.
Variable policy_resample : comp W unit.
Variable sample_initial_state : option (nat -> comp W (tensor A)).
Variable update : tensor A -> comp W unit.

(** X3.  The pools that [mc_pilco] allocates in the pegasus mode for
    initial states of the shape [(m, d)], [m > 0], are long enough: at
    every step [i] with [i + m <= 2 ^ 24], also beyond [steps],
    [get_z_rnd] returns from each of them a batch of the shape the rollout
    asks for, and does not use the generator. *)
Theorem pegasus_pools_fit (steps m d : nat) (w : W) (z : mc_pilco.pools)
    (w' : W) :
  mc_pilco.alloc_pools model_resample policy_resample true steps [m; d] d w
  = Some (z, w') ->
  0 < m ->
  forall i v,
    float_exact (i + m) ->
    exists t1 t2 t3,
      mc_pilco.get_z_rnd (mc_pilco.p_mm z) i [m; d] v = Some (t1, v)
      ∧ shape t1 = [m; d]
      ∧ mc_pilco.get_z_rnd (mc_pilco.p_states z) i [m; d] v = Some (t2, v)
      ∧ shape t2 = [m; d]
      ∧ mc_pilco.get_z_rnd (mc_pilco.p_rewards z) i [m; 1] v = Some (t3, v)
      ∧ shape t3 = [m; 1].
Proof.
  intros Ha Hm i v Hb.
  destruct (alloc_pools_rows _ _ _ _ _ _ _ _ Ha)
    as (z1 & z2 & z3 & -> & H1 & H2 & H3).
  cbn [mc_pilco.p_mm mc_pilco.p_states mc_pilco.p_rewards].
  rewrite (get_z_rnd_pool z1 (steps + m) [d]) by (done || lia).
  rewrite (get_z_rnd_pool z2 (steps + m) [d]) by (done || lia).
  rewrite (get_z_rnd_pool z3 (steps + m) [1]) by (done || lia).
  eauto 10.
Qed.

Lemma iteration_empty_horizon (z : mc_pilco.pools) (pegasus : bool)
    (init_states : tensor A) (mms mmr maximize : bool) (w : W) :
  mc_pilco.iteration policy forward potrf model_resample policy_resample
    sample_initial_state update z pegasus init_states 0 mms mmr maximize w
  = None.
Proof.
  destruct (mc_pilco.iteration _ _ _ _ _ _ _ _ _ _ _ _ _ _ _) as [r|] eqn:Hi;
    [exfalso|done].
  unfold mc_pilco.iteration in Hi.
  bind_inv Hi. bind_inv Hi. bind_inv Hi. rename x1 into trajs.
  unfold mc_pilco.rollout in E1. bind_inv E1.
  cbn in E1. unfold cret in E1. injection E1 as <- <-.
  bind_inv Hi. by apply lift_Some in E1 as [? _].
Qed.

(** X5.  With [steps = 0] an iteration of [mc_pilco] has no trajectory
    to stack: a search of at least one iteration raises. *)
Theorem mc_pilco_empty_horizon (init_states : tensor A) (n : nat)
    (pegasus mms mmr maximize : bool) (w : W) :
  mc_pilco.mc_pilco policy forward potrf model_resample policy_resample
    sample_initial_state update init_states 0 (S n) pegasus mms mmr maximize w
  = None.
Proof.
  unfold mc_pilco.mc_pilco, cbind.
  destruct (lift (last (shape init_states)) w) as [[D w1]|]; [|done].
  destruct (mc_pilco.alloc_pools _ _ _ _ _ _ w1) as [[z w2]|]; [|done].
  cbn [mc_pilco.iterations]. unfold cbind.
  by rewrite iteration_empty_horizon.
Qed.

End more_search.

Lemma moment_match_redraw_witness :
  shape more_examples.particles = [2; 1]
  ∧ shape more_examples.noise21 = [2; 1]
  ∧ examples.potrf1
      (Tensor [1; 1]
         (grid 1 1 (mc_pilco.covariance 2 more_examples.particles 2 1)))
    = Some more_examples.factor
  ∧ shape more_examples.factor = [1; 1]
  ∧ mc_pilco.moment_match examples.potrf1 2 more_examples.particles
      more_examples.noise21
    = Some (qtensor [2; 1] [301 # 100; 3011 # 1000]%Q).
Proof.
  assert (examples.potrf1
            (Tensor [1; 1]
               (grid 1 1 (mc_pilco.covariance 2 more_examples.particles 2 1)))
          = Some more_examples.factor) as H3 by (vm_compute; reflexivity).
  split; [reflexivity|]. split; [reflexivity|]. split; [exact H3|].
  split; [reflexivity|].
  rewrite (moment_match_redraw examples.potrf1 2 more_examples.particles
             more_examples.noise21 more_examples.factor 2 2 1
             eq_refl eq_refl H3 eq_refl).
  vm_compute. reflexivity.
Defined.

Lemma pegasus_pools_fit_witness :
  mc_pilco.alloc_pools more_examples.no_resample more_examples.no_resample
    true 3 [2; 1] 1 examples.uniforms
  = Some (more_examples.pegasus_pools, [])
  ∧ 0 < 2
  ∧ float_exact (2 + 2)
  ∧ exists t1 t2 t3,
      mc_pilco.get_z_rnd (mc_pilco.p_mm more_examples.pegasus_pools) 2
        [2; 1] examples.uniforms = Some (t1, examples.uniforms)
      ∧ shape t1 = [2; 1]
      ∧ mc_pilco.get_z_rnd (mc_pilco.p_states more_examples.pegasus_pools) 2
          [2; 1] examples.uniforms = Some (t2, examples.uniforms)
      ∧ shape t2 = [2; 1]
      ∧ mc_pilco.get_z_rnd (mc_pilco.p_rewards more_examples.pegasus_pools) 2
          [2; 1] examples.uniforms = Some (t3, examples.uniforms)
      ∧ shape t3 = [2; 1].
Proof.
  assert (mc_pilco.alloc_pools more_examples.no_resample
            more_examples.no_resample true 3 [2; 1] 1 examples.uniforms
          = Some (more_examples.pegasus_pools, [])) as Ha
    by (vm_compute; reflexivity).
  assert (0 < 2) as H2 by lia.
  assert (float_exact (2 + 2)) as Hb by (unfold float_exact; lia).
  split; [exact Ha|]. split; [exact H2|]. split; [exact Hb|].
  exact (pegasus_pools_fit _ _ 3 2 1 _ _ _ Ha H2 2 examples.uniforms Hb).
Defined.


(** ** More on the stochastic layers *)

Section bdropout_more.
Context `{Scalar A} `{Rng G A}.

Lemma BDropout_forward_empty (L : BDropout.state A) (x : tensor A)
    (resample : bool) (mask_dims : nat) (g : G) :
  numel (shape x) = 0 ->
  last_dims mask_dims (shape x) ≠ shape (BDropout.noise L) ->
  BDropout.forward L x resample mask_dims g = (None, L, g).
Proof.
  intros Hx Hs. unfold BDropout.forward.
  rewrite shape_eqb_ne by done. cbn [negb].
  unfold view_first. rewrite Hx. cbn [Nat.eqb].
  by rewrite orb_true_r.
Qed.

(** X7.  [BDropout.forward] raises exactly when the batch is empty and
    its last dimensions differ from the shape of the stored mask (the
    first block of the view does not exist); the layer and the generator
    are then as before the call. *)
Theorem BDropout_forward_raises_iff (L : BDropout.state A) (x : tensor A)
    (resample : bool) (mask_dims : nat) (g : G) :
  ((BDropout.forward L x resample mask_dims g).1.1 = None
   <-> numel (shape x) = 0
       ∧ last_dims mask_dims (shape x) ≠ shape (BDropout.noise L))
  ∧ ((BDropout.forward L x resample mask_dims g).1.1 = None ->
     BDropout.forward L x resample mask_dims g = (None, L, g)).
Proof.
  destruct (decide (last_dims mask_dims (shape x)
                    = shape (BDropout.noise L))) as [Hs|Hs].
  - assert (is_Some (BDropout.forward L x resample mask_dims g).1.1) as [y Hy].
    { destruct resample.
      + rewrite BDropout_forward_transient by done. eauto.
      + rewrite BDropout_forward_reuse by done. eauto. }
    rewrite Hy. split; [|done]. split; [done|]. by intros [_ ?].
  - destruct (decide (numel (shape x) = 0)) as [Hx|Hx].
    + rewrite BDropout_forward_empty by done. cbn. done.
    + rewrite BDropout_forward_new_shape by done. cbn.
      split; [|done]. split; [done|]. by intros [? _].
Qed.

(** X8.  A call of [BDropout.forward] that returns keeps the shape of
    its input, leaves a stored mask of the shape of the last [mask_dims]
    dimensions of the input, and changes neither the rate nor the scale of
    the regularizer. *)
Theorem BDropout_forward_shapes (L : BDropout.state A) (x : tensor A)
    (resample : bool) (mask_dims : nat) (g : G) (y : tensor A)
    (L' : BDropout.state A) (g' : G) :
  BDropout.forward L x resample mask_dims g = (Some y, L', g') ->
  shape y = shape x
  ∧ shape (BDropout.noise L') = last_dims mask_dims (shape x)
  ∧ BDropout.rate L' = BDropout.rate L
  ∧ BDropout.regularizer_scale L' = BDropout.regularizer_scale L.
Proof.
  destruct (decide (last_dims mask_dims (shape x)
                    = shape (BDropout.noise L))) as [Hs|Hs].
  - destruct resample.
    + rewrite BDropout_forward_transient by done. by intros [= <- <- _].
    + rewrite BDropout_forward_reuse by done. by intros [= <- <- _].
  - destruct (decide (numel (shape x) = 0)) as [Hx|Hx].
    + by rewrite BDropout_forward_empty.
    + rewrite BDropout_forward_new_shape by done. by intros [= <- <- _].
Qed.

(** After a call with [resample=False], a second call on the same input
    returns the same output, keeps the layer and draws nothing. *)
Lemma BDropout_forward_again (L : BDropout.state A) (x : tensor A)
    (mask_dims : nat) (g g2 : G) (y : option (tensor A))
    (L' : BDropout.state A) (g' : G) :
  BDropout.forward L x false mask_dims g = (y, L', g') ->
  BDropout.forward L' x false mask_dims g2 = (y, L', g2).
Proof.
  destruct (decide (last_dims mask_dims (shape x)
                    = shape (BDropout.noise L))) as [Hs|Hs].
  - rewrite (BDropout_forward_reuse L x mask_dims g Hs).
    intros [= <- <- _]. by apply BDropout_forward_reuse.
  - destruct (decide (numel (shape x) = 0)) as [Hx|Hx].
    + rewrite (BDropout_forward_empty L x false mask_dims g Hx Hs).
      intros [= <- <- _]. by apply BDropout_forward_empty.
    + rewrite (BDropout_forward_new_shape L x false mask_dims g Hs Hx).
      cbn zeta. intros [= <- <- _]. by apply BDropout_forward_reuse.
Qed.

(** X9.  The attribute [p] of a [BDropout] layer is its keep probability
    [1 - rate]: this holds after [__init__], and [forward], [resample] and
    [weights_regularizer] keep it. *)
Theorem BDropout_keep_probability (L : BDropout.state A) :
  BDropout.p L = ssub (lit 1) (BDropout.rate L) ->
  (forall x resample mask_dims (g : G),
     let L' := (BDropout.forward L x resample mask_dims g).1.2 in
     BDropout.p L' = ssub (lit 1) (BDropout.rate L'))
  ∧ (forall g : G,
       let L' := (BDropout.resample L g).1 in
       BDropout.p L' = ssub (lit 1) (BDropout.rate L'))
  ∧ (forall w,
       let L' := (BDropout.weights_regularizer L w).2 in
       BDropout.p L' = ssub (lit 1) (BDropout.rate L')).
Proof.
  intros Hp. split; [|split].
  - intros x resample mask_dims g. cbn zeta. unfold BDropout.forward.
    destruct (negb _).
    + destruct (view_first _ _); [|done]. unfold BDropout.update_noise.
      by destruct (bernoulli _ _ g).
    + destruct resample; [by destruct (bernoulli _ _ g)|done].
  - intros g. cbn zeta. unfold BDropout.resample, BDropout.update_noise.
    by destruct (bernoulli _ _ g).
  - done.
Qed.

Lemma BDropout_init_keep_probability (rate0 scale0 : A) (g : G) :
  BDropout.p (BDropout.init rate0 scale0 g).1
  = ssub (lit 1) (BDropout.rate (BDropout.init rate0 scale0 g).1).
Proof. unfold BDropout.init. by destruct (bernoulli _ _ g). Qed.
End bdropout_more.

Lemma BDropout_forward_shapes_witness :
  BDropout.forward examples.bdropout examples.x32 true 2 examples.uniforms
  = (Some (qtensor [3; 2] [1; 0; 3; 0; 5; 6]%Q),
     BDropout.State (Some (1 # 2)%Q) (Some (1 # 4)%Q) (Some (3 # 4)%Q)
                    (qtensor [3; 2] [1; 0; 1; 0; 1; 1]%Q),
     [1 # 5; 3 # 5]%Q)
  ∧ shape (qtensor [3; 2] [1; 0; 3; 0; 5; 6]%Q) = shape examples.x32
  ∧ shape (qtensor [3; 2] [1; 0; 1; 0; 1; 1]%Q)
    = last_dims 2 (shape examples.x32).
Proof.
  assert (BDropout.forward examples.bdropout examples.x32 true 2
            examples.uniforms
          = (Some (qtensor [3; 2] [1; 0; 3; 0; 5; 6]%Q),
             BDropout.State (Some (1 # 2)%Q) (Some (1 # 4)%Q)
                            (Some (3 # 4)%Q)
                            (qtensor [3; 2] [1; 0; 1; 0; 1; 1]%Q),
             [1 # 5; 3 # 5]%Q)) as Hf by (vm_compute; reflexivity).
  split; [exact Hf|].
  destruct (BDropout_forward_shapes _ _ _ _ _ _ _ _ Hf) as (Hy & Hn & _).
  split; [exact Hy|exact Hn].
Defined.

Lemma BDropout_keep_probability_witness :
  BDropout.p examples.bdropout = ssub (lit 1) (BDropout.rate examples.bdropout)
  ∧ BDropout.p (BDropout.forward examples.bdropout examples.x32 true 2
                  examples.uniforms).1.2
    = Some (3 # 4)%Q
  ∧ BDropout.p (BDropout.resample examples.bdropout examples.uniforms).1
    = Some (3 # 4)%Q.
Proof.
  assert (BDropout.p examples.bdropout
          = ssub (lit 1) (BDropout.rate examples.bdropout)) as Hp
    by (vm_compute; reflexivity).
  split; [exact Hp|].
  destruct (BDropout_keep_probability (G:=tape) examples.bdropout Hp)
    as (Hf & Hr & _).
  rewrite (Hf examples.x32 true 2 examples.uniforms).
  rewrite (Hr examples.uniforms).
  split; vm_compute; reflexivity.
Defined.

Section cdropout_more.
Context `{Scalar A} `{Rng G A}.

Lemma CDropout_forward_empty (L : CDropout.state A) (x : tensor A)
    (mask_dims : nat) (g : G) :
  numel (shape x) = 0 ->
  (forall c, CDropout.concrete_noise L = Some c ->
             last_dims mask_dims (shape x) ≠ shape c) ->
  CDropout.forward L x false mask_dims g = (None, L, g).
Proof.
  intros Hx Hc. unfold CDropout.forward.
  assert (match CDropout.concrete_noise L with
          | Some c => negb (shape_eqb (last_dims mask_dims (shape x))
                                      (shape c))
          | None => true
          end = true) as ->.
  { destruct (CDropout.concrete_noise L) as [c|]; [|done].
    by rewrite shape_eqb_ne by auto. }
  unfold view_first. rewrite Hx. cbn [Nat.eqb]. by rewrite orb_true_r.
Qed.

(** The three ways a call with [resample=False] can go. *)
Lemma CDropout_forward_cases (L : CDropout.state A) (x : tensor A)
    (mask_dims : nat) (g : G) :
  (exists c, CDropout.concrete_noise L = Some c
             ∧ last_dims mask_dims (shape x) = shape c)
  ∨ ((forall c, CDropout.concrete_noise L = Some c ->
                last_dims mask_dims (shape x) ≠ shape c)
     ∧ numel (shape x) = 0)
  ∨ ((forall c, CDropout.concrete_noise L = Some c ->
                last_dims mask_dims (shape x) ≠ shape c)
     ∧ numel (shape x) ≠ 0).
Proof.
  destruct (CDropout.concrete_noise L) as [c|] eqn:Hc.
  - destruct (decide (last_dims mask_dims (shape x) = shape c)) as [Hs|Hs].
    + left. by exists c.
    + right. destruct (decide (numel (shape x) = 0)); [left|right];
        (split; [by intros ? [= <-]|done]).
  - right. destruct (decide (numel (shape x) = 0)); [left|right]; done.
Qed.

Lemma CDropout_forward_consistent (L : CDropout.state A) (x : tensor A)
    (mask_dims : nat) (g : G) :
  consistent L ->
  consistent (CDropout.forward L x false mask_dims g).1.2.
Proof.
  intros HL.
  destruct (CDropout_forward_cases L x mask_dims g)
    as [(c & Hc & Hs)|[[Hc Hx]|[Hc Hx]]].
  - rewrite (CDropout_forward_stored_shape L x c mask_dims g Hc Hs).
    by destruct (CDropout.training L).
  - by rewrite CDropout_forward_empty.
  - rewrite CDropout_forward_new_shape by done. cbn zeta.
    by destruct (rand _ g).
Qed.

(** X10.  The stored relaxed mask of a [CDropout] layer has the shape of
    its stored base noise: this holds after [__init__] (there is no mask
    yet), and [forward] with [resample=False] and [resample] keep it. *)
Theorem CDropout_consistent_kept :
  (forall (rate0 scale0 temperature : A) (g : G),
     consistent (CDropout.init rate0 scale0 temperature g).1)
  ∧ (forall L x mask_dims (g : G),
       consistent L ->
       consistent (CDropout.forward L x false mask_dims g).1.2)
  ∧ (forall L (g : G),
       consistent L -> consistent (CDropout.resample L g).1).
Proof.
  split; [|split].
  - intros rate0 scale0 temperature g. unfold CDropout.init.
    by destruct (BDropout.init _ _ g).
  - intros L x mask_dims g. apply CDropout_forward_consistent.
  - intros L g HL. unfold CDropout.resample, CDropout.update_noise.
    destruct (rand _ g) as [d g']. unfold consistent in *. cbn.
    by destruct (CDropout.concrete_noise L).
Qed.

Lemma CDropout_forward_again (L : CDropout.state A) (x : tensor A)
    (mask_dims : nat) (g g2 : G) (y : option (tensor A))
    (L' : CDropout.state A) (g' : G) :
  consistent L ->
  CDropout.forward L x false mask_dims g = (y, L', g') ->
  CDropout.forward L' x false mask_dims g2 = (y, L', g2).
Proof.
  intros HL.
  destruct (CDropout_forward_cases L x mask_dims g)
    as [(c & Hc & Hs)|[[Hc Hx]|[Hc Hx]]].
  - rewrite (CDropout_forward_stored_shape L x c mask_dims g Hc Hs).
    unfold consistent in HL. rewrite Hc in HL.
    destruct (CDropout.training L) eqn:Ht; intros [= <- <- _].
    + rewrite (CDropout_forward_stored_shape _ x
                 (CDropout.concrete L (CDropout.noise L)) mask_dims g2)
        by (done || (cbn; congruence)).
      cbn. by rewrite Ht.
    + by rewrite (CDropout_forward_stored_shape L x c mask_dims g2 Hc Hs), Ht.
  - rewrite (CDropout_forward_empty L x mask_dims g Hx Hc).
    intros [= <- <- _]. by apply CDropout_forward_empty.
  - rewrite (CDropout_forward_new_shape L x mask_dims g Hc Hx).
    cbn zeta. intros [= <- <- _].
    set (u := Tensor (last_dims mask_dims (shape x)) _).
    rewrite (CDropout_forward_stored_shape _ x (CDropout.concrete L u)
               mask_dims) by done.
    cbn. destruct (CDropout.training L).
    + by rewrite (tmul_last_dims x _ mask_dims).
    + done.
Qed.

(** X11.  On a [CDropout] layer whose masks agree in shape, [forward]
    with [resample=False] raises exactly when the batch is empty and no
    relaxed mask of the shape of its last dimensions is stored, and then
    changes nothing; with [resample=True] it never raises on any layer. *)
Theorem CDropout_forward_raises_iff (L : CDropout.state A) (x : tensor A)
    (mask_dims : nat) (g : G) :
  consistent L ->
  ((CDropout.forward L x false mask_dims g).1.1 = None
   <-> numel (shape x) = 0
       ∧ forall c, CDropout.concrete_noise L = Some c ->
                   last_dims mask_dims (shape x) ≠ shape c)
  ∧ ((CDropout.forward L x false mask_dims g).1.1 = None ->
     CDropout.forward L x false mask_dims g = (None, L, g))
  ∧ is_Some (CDropout.forward L x true mask_dims g).1.1.
Proof.
  intros HL. split; [|split].
  - destruct (CDropout_forward_cases L x mask_dims g)
      as [(c & Hc & Hs)|[[Hc Hx]|[Hc Hx]]].
    + rewrite (CDropout_forward_stored_shape L x c mask_dims g Hc Hs).
      unfold consistent in HL. rewrite Hc in HL.
      assert (tmul x (CDropout.concrete L (CDropout.noise L))
              = Some (masked x (CDropout.concrete L (CDropout.noise L))))
        as -> by (apply (tmul_last_dims x _ mask_dims); cbn; congruence).
      split.
      * by destruct (CDropout.training L).
      * intros [_ Hn]. by destruct (Hn c Hc).
    + rewrite CDropout_forward_empty by done. done.
    + rewrite CDropout_forward_new_shape by done. cbn.
      split; [done|]. by intros [? _].
  - destruct (CDropout_forward_cases L x mask_dims g)
      as [(c & Hc & Hs)|[[Hc Hx]|[Hc Hx]]].
    + rewrite (CDropout_forward_stored_shape L x c mask_dims g Hc Hs).
      unfold consistent in HL. rewrite Hc in HL.
      assert (tmul x (CDropout.concrete L (CDropout.noise L))
              = Some (masked x (CDropout.concrete L (CDropout.noise L))))
        as -> by (apply (tmul_last_dims x _ mask_dims); cbn; congruence).
      by destruct (CDropout.training L).
    + by rewrite CDropout_forward_empty.
    + by rewrite CDropout_forward_new_shape.
  - rewrite CDropout_forward_resample. cbn. eauto.
Qed.

(** X12.  In evaluation mode [resample()] has no effect on the next call
    of [CDropout.forward] with [resample=False]: when a relaxed mask of the
    shape of the last dimensions of the batch is stored, the output is the
    batch times this mask both before and after [resample()], and the call
    changes neither the layer nor the generator. *)
Theorem CDropout_eval_ignores_resample (L : CDropout.state A)
    (x c : tensor A) (mask_dims : nat) (g : G) :
  CDropout.training L = false ->
  CDropout.concrete_noise L = Some c ->
  last_dims mask_dims (shape x) = shape c ->
  let r := CDropout.resample L g in
  CDropout.forward r.1 x false mask_dims r.2
  = (Some (masked x c), r.1, r.2)
  ∧ (CDropout.forward L x false mask_dims g).1.1 = Some (masked x c).
Proof.
  intros Ht Hc Hs. cbn zeta. split.
  - unfold CDropout.resample, CDropout.update_noise.
    destruct (rand _ g) as [d g']. cbn [fst snd].
    rewrite (CDropout_forward_stored_shape _ x c mask_dims g') by done.
    cbn. by rewrite Ht.
  - rewrite (CDropout_forward_stored_shape L x c mask_dims g Hc Hs), Ht.
    done.
Qed.
End cdropout_more.

Lemma CDropout_forward_raises_iff_witness :
  consistent examples.cdropout
  ∧ is_Some (CDropout.forward examples.cdropout examples.x32 true 1
               examples.uniforms).1.1
  ∧ ((CDropout.forward examples.cdropout (qtensor [0; 3] []) false 1
        examples.uniforms).1.1 = None
     <-> numel (shape (qtensor [0; 3] [])) = 0
         ∧ forall c,
             CDropout.concrete_noise examples.cdropout = Some c ->
             last_dims 1 (shape (qtensor [0; 3] [])) ≠ shape c).
Proof.
  assert (consistent examples.cdropout) as Hc by reflexivity.
  split; [exact Hc|].
  destruct (CDropout_forward_raises_iff examples.cdropout examples.x32 1
              examples.uniforms Hc) as (_ & _ & Hs).
  destruct (CDropout_forward_raises_iff examples.cdropout
              (qtensor [0; 3] []) 1 examples.uniforms Hc) as (Hn & _ & _).
  split; [exact Hs|exact Hn].
Defined.

Lemma CDropout_eval_ignores_resample_witness :
  CDropout.training more_examples.cdropout_eval = false
  ∧ CDropout.concrete_noise more_examples.cdropout_eval
    = Some (qtensor [2] [1 # 2; 1 # 2]%Q)
  ∧ last_dims 1 (shape examples.x32) = shape (qtensor [2] [1 # 2; 1 # 2]%Q)
  ∧ (CDropout.forward
       (CDropout.resample more_examples.cdropout_eval examples.uniforms).1
       examples.x32 false 1
       (CDropout.resample more_examples.cdropout_eval examples.uniforms).2).1.1
    = Some (qtensor [3; 2] [1 # 2; 1; 3 # 2; 2; 5 # 2; 3]%Q)
  ∧ (CDropout.forward more_examples.cdropout_eval examples.x32 false 1
       examples.uniforms).1.1
    = Some (qtensor [3; 2] [1 # 2; 1; 3 # 2; 2; 5 # 2; 3]%Q).
Proof.
  split; [reflexivity|]. split; [reflexivity|]. split; [reflexivity|].
  destruct (CDropout_eval_ignores_resample more_examples.cdropout_eval
              examples.x32 (qtensor [2] [1 # 2; 1 # 2]%Q) 1 examples.uniforms
              eq_refl eq_refl eq_refl) as [H1 H2].
  rewrite H1, H2. split; vm_compute; reflexivity.
Defined.

(** ** More on the networks *)

Section networks.
Context `{Scalar A} `{Rng G A}.

Lemma forward_loop_app (ms1 ms2 : list (BSequential.layer A))
    (x : tensor A) (kw : gmap string pyval) (g : G) :
  BSequential.forward_loop (ms1 ++ ms2) x kw g
  = match BSequential.forward_loop ms1 x kw g with
    | (Some y, ms1', g1) =>
        let '(r, ms2', g2) := BSequential.forward_loop ms2 y kw g1 in
        (r, ms1' ++ ms2', g2)
    | (None, ms1', g1) => (None, ms1' ++ ms2, g1)
    end.
Proof.
  revert x g. induction ms1 as [|m ms1 IH]; intros x g.
  - cbn. by destruct (BSequential.forward_loop ms2 x kw g) as [[r ms'] g'].
  - cbn [app BSequential.forward_loop].
    destruct (BSequential.call_layer m x kw g) as [[[y|] m'] g']; [|done].
    rewrite IH.
    destruct (BSequential.forward_loop ms1 y kw g') as [[[z|] ms1'] g1].
    + by destruct (BSequential.forward_loop ms2 z kw g1) as [[r ms2'] g2].
    + done.
Qed.

(** X13.  [BSequential.forward] composes: the network [ms1 ++ ms2] runs
    [ms1], then [ms2] on its output with the same keywords and the
    generator [ms1] has left; when [ms1] raises, [ms2] is not run. *)
Theorem BSequential_forward_app (ms1 ms2 : list (BSequential.layer A))
    (x : tensor A) (kw : gmap string pyval) (g : G) :
  BSequential.forward (ms1 ++ ms2) x kw g
  = match BSequential.forward ms1 x kw g with
    | (Some y, ms1', g1) =>
        let '(r, ms2', g2) := BSequential.forward ms2 y kw g1 in
        (r, ms1' ++ ms2', g2)
    | (None, ms1', g1) => (None, ms1' ++ ms2, g1)
    end.
Proof. apply forward_loop_app. Qed.

(** *** What the calls leave of a network *)

Lemma same_parameters_refl (m : BSequential.layer A) : same_parameters m m.
Proof. destruct m as [L|L|w b f|f]; cbn; done. Qed.

Lemma same_parameters_trans (m1 m2 m3 : BSequential.layer A) :
  same_parameters m1 m2 -> same_parameters m2 m3 -> same_parameters m1 m3.
Proof.
  destruct m1 as [L1|L1|w1 b1 f1|f1], m2 as [L2|L2|w2 b2 f2|f2],
    m3 as [L3|L3|w3 b3 f3|f3]; cbn; try done; try congruence.
  - intros [-> ->] [-> ->]. done.
  - intros (-> & -> & -> & -> & ->) (-> & -> & -> & -> & ->). done.
Qed.

Lemma resample_layer_same_parameters (m : BSequential.layer A) (g : G) :
  same_parameters m (BSequential.resample_layer m g).1.
Proof.
  destruct m as [L|L|w b f|f]; cbn; try done.
  - unfold BDropout.resample, BDropout.update_noise.
    by destruct (bernoulli _ _ g).
  - unfold CDropout.resample, CDropout.update_noise.
    by destruct (rand _ g).
Qed.

Lemma resample_same_parameters (ms : list (BSequential.layer A)) (g : G) :
  Forall2 same_parameters ms (BSequential.resample ms g).1.
Proof.
  revert g. induction ms as [|m ms IH]; intros g; [constructor|].
  cbn [BSequential.resample].
  pose proof (resample_layer_same_parameters m g) as Hm.
  destruct (BSequential.resample_layer m g) as [m' g1].
  specialize (IH g1). destruct (BSequential.resample ms g1) as [ms' g2].
  by constructor.
Qed.

Lemma BDropout_forward_parameters (L : BDropout.state A) (x : tensor A)
    (resample : bool) (mask_dims : nat) (g : G) :
  let L' := (BDropout.forward L x resample mask_dims g).1.2 in
  BDropout.rate L' = BDropout.rate L
  ∧ BDropout.regularizer_scale L' = BDropout.regularizer_scale L.
Proof.
  cbn zeta. unfold BDropout.forward. destruct (negb _).
  - destruct (view_first _ _); [|done]. unfold BDropout.update_noise.
    by destruct (bernoulli _ _ g).
  - destruct resample; [by destruct (bernoulli _ _ g)|done].
Qed.

Lemma CDropout_forward_parameters (L : CDropout.state A) (x : tensor A)
    (resample : bool) (mask_dims : nat) (g : G) :
  let L' := (CDropout.forward L x resample mask_dims g).1.2 in
  CDropout.rate L' = CDropout.rate L
  ∧ CDropout.regularizer_scale L' = CDropout.regularizer_scale L
  ∧ CDropout.logit_p L' = CDropout.logit_p L
  ∧ CDropout.temp L' = CDropout.temp L
  ∧ CDropout.training L' = CDropout.training L.
Proof.
  cbn zeta. destruct resample.
  - rewrite CDropout_forward_resample. cbn zeta.
    by destruct (rand _ g).
  - destruct (CDropout_forward_cases L x mask_dims g)
      as [(c & Hc & Hs)|[[Hc Hx]|[Hc Hx]]].
    + rewrite (CDropout_forward_stored_shape L x c mask_dims g Hc Hs).
      by destruct (CDropout.training L) eqn:Ht.
    + by rewrite CDropout_forward_empty.
    + rewrite CDropout_forward_new_shape by done. by cbn.
Qed.

Lemma call_layer_same_parameters (m : BSequential.layer A) (x : tensor A)
    (kw : gmap string pyval) (g : G) :
  same_parameters m (BSequential.call_layer m x kw g).1.2.
Proof.
  destruct m as [L|L|w b f|f]; cbn [BSequential.call_layer]; try done.
  - unfold BDropout.call. destruct (as_index _) as [md|]; [|done].
    pose proof (BDropout_forward_parameters L x
                  (truthy (default (VBool true) (kw !! "resample"%string)))
                  md g) as Hp.
    by destruct (BDropout.forward _ _ _ _ _) as [[y L'] g'].
  - unfold CDropout.call. destruct (as_index _) as [md|]; [|by cbn].
    pose proof (CDropout_forward_parameters L x
                  (truthy (default (VBool false) (kw !! "resample"%string)))
                  md g) as Hp.
    by destruct (CDropout.forward _ _ _ _ _) as [[y L'] g'].
Qed.

Lemma forward_loop_same_parameters (ms : list (BSequential.layer A))
    (x : tensor A) (kw : gmap string pyval) (g : G) :
  Forall2 same_parameters ms (BSequential.forward_loop ms x kw g).1.2.
Proof.
  revert x g. induction ms as [|m ms IH]; intros x g; [constructor|].
  cbn [BSequential.forward_loop].
  pose proof (call_layer_same_parameters m x kw g) as Hm.
  destruct (BSequential.call_layer m x kw g) as [[[y|] m'] g'].
  - specialize (IH y g').
    destruct (BSequential.forward_loop ms y kw g') as [[r ms'] g''].
    by constructor.
  - constructor; [done|]. clear.
    induction ms; constructor; [apply same_parameters_refl|done].
Qed.
End networks.

Section loss_stable.
Context `{Scalar A} `{Rng G A}.

Lemma first_affine_same_parameters (ms ms' : list (BSequential.layer A)) :
  Forall2 same_parameters ms ms' ->
  BSequential.first_affine ms = BSequential.first_affine ms'.
Proof.
  induction 1 as [|m m' ms ms' Hm _ IH]; [done|].
  destruct m, m'; cbn in Hm |- *; try done; by injection Hm as -> -> ->.
Qed.

Lemma contribution_same_parameters (m m' : BSequential.layer A)
    (rest rest' : list (BSequential.layer A)) :
  same_parameters m m' -> Forall2 same_parameters rest rest' ->
  BSequential.contribution m rest = BSequential.contribution m' rest'.
Proof.
  intros Hm Hr. unfold BSequential.contribution.
  rewrite <- !first_affine_paired.
  rewrite <- (first_affine_same_parameters rest rest' Hr).
  destruct m as [L|L|w b f|f], m' as [L'|L'|w' b' f'|f']; cbn in Hm;
    try done.
  - destruct Hm as [Hr1 Hr2].
    destruct (BSequential.first_affine rest) as [[w [b|]]|]; [| |done];
      unfold BDropout.weights_regularizer, BDropout.biases_regularizer;
      cbn [fst]; by rewrite Hr1, Hr2.
  - destruct Hm as (_ & Hr2 & Hr3 & _).
    destruct (BSequential.first_affine rest) as [[w [b|]]|]; [| |done];
      unfold CDropout.weights_regularizer, CDropout.biases_regularizer;
      by rewrite Hr2, Hr3.
Qed.

Lemma contributions_same_parameters (ms ms' : list (BSequential.layer A)) :
  Forall2 same_parameters ms ms' ->
  BSequential.contributions ms = BSequential.contributions ms'.
Proof.
  induction 1 as [|m m' ms ms' Hm Hms IH]; [done|].
  cbn [BSequential.contributions].
  by rewrite IH, (contribution_same_parameters m m' ms ms').
Qed.

Lemma regularization_loss_same_parameters
    (ms ms' : list (BSequential.layer A)) :
  Forall2 same_parameters ms ms' ->
  (BSequential.regularization_loss ms).1
  = (BSequential.regularization_loss ms').1.
Proof.
  intros Hms. unfold BSequential.regularization_loss.
  rewrite (regularization_loop ms []), (regularization_loop ms' []).
  by rewrite (contributions_same_parameters ms ms').
Qed.

Lemma regularize_same_parameters (acc : A) (m : BSequential.layer A)
    (rest : list (BSequential.layer A)) :
  same_parameters m (BSequential.regularize acc m rest).2.
Proof.
  destruct m as [L|L|w b f|f]; cbn; try done.
  - by destruct (BSequential.first_affine rest) as [[w [b|]]|].
  - by destruct (BSequential.first_affine rest) as [[w [b|]]|].
Qed.

Lemma regularization_loop_modules (ms0 ms : list (BSequential.layer A))
    (acc : A) (idxs : list nat) :
  Forall2 same_parameters ms0 ms ->
  Forall2 same_parameters ms0
    (foldl (λ '(reg_loss, ms) i,
              match ms !! i with
              | None => (reg_loss, ms)
              | Some m =>
                  let '(reg_loss', m') :=
                    BSequential.regularize reg_loss m (drop i ms) in
                  (reg_loss', <[i := m']> ms)
              end)
           (acc, ms) idxs).2.
Proof.
  revert ms acc. induction idxs as [|i idxs IH]; intros ms acc Hms; [done|].
  cbn [foldl]. destruct (ms !! i) as [m|] eqn:Hm; [|by apply IH].
  pose proof (regularize_same_parameters acc m (drop i ms)) as Hr.
  destruct (BSequential.regularize acc m (drop i ms)) as [acc' m'].
  apply IH. cbn [snd] in Hr.
  apply Forall2_same_length_lookup. split.
  - rewrite length_insert. by eapply Forall2_length.
  - intros j a b Ha Hb. destruct (decide (i = j)) as [<-|Hij].
    + rewrite list_lookup_insert_eq in Hb
        by (by apply lookup_lt_Some in Hm).
      injection Hb as <-. eapply same_parameters_trans; [|exact Hr].
      by eapply (Forall2_lookup_lr _ ms0 ms).
    + rewrite list_lookup_insert_ne in Hb by done.
      by eapply (Forall2_lookup_lr _ ms0 ms).
Qed.

(** X15.  The regularization loss depends on the parameters of the
    layers only, not on their masks nor on the attribute [p]: it is the
    same after [resample()], after a forward pass (also one that raised)
    and after a first computation of the loss. *)
Theorem regularization_loss_stable (ms : list (BSequential.layer A)) :
  (forall g : G,
     (BSequential.regularization_loss (BSequential.resample ms g).1).1
     = (BSequential.regularization_loss ms).1)
  ∧ (forall x kw (g : G),
       (BSequential.regularization_loss
          (BSequential.forward ms x kw g).1.2).1
       = (BSequential.regularization_loss ms).1)
  ∧ (BSequential.regularization_loss
       (BSequential.regularization_loss ms).2).1
    = (BSequential.regularization_loss ms).1.
Proof.
  split; [|split].
  - intros g. symmetry. apply regularization_loss_same_parameters.
    apply resample_same_parameters.
  - intros x kw g. symmetry. apply regularization_loss_same_parameters.
    apply forward_loop_same_parameters.
  - symmetry. apply regularization_loss_same_parameters.
    apply regularization_loop_modules.
    apply Forall2_same_length_lookup; split; [done|].
    intros i a b Ha Hb. assert (a = b) as -> by congruence.
    apply same_parameters_refl.
Qed.
End loss_stable.

Section passes.
Context `{Scalar A} `{Rng G A}.

Lemma call_layer_again (m : BSequential.layer A) (x : tensor A)
    (kw : gmap string pyval) (r : pyval) (g g2 : G)
    (y : option (tensor A)) (m' : BSequential.layer A) (g' : G) :
  layer_consistent m ->
  kw !! "resample"%string = Some r -> truthy r = false ->
  BSequential.call_layer m x kw g = (y, m', g') ->
  layer_consistent m' ∧ BSequential.call_layer m' x kw g2 = (y, m', g2).
Proof.
  intros Hm Hkw Hr.
  assert (truthy (default (VBool true) (kw !! "resample"%string)) = false)
    as Hr1 by (by rewrite Hkw).
  assert (truthy (default (VBool false) (kw !! "resample"%string)) = false)
    as Hr2 by (by rewrite Hkw).
  destruct m as [L|L|w b f|f]; cbn [BSequential.call_layer].
  - unfold BDropout.call. rewrite Hr1.
    destruct (as_index _) as [md|] eqn:Hmd.
    + destruct (BDropout.forward L x false md g) as [[y1 L1] g1] eqn:E.
      intros [= <- <- _]. split; [done|]. cbn [BSequential.call_layer].
      unfold BDropout.call. rewrite Hr1, Hmd.
      by rewrite (BDropout_forward_again L x md g g2 y1 L1 g1 E).
    + intros [= <- <- _]. split; [done|]. cbn [BSequential.call_layer].
      unfold BDropout.call. by rewrite Hmd.
  - unfold CDropout.call. rewrite Hr2.
    destruct (as_index _) as [md|] eqn:Hmd.
    + pose proof (CDropout_forward_consistent L x md g Hm) as Hc.
      destruct (CDropout.forward L x false md g) as [[y1 L1] g1] eqn:E.
      intros [= <- <- _]. split; [done|]. cbn [BSequential.call_layer].
      unfold CDropout.call. rewrite Hr2, Hmd.
      by rewrite (CDropout_forward_again L x md g g2 y1 L1 g1 Hm E).
    + intros [= <- <- _]. split; [done|]. cbn [BSequential.call_layer].
      unfold CDropout.call. by rewrite Hmd.
  - by intros [= <- <- _].
  - by intros [= <- <- _].
Qed.

Lemma forward_loop_again (ms : list (BSequential.layer A)) (x : tensor A)
    (kw : gmap string pyval) (r : pyval) (g g2 : G)
    (y : option (tensor A)) (ms' : list (BSequential.layer A)) (g' : G) :
  Forall layer_consistent ms ->
  kw !! "resample"%string = Some r -> truthy r = false ->
  BSequential.forward_loop ms x kw g = (y, ms', g') ->
  Forall layer_consistent ms'
  ∧ BSequential.forward_loop ms' x kw g2 = (y, ms', g2).
Proof.
  intros Hms Hkw Hr. revert x g g2 y ms' g'.
  induction Hms as [|m ms Hm Hms IH]; intros x g g2 y ms' g'.
  - by intros [= <- <- _].
  - cbn [BSequential.forward_loop].
    destruct (BSequential.call_layer m x kw g) as [[y1 m1] g1] eqn:E.
    destruct (call_layer_again m x kw r g g2 y1 m1 g1 Hm Hkw Hr E)
      as [Hm1 E1].
    destruct y1 as [y1|].
    + destruct (BSequential.forward_loop ms y1 kw g1) as [[y2 ms2] g3] eqn:E2.
      intros [= <- <- _].
      destruct (IH y1 g1 g2 y2 ms2 g3 E2) as [Hms2 E3].
      split; [by constructor|].
      cbn [BSequential.forward_loop]. by rewrite E1, E3.
    + intros [= <- <- _]. split; [by constructor|].
      cbn [BSequential.forward_loop]. by rewrite E1.
Qed.

(** X16.  Masks are reused through a whole network: after a pass with a
    false [resample], on a network whose relaxed layers have masks that
    agree in shape, a second pass on the same input with the same keywords
    returns the same output (or raises as the first did), changes no
    module and draws nothing, whatever the state of the generator; the
    masks still agree in shape. *)
Theorem BSequential_forward_twice (ms : list (BSequential.layer A))
    (x : tensor A) (kw : gmap string pyval) (g : G) :
  Forall layer_consistent ms ->
  truthy (default (VBool true) (kw !! "resample"%string)) = false ->
  let r1 := BSequential.forward ms x kw g in
  Forall layer_consistent r1.1.2
  ∧ forall g2 : G,
      BSequential.forward r1.1.2 x kw g2 = (r1.1.1, r1.1.2, g2).
Proof.
  intros Hms Hr. cbn zeta. unfold BSequential.forward.
  set (kw' := BSequential.layer_kwargs _ _ _).
  assert (kw' !! "resample"%string
          = Some (default (VBool true) (kw !! "resample"%string))) as Hkw
    by apply lookup_insert_eq.
  destruct (BSequential.forward_loop ms x kw' g) as [[y ms'] g'] eqn:E.
  cbn [fst snd]. split.
  - by destruct (forward_loop_again ms x kw' _ g g y ms' g' Hms Hkw Hr E).
  - intros g2.
    by destruct (forward_loop_again ms x kw' _ g g2 y ms' g' Hms Hkw Hr E).
Qed.
End passes.

Lemma BSequential_forward_twice_witness :
  Forall layer_consistent examples.network
  ∧ truthy (default (VBool true) (more_examples.reuse !! "resample"%string))
    = false
  ∧ Forall layer_consistent
      (BSequential.forward examples.network examples.x32 more_examples.reuse
         examples.uniforms).1.2
  ∧ BSequential.forward
      (BSequential.forward examples.network examples.x32 more_examples.reuse
         examples.uniforms).1.2
      examples.x32 more_examples.reuse examples.uniforms
    = ((BSequential.forward examples.network examples.x32
          more_examples.reuse examples.uniforms).1.1,
       (BSequential.forward examples.network examples.x32
          more_examples.reuse examples.uniforms).1.2,
       examples.uniforms).
Proof.
  assert (Forall layer_consistent examples.network) as Hn
    by (repeat constructor).
  assert (truthy (default (VBool true)
                    (more_examples.reuse !! "resample"%string)) = false)
    as Hr by (vm_compute; reflexivity).
  split; [exact Hn|]. split; [exact Hr|].
  destruct (BSequential_forward_twice examples.network examples.x32
              more_examples.reuse examples.uniforms Hn Hr) as [Hc Ht].
  split; [exact Hc|exact (Ht examples.uniforms)].
Defined.

(** ** The policy and the regressor *)

Section rowwise.
Context `{Scalar A}.

(** A matrix and a row: the row is laid over every row of the matrix. *)
Lemma tzip_row (f : A -> A -> A) (x m : tensor A) (N d : nat) :
  shape x = [N; d] -> shape m = [1; d] ->
  tzip f x m
  = Some (Tensor [N; d]
            (grid N d (λ i j, f (getd (data x) (i * d + j))
                                (getd (data m) j)))).
Proof.
  intros Hx Hm. unfold tzip, broadcast_shape. rewrite Hx, Hm.
  change (reverse [N; d]) with [d; N]. change (reverse [1; d]) with [d; 1].
  assert (bshape [d; N] [d; 1] = Some [d; N]) as ->.
  { cbn [bshape]. rewrite Nat.eqb_refl.
    destruct (N =? 1) eqn:E; [done|]. by cbn. }
  cbn [fmap option_fmap option_map mbind option_bind].
  change (reverse [d; N]) with [N; d]. do 2 f_equal.
  unfold numel. cbn [foldr]. rewrite Nat.mul_1_r, fmap_seq_grid.
  apply grid_ext. intros i j Hi Hj.
  change (reverse [N; d]) with [d; N].
  rewrite (bidx_same [d; N])
    by (unfold numel; cbn [foldr]; nia).
  f_equal. f_equal. cbn [bidx].
  replace ((i * d + j) mod d) with j
    by (by rewrite (Nat.add_comm (i * d)), Nat.Div0.mod_add, Nat.mod_small).
  change (1 =? 1) with true. cbn iota.
  destruct (d =? 1) eqn:E; [apply Nat.eqb_eq in E|]; lia.
Qed.

Lemma reduce_dim_0_matrix (f : list A -> A) (x : tensor A) (n d : nat) :
  shape x = [n; d] ->
  reduce_dim f 0 true x
  = Some (Tensor [1; d] ((λ j, f (matrix_column x n d j)) <$> seq 0 d)).
Proof.
  intros Hs. unfold reduce_dim. rewrite Hs.
  cbn [drop take app]. unfold numel. cbn [foldr].
  rewrite Nat.mul_1_r. cbn [seq mbind list_bind].
  cbn. by rewrite app_nil_r.
Qed.
End rowwise.

Section heads.
Context `{Scalar A} {W : Type}.
Variable to_complex : tensor A -> list nat -> option (tensor A).
Variable model : tensor A -> gmap string pyval -> comp W (output A).
Variable output_density :
  option (output A -> option (tensor A * tensor A) ->
          gmap string pyval -> comp W (output A)).

(** X17.  [Policy.forward] returns [scale * y + bias], entry by entry,
    for the output [y] of the model on the converted input: when the
    shapes of [scale] and [bias] are made of last dimensions of [y] (the
    scalars of the constructor are), the result has the shape of [y] and
    the generator is as the model has left it. *)
Theorem Policy_forward_affine (P : Policy.state A) (x x' y : tensor A)
    (kw : gmap string pyval) (w w' : W) (j k : nat) :
  to_complex x (Policy.angle_dims P) = Some x' ->
  model x' (Policy.model_kwargs kw) w = Some (OTensor y, w') ->
  shape (Policy.scale P) = drop j (shape y) ->
  shape (Policy.bias P) = drop k (shape y) ->
  Policy.forward to_complex model P x kw w
  = Some (Tensor (shape y)
            ((λ i, sadd (smul (getd (data (Policy.scale P))
                                    (i mod numel (shape (Policy.scale P))))
                              (getd (data y) i))
                        (getd (data (Policy.bias P))
                              (i mod numel (shape (Policy.bias P)))))
             <$> seq 0 (numel (shape y))), w').
Proof.
  intros Hx Hy Hs Hb. unfold Policy.forward, cbind.
  rewrite Hx. cbn [lift]. rewrite Hy.
  unfold tmul, tadd. rewrite (tzip_prefix smul _ y j Hs).
  cbn [mbind option_bind].
  rewrite (tzip_suffix sadd _ (Policy.bias P) k) by done.
  unfold blockwise. cbn [shape data lift]. do 3 f_equal.
  apply list_fmap_ext. intros i a [-> Hi]%lookup_seq. cbn.
  by rewrite getd_fmap_seq_lt.
Qed.

(** X18.  After [set_dataset] on inputs that are, once converted, a
    matrix of [M] rows and [d] columns, [Regressor.forward] with
    [normalize=True] on a batch of [N] rows and [d] columns calls the
    model on the batch standardized column by column: each entry minus the
    mean of its column in the dataset, times the reciprocal of the
    unbiased standard deviation of that column; the output density, when
    there is one, receives the mean and the deviation of the targets. *)
Theorem Regressor_forward_standardizes (R R' : Regressor.state A)
    (X0 Y0 x : tensor A) (M N d : nat) (kw : gmap string pyval) (w : W) :
  Regressor.set_dataset to_complex R X0 Y0 = Some R' ->
  shape (Regressor.X R') = [M; d] -> shape x = [N; d] ->
  Regressor.forward to_complex model output_density R' x true kw w
  = (do outs <- model
        (Tensor [N; d]
           (grid N d (λ i j,
              smul (ssub (getd (data x) (i * d + j))
                         (mean (matrix_column (Regressor.X R') M d j)))
                   (sdiv (lit 1)
                         (std (matrix_column (Regressor.X R') M d j))))))
        kw;
     match output_density with
     | Some density =>
         density outs (Some (Regressor.my R', Regressor.Sy R')) kw
     | None => cret outs
     end)%comp w.
Proof.
  intros HR HX Hx. unfold Regressor.set_dataset in HR.
  apply bind_Some in HR as (X1 & _ & HR).
  apply bind_Some in HR as (mx1 & Hmx & HR).
  apply bind_Some in HR as (Sx1 & HSx & HR).
  apply bind_Some in HR as (my1 & _ & HR).
  apply bind_Some in HR as (Sy1 & _ & [= <-]).
  cbn [Regressor.X Regressor.my Regressor.Sy] in *.
  rewrite (reduce_dim_0_matrix mean X1 M d HX) in Hmx. injection Hmx as <-.
  rewrite (reduce_dim_0_matrix std X1 M d HX) in HSx. injection HSx as <-.
  unfold Regressor.forward, cbind.
  cbn [Regressor.X Regressor.mx Regressor.iSx]. rewrite Hx, HX.
  cbn [last lift]. rewrite Nat.eqb_refl. cbn [lift].
  unfold tsub. rewrite (tzip_row ssub x _ N d) by done.
  cbn [mbind option_bind]. unfold tmul, Regressor.reciprocal, tmap.
  rewrite (tzip_row smul _ _ N d) by done. cbn [shape data lift].
  match goal with
  | |- match model (Tensor _ ?a) _ _ with _ => _ end
       = match model (Tensor _ ?b) _ _ with _ => _ end =>
      assert (a = b) as ->; [|done]
  end.
  apply grid_ext. intros i j Hi Hj.
  rewrite getd_grid by done. f_equal.
  - f_equal. by rewrite getd_fmap_seq_lt.
  - rewrite <- list_fmap_compose. by rewrite getd_fmap_seq_lt.
Qed.
End heads.

Lemma Policy_forward_affine_witness :
  examples.plain_complex examples.x32 (Policy.angle_dims examples.policy)
  = Some examples.x32
  ∧ examples.resampling_model examples.x32 (Policy.model_kwargs ∅)
      examples.uniforms
    = Some (OTensor examples.x32, examples.uniforms)
  ∧ shape (Policy.scale examples.policy) = drop 2 (shape examples.x32)
  ∧ shape (Policy.bias examples.policy) = drop 2 (shape examples.x32)
  ∧ Policy.forward examples.plain_complex examples.resampling_model
      examples.policy examples.x32 ∅ examples.uniforms
    = Some (qtensor [3; 2] [3; 5; 7; 9; 11; 13]%Q, examples.uniforms).
Proof.
  assert (examples.resampling_model examples.x32 (Policy.model_kwargs ∅)
            examples.uniforms
          = Some (OTensor examples.x32, examples.uniforms)) as Hm
    by (vm_compute; reflexivity).
  split; [reflexivity|]. split; [exact Hm|]. split; [reflexivity|].
  split; [reflexivity|].
  rewrite (Policy_forward_affine examples.plain_complex
             examples.resampling_model examples.policy examples.x32
             examples.x32 examples.x32 ∅ examples.uniforms examples.uniforms
             2 2 eq_refl Hm eq_refl eq_refl).
  vm_compute. reflexivity.
Defined.

Lemma Regressor_forward_standardizes_witness :
  Regressor.set_dataset examples.plain_complex examples.regressor
    more_examples.inputs32 more_examples.targets31
  = Some more_examples.fitted
  ∧ shape (Regressor.X more_examples.fitted) = [3; 2]
  ∧ shape examples.x32 = [3; 2]
  ∧ Regressor.forward examples.plain_complex examples.resampling_model None
      more_examples.fitted examples.x32 true more_examples.redraw
      examples.uniforms
    = Some (OTensor (qtensor [3; 2] [0; 0; 2; 1; 4; 2]%Q), examples.uniforms).
Proof.
  assert (Regressor.set_dataset examples.plain_complex examples.regressor
            more_examples.inputs32 more_examples.targets31
          = Some more_examples.fitted) as Hs by (vm_compute; reflexivity).
  assert (shape (Regressor.X more_examples.fitted) = [3; 2]) as HX
    by (vm_compute; reflexivity).
  split; [exact Hs|]. split; [exact HX|]. split; [reflexivity|].
  rewrite (Regressor_forward_standardizes examples.plain_complex
             examples.resampling_model None examples.regressor
             more_examples.fitted more_examples.inputs32
             more_examples.targets31 examples.x32 3 3 2
             more_examples.redraw examples.uniforms Hs HX eq_refl).
  vm_compute. reflexivity.
Defined.

(** ** Slices and concatenations along the last dimension *)

Section rows_facts.
Context `{Scalar A}.

Lemma chunks_length (n k : nat) (l : list A) : length (chunks n k l) = k.
Proof. revert l. induction k as [|k IH]; intros l; cbn; [done|]. by rewrite IH. Qed.

Lemma chunks_join (n k : nat) (l : list A) :
  length l = k * n -> mjoin (chunks n k l) = l.
Proof.
  revert l. induction k as [|k IH]; intros l Hl; cbn.
  - by destruct l.
  - rewrite IH; [by rewrite take_drop|]. rewrite length_drop. lia.
Qed.

Lemma chunks_Forall (n k : nat) (l : list A) :
  length l = k * n -> Forall (λ r, length r = n) (chunks n k l).
Proof.
  revert l. induction k as [|k IH]; intros l Hl; cbn; constructor.
  - rewrite length_take. lia.
  - apply IH. rewrite length_drop. lia.
Qed.

Lemma chunks_mjoin (n : nat) (rs : list (list A)) :
  Forall (λ r, length r = n) rs -> chunks n (length rs) (mjoin rs) = rs.
Proof.
  induction 1 as [|r rs Hr _ IH]; [done|].
  change (mjoin (r :: rs)) with (r ++ mjoin rs). cbn [length chunks].
  rewrite take_app_length' by done. rewrite drop_app_length' by done.
  by rewrite IH.
Qed.

Lemma tensor_eta (x : tensor A) : Tensor (shape x) (data x) = x.
Proof. by destruct x. Qed.

Lemma rows_spec (x : tensor A) (n : nat) (pre : list nat) :
  wf x -> reverse (shape x) = n :: pre ->
  rows x = chunks n (numel pre) (data x)
  ∧ length (rows x) = numel pre
  ∧ Forall (λ r, length r = n) (rows x)
  ∧ mjoin (rows x) = data x.
Proof.
  intros Hx Hr. unfold rows. rewrite Hr.
  assert (length (data x) = numel pre * n) as Hl.
  { rewrite Hx, <- (numel_reverse (shape x)), Hr.
    unfold numel. cbn [foldr]. lia. }
  split; [done|]. split; [apply chunks_length|].
  split; [by apply chunks_Forall|by apply chunks_join].
Qed.

Lemma rows_mjoin (n : nat) (pre : list nat) (rs : list (list A)) :
  length rs = numel pre -> Forall (λ r, length r = n) rs ->
  rows (Tensor (reverse (n :: pre)) (mjoin rs)) = rs.
Proof.
  intros Hl Hrs. unfold rows. cbn [shape data].
  rewrite reverse_involutive, <- Hl. by apply chunks_mjoin.
Qed.

Lemma mjoin_fmap_ext (f : list A -> list A) (rs : list (list A)) :
  Forall (λ r, f r = r) rs -> f <$> rs = rs.
Proof. induction 1; cbn; congruence. Qed.

Lemma zip_app_take (rs ra : list (list A)) (n : nat) :
  length rs = length ra -> Forall (λ r, length r = n) rs ->
  (λ r, take n (drop 0 r)) <$> zip_with app rs ra = rs.
Proof.
  intros Hl Hrs. revert ra Hl.
  induction Hrs as [|r rs Hr _ IH]; intros [|r' ra] Hl; try done.
  cbn [zip_with]. rewrite fmap_cons, drop_0.
  rewrite take_app_length' by done. f_equal. apply IH.
  by injection Hl.
Qed.

Lemma zip_app_drop (rs ra : list (list A)) (n k : nat) :
  length rs = length ra -> Forall (λ r, length r = n) rs ->
  Forall (λ r, length r = k) ra ->
  (λ r, take k (drop n r)) <$> zip_with app rs ra = ra.
Proof.
  intros Hl Hrs. revert ra Hl.
  induction Hrs as [|r rs Hr _ IH]; intros [|r' ra] Hl Hra; try done.
  apply Forall_cons in Hra as [Hr' Hra].
  cbn [zip_with]. rewrite fmap_cons.
  rewrite drop_app_length' by done.
  rewrite take_ge by lia. f_equal. apply IH; [by injection Hl|done].
Qed.

Lemma cat_last_spec (s a : tensor A) (D U : nat) (pre : list nat) :
  reverse (shape s) = D :: pre -> reverse (shape a) = U :: pre ->
  cat_last s a
  = Some (Tensor (reverse ((D + U) :: pre))
            (mjoin (zip_with app (rows s) (rows a)))).
Proof.
  intros Hs Ha. unfold cat_last. by rewrite Hs, Ha, shape_eqb_refl.
Qed.

Lemma cat_last_inv (s a x : tensor A) :
  cat_last s a = Some x ->
  exists D U pre,
    reverse (shape s) = D :: pre ∧ reverse (shape a) = U :: pre
    ∧ x = Tensor (reverse ((D + U) :: pre))
            (mjoin (zip_with app (rows s) (rows a))).
Proof.
  unfold cat_last.
  destruct (reverse (shape s)) as [|D pre] eqn:Hs; [done|].
  destruct (reverse (shape a)) as [|U pre'] eqn:Ha; [done|].
  unfold shape_eqb. case_bool_decide as Hp; [|done]. subst pre'.
  intros [= <-]. by exists D, U, pre.
Qed.

Lemma reverse_shape (x : tensor A) (l : list nat) :
  reverse (shape x) = l -> shape x = reverse l.
Proof. intros <-. by rewrite reverse_involutive. Qed.

(** The first columns of a concatenation are its first operand, the
    others the second. *)
Lemma narrow_cat (s a x : tensor A) (D U : nat) :
  wf s -> wf a -> cat_last s a = Some x ->
  last (shape s) = Some D -> last (shape a) = Some U ->
  last (shape x) = Some (D + U)
  ∧ narrow_last 0 D x = s ∧ narrow_last D U x = a.
Proof.
  intros Hws Hwa Hx HD HU.
  apply cat_last_inv in Hx as (D' & U' & pre & Hs & Ha & ->).
  rewrite <- head_reverse, Hs in HD. injection HD as ->.
  rewrite <- head_reverse, Ha in HU. injection HU as ->.
  destruct (rows_spec s D pre Hws Hs) as (_ & Hls & Hfs & Hjs).
  destruct (rows_spec a U pre Hwa Ha) as (_ & Hla & Hfa & Hja).
  assert (length (zip_with app (rows s) (rows a)) = numel pre) as Hlz.
  { rewrite length_zip_with. lia. }
  assert (Forall (λ r : list A, length r = D + U)
                 (zip_with app (rows s) (rows a))) as Hfz.
  { apply Forall_forall. intros r Hr.
    apply elem_of_zip_with in Hr as (r1 & r2 & -> & H1 & H2).
    rewrite length_app.
    rewrite Forall_forall in Hfs, Hfa.
    by rewrite (Hfs r1), (Hfa r2). }
  split; [|split].
  - cbn [shape]. by rewrite <- head_reverse, reverse_involutive.
  - unfold narrow_last. cbn [shape]. rewrite reverse_involutive.
    rewrite (rows_mjoin (D + U) pre) by done.
    rewrite zip_app_take by (done || congruence).
    rewrite Hjs, <- Hs, reverse_involutive. apply tensor_eta.
  - unfold narrow_last. cbn [shape]. rewrite reverse_involutive.
    rewrite (rows_mjoin (D + U) pre) by done.
    rewrite zip_app_drop by (done || congruence).
    rewrite Hja, <- Ha, reverse_involutive. apply tensor_eta.
Qed.

Lemma zip_take_drop (rs : list (list A)) (n k : nat) :
  k <= n -> Forall (λ r, length r = n) rs ->
  zip_with app ((λ r, take k (drop 0 r)) <$> rs)
               ((λ r, take (n - k) (drop k r)) <$> rs) = rs.
Proof.
  intros Hk. induction 1 as [|r rs Hr _ IH]; [done|].
  rewrite !fmap_cons. cbn [zip_with]. rewrite IH, drop_0. f_equal.
  rewrite (take_ge (drop k r)) by (rewrite length_drop; lia).
  apply take_drop.
Qed.

(** The two slices of a tensor along its last dimension, concatenated,
    are the tensor. *)
Lemma cat_narrow (x : tensor A) (n k : nat) :
  wf x -> last (shape x) = Some n -> k <= n ->
  cat_last (narrow_last 0 k x) (narrow_last k (n - k) x) = Some x.
Proof.
  intros Hw Hn Hk.
  destruct (last_reverse_cons _ _ Hn) as [pre Hr].
  destruct (rows_spec x n pre Hw Hr) as (_ & Hl & Hf & Hj).
  unfold narrow_last. rewrite Hr.
  rewrite (cat_last_spec _ _ k (n - k) pre)
    by (cbn [shape]; by rewrite reverse_involutive).
  rewrite !rows_mjoin.
  - rewrite (zip_take_drop _ n) by done.
    rewrite Hj. replace (k + (n - k)) with n by lia.
    rewrite <- Hr, reverse_involutive. by rewrite tensor_eta.
  - by rewrite length_fmap.
  - apply Forall_fmap. eapply Forall_impl; [exact Hf|].
    intros r Hrl. cbn in Hrl |- *. rewrite length_take, length_drop. lia.
  - by rewrite length_fmap.
  - apply Forall_fmap. eapply Forall_impl; [exact Hf|].
    intros r Hrl. cbn in Hrl |- *. rewrite length_take, length_drop. lia.
Qed.
End rows_facts.

(** ** More on the dynamics model *)

Section dynamics_more.
Context `{Scalar A} {W : Type}.
Variable to_complex : tensor A -> list nat -> option (tensor A).
Variable model : tensor A -> gmap string pyval -> comp W (output A).
Variable output_density :
  option (output A -> option (tensor A * tensor A) ->
          gmap string pyval -> comp W (output A)).
Variable reward_func : option (tensor A -> option (tensor A)).

Local Abbreviation regress := (Regressor.forward to_complex model output_density).
Local Abbreviation dynamics_forward :=
  (DynamicsModel.forward to_complex model output_density).

(** [a, b = x.split(d, -1)] unpacks two slices exactly when the last
    dimension [n] of [x] has more than [d] and at most [2 d] entries. *)
Lemma split_pair_spec (d n : nat) (x : tensor A) :
  last (shape x) = Some n ->
  DynamicsModel.split_pair d x
  = if (d <? n) && (n <=? 2 * d)
    then Some (narrow_last 0 d x, narrow_last d (n - d) x)
    else None.
Proof.
  intros Hn. destruct (last_reverse_cons _ _ Hn) as [pre Hr].
  unfold DynamicsModel.split_pair, split_last. rewrite Hr.
  destruct d as [|d].
  { cbn [Nat.eqb]. destruct n as [|n]; [|done].
    replace (0 <? 0) with false by done. done. }
  cbn [Nat.eqb]. destruct n as [|n].
  { done. }
  cbn [Nat.eqb split_from].
  replace (S n <=? 0) with false by done.
  destruct (S d <? S n) eqn:E1.
  - apply Nat.ltb_lt in E1. cbn [andb].
    destruct n as [|n]; [lia|]. cbn [split_from].
    replace (S (S n) <=? 0 + S d) with false
      by (symmetry; apply Nat.leb_gt; lia).
    replace (S d `min` (S (S n) - 0)) with (S d) by lia.
    destruct (S (S n) <=? 2 * S d) eqn:E2.
    + apply Nat.leb_le in E2.
      replace (S d `min` (S (S n) - (0 + S d))) with (S (S n) - S d) by lia.
      replace (0 + S d) with (S d) by lia.
      assert (split_from (S d) n (S d + S d) (S (S n)) x = []) as ->.
      { destruct n as [|n]; [done|]. cbn [split_from].
        replace (S (S (S n)) <=? S d + S d) with true
          by (symmetry; apply Nat.leb_le; lia).
        done. }
      done.
    + apply Nat.leb_gt in E2.
      destruct n as [|n]; [lia|]. cbn [split_from].
      replace (S (S (S n)) <=? 0 + S d + S d) with false
        by (symmetry; apply Nat.leb_gt; lia).
      done.
  - apply Nat.ltb_ge in E1. cbn [andb].
    destruct n as [|n]; [done|]. cbn [split_from].
    replace (S (S n) <=? 0 + S d) with true
      by (symmetry; apply Nat.leb_le; lia).
    done.
Qed.

(** X19.  [DynamicsModel.forward] on concatenated inputs unpacks
    [inputs.split(D, -1)] into two tensors: when the model returns samples
    of [D] columns for inputs of [n] columns, the call returns only if
    [D < n <= 2 D], that is when there is an action and the actions have
    at most as many columns as the states. *)
Theorem forward_joint_widths (S : DynamicsModel.state A) (x : tensor A)
    (separate_outputs deltas normalize : bool) (kw : gmap string pyval)
    (w : W) (outs : tensor A) (w1 : W) (n D : nat)
    (res : DynamicsModel.result) (w' : W) :
  regress (DynamicsModel.regressor S) x normalize kw w
  = Some (OTensor outs, w1) ->
  last (shape x) = Some n -> last (shape outs) = Some D ->
  dynamics_forward reward_func S (DynamicsModel.Joint x) separate_outputs
    deltas normalize kw w = Some (res, w') ->
  D < n <= 2 * D.
Proof.
  intros Hreg Hn HD Hf. unfold DynamicsModel.forward in Hf.
  bind_inv Hf. apply lift_Some in E as [[= <-] ->].
  rewrite Hreg in Hf. bind_inv Hf.
  apply lift_Some in E as [Hprev _]. rewrite HD in Hprev.
  cbn [mbind option_bind] in Hprev.
  rewrite (split_pair_spec D n x Hn) in Hprev.
  destruct (D <? n) eqn:E1; [|done]. destruct (n <=? 2 * D) eqn:E2; [|done].
  apply Nat.ltb_lt in E1. apply Nat.leb_le in E2. lia.
Qed.

(** X20.  The two forms of the inputs of [DynamicsModel.forward] agree:
    for states of [D] columns and actions of [U] columns, [0 < U <= D], and
    a model whose samples have [D] columns, the call on the concatenation
    of the states and the actions is the call on their pair. *)
Theorem forward_joint_pair (S : DynamicsModel.state A) (s a x : tensor A)
    (separate_outputs deltas normalize : bool) (kw : gmap string pyval)
    (w : W) (D U : nat) :
  wf s -> wf a -> cat_last s a = Some x ->
  last (shape s) = Some D -> last (shape a) = Some U -> 0 < U <= D ->
  (forall outs w1,
     regress (DynamicsModel.regressor S) x normalize kw w
     = Some (OTensor outs, w1) -> last (shape outs) = Some D) ->
  dynamics_forward reward_func S (DynamicsModel.Joint x) separate_outputs
    deltas normalize kw w
  = dynamics_forward reward_func S (DynamicsModel.Pair s a) separate_outputs
      deltas normalize kw w.
Proof.
  intros Hws Hwa Hx HD HU HUD Houts.
  destruct (narrow_cat s a x D U Hws Hwa Hx HD HU) as (Hn & Hs & _).
  unfold DynamicsModel.forward, cbind. rewrite Hx. cbn [lift].
  destruct (regress _ x normalize kw w) as [[[outs|ts] w1]|] eqn:Hreg;
    [|done|done].
  rewrite (Houts outs w1 eq_refl). cbn [mbind option_bind].
  rewrite (split_pair_spec D (D + U) x Hn).
  replace (D <? D + U) with true by (symmetry; apply Nat.ltb_lt; lia).
  replace (D + U <=? 2 * D) with true by (symmetry; apply Nat.leb_le; lia).
  cbn [andb fmap option_fmap option_map fst]. by rewrite Hs.
Qed.

(** X21.  Without a reward function and with [deltas=True], the output
    of the model is split into its last column, the rewards, and the
    others, the states: for samples of [n] columns the call on a pair
    raises when [n < 2] and returns otherwise the two slices with
    [separate_outputs=True], and their concatenation, which is the output
    of the model unchanged, with [separate_outputs=False]. *)
Theorem forward_learned_reward (S : DynamicsModel.state A) (s a x : tensor A)
    (separate_outputs normalize : bool) (kw : gmap string pyval)
    (w : W) (outs : tensor A) (w1 : W) (n : nat) :
  cat_last s a = Some x ->
  regress (DynamicsModel.regressor S) x normalize kw w
  = Some (OTensor outs, w1) ->
  wf outs -> last (shape outs) = Some n ->
  dynamics_forward None S (DynamicsModel.Pair s a) separate_outputs true
    normalize kw w
  = if 2 <=? n
    then Some (if separate_outputs
               then DynamicsModel.Separate (narrow_last 0 (n - 1) outs)
                                           (narrow_last (n - 1) 1 outs)
               else DynamicsModel.Joined outs, w1)
    else None.
Proof.
  intros Hx Hreg Hw Hn.
  unfold DynamicsModel.forward, cbind. rewrite Hx. cbn [lift].
  rewrite Hreg, Hn. cbn [mbind option_bind].
  rewrite (split_pair_spec (n - 1) n outs Hn).
  destruct (2 <=? n) eqn:E.
  - apply Nat.leb_le in E.
    replace (n - 1 <? n) with true by (symmetry; apply Nat.ltb_lt; lia).
    replace (n <=? 2 * (n - 1)) with true by (symmetry; apply Nat.leb_le; lia).
    cbn [andb fst snd]. replace (n - (n - 1)) with 1 by lia.
    destruct separate_outputs; [done|].
    pose proof (cat_narrow outs n (n - 1) Hw Hn ltac:(lia)) as Hc.
    replace (n - (n - 1)) with 1 in Hc by lia.
    cbn [lift fst snd]. by rewrite Hc.
  - apply Nat.leb_gt in E.
    replace ((n - 1 <? n) && (n <=? 2 * (n - 1))) with false; [done|].
    symmetry. apply andb_false_iff.
    destruct (decide (n = 0)) as [->|]; [by left|right].
    apply Nat.leb_gt. lia.
Qed.

(** X22.  [DynamicsModel.set_dataset] returns only for targets that have
    a last dimension of [n > 0] entries and at least one row; [maxR] and
    [minR] are then the maximum and the minimum of the column [n - 1] of
    the targets. *)
Theorem set_dataset_needs_rewards (S S' : DynamicsModel.state A)
    (X0 Y0 : tensor A) :
  DynamicsModel.set_dataset to_complex S X0 Y0 = Some S' ->
  exists n a l,
    last (shape Y0) = Some n ∧ 0 < n ∧ column (n - 1) Y0 = a :: l
    ∧ DynamicsModel.maxR S' = Tensor [] [foldl smax a l]
    ∧ DynamicsModel.minR S' = Tensor [] [foldl smin a l].
Proof.
  unfold DynamicsModel.set_dataset. intros HS.
  apply bind_Some in HS as (R & HR & HS).
  assert (Regressor.Y R = Y0) as HY.
  { unfold Regressor.set_dataset in HR.
    repeat (apply bind_Some in HR as (? & _ & HR)). by injection HR as <-. }
  rewrite HY in HS.
  apply bind_Some in HS as (n & Hn & HS).
  apply bind_Some in HS as (r & Hr & HS).
  apply bind_Some in HS as (hi & Hhi & HS).
  apply bind_Some in HS as (lo & Hlo & [= <-]).
  destruct (n =? 0) eqn:E; [done|]. apply Nat.eqb_neq in E.
  unfold index_select_last in Hr.
  destruct (last_reverse_cons _ _ Hn) as [pre Hrev]. rewrite Hrev in Hr.
  destruct (n - 1 <? n); [|done]. injection Hr as <-.
  unfold tmax, tmin, narrow_last in Hhi, Hlo. rewrite Hrev in Hhi, Hlo.
  cbn [data] in Hhi, Hlo. fold (column (n - 1) Y0) in Hhi, Hlo.
  destruct (column (n - 1) Y0) as [|a l] eqn:Hcol; [done|].
  injection Hhi as <-. injection Hlo as <-.
  exists n, a, l. cbn. split; [done|]. split; [lia|]. done.
Qed.
End dynamics_more.

Lemma forward_joint_widths_witness :
  Regressor.forward examples.plain_complex examples.first_column None
    (DynamicsModel.regressor examples.dynamics) examples.inputs22 true ∅
    examples.uniforms
  = Some (OTensor more_examples.states21, examples.uniforms)
  ∧ last (shape examples.inputs22) = Some 2
  ∧ last (shape more_examples.states21) = Some 1
  ∧ DynamicsModel.forward examples.plain_complex examples.first_column None
      (Some examples.tenfold) examples.dynamics
      (DynamicsModel.Joint examples.inputs22) false true true ∅
      examples.uniforms
    = Some (DynamicsModel.Joined (qtensor [2; 2] [1; 10; 3; 30]%Q),
            examples.uniforms)
  ∧ 1 < 2 <= 2 * 1.
Proof.
  assert (Regressor.forward examples.plain_complex examples.first_column None
            (DynamicsModel.regressor examples.dynamics) examples.inputs22
            true ∅ examples.uniforms
          = Some (OTensor more_examples.states21, examples.uniforms)) as Hr
    by (vm_compute; reflexivity).
  assert (DynamicsModel.forward examples.plain_complex examples.first_column
            None (Some examples.tenfold) examples.dynamics
            (DynamicsModel.Joint examples.inputs22) false true true ∅
            examples.uniforms
          = Some (DynamicsModel.Joined (qtensor [2; 2] [1; 10; 3; 30]%Q),
                  examples.uniforms)) as Hf by (vm_compute; reflexivity).
  split; [exact Hr|]. split; [reflexivity|]. split; [reflexivity|].
  split; [exact Hf|].
  exact (forward_joint_widths _ _ _ _ _ _ _ _ _ _ _ _ _ _ _ _ _
           Hr eq_refl eq_refl Hf).
Defined.

Lemma forward_joint_pair_witness :
  wf more_examples.states21 ∧ wf more_examples.actions21
  ∧ cat_last more_examples.states21 more_examples.actions21
    = Some examples.inputs22
  ∧ last (shape more_examples.states21) = Some 1
  ∧ last (shape more_examples.actions21) = Some 1
  ∧ 0 < 1 <= 1
  ∧ DynamicsModel.forward examples.plain_complex examples.first_column None
      (Some examples.tenfold) examples.dynamics
      (DynamicsModel.Joint examples.inputs22) false true true ∅
      examples.uniforms
    = DynamicsModel.forward examples.plain_complex examples.first_column None
        (Some examples.tenfold) examples.dynamics
        (DynamicsModel.Pair more_examples.states21 more_examples.actions21)
        false true true ∅ examples.uniforms.
Proof.
  assert (wf more_examples.states21) as H1 by reflexivity.
  assert (wf more_examples.actions21) as H2 by reflexivity.
  assert (cat_last more_examples.states21 more_examples.actions21
          = Some examples.inputs22) as H3 by (vm_compute; reflexivity).
  assert (0 < 1 <= 1) as H6 by lia.
  split; [exact H1|]. split; [exact H2|]. split; [exact H3|].
  split; [reflexivity|]. split; [reflexivity|]. split; [exact H6|].
  apply (forward_joint_pair examples.plain_complex examples.first_column None
           (Some examples.tenfold) examples.dynamics more_examples.states21
           more_examples.actions21 examples.inputs22 false true true ∅
           examples.uniforms 1 1 H1 H2 H3 eq_refl eq_refl H6).
  intros outs w1 Hreg. vm_compute in Hreg. injection Hreg as <- _.
  reflexivity.
Defined.

Lemma forward_learned_reward_witness :
  cat_last more_examples.states21 more_examples.actions21
  = Some examples.inputs22
  ∧ Regressor.forward examples.plain_complex examples.resampling_model None
      (DynamicsModel.regressor examples.dynamics) examples.inputs22 true
      more_examples.redraw examples.uniforms
    = Some (OTensor examples.inputs22, examples.uniforms)
  ∧ wf examples.inputs22
  ∧ last (shape examples.inputs22) = Some 2
  ∧ DynamicsModel.forward examples.plain_complex examples.resampling_model
      None None examples.dynamics
      (DynamicsModel.Pair more_examples.states21 more_examples.actions21)
      false true true more_examples.redraw examples.uniforms
    = Some (DynamicsModel.Joined examples.inputs22, examples.uniforms).
Proof.
  assert (cat_last more_examples.states21 more_examples.actions21
          = Some examples.inputs22) as H1 by (vm_compute; reflexivity).
  assert (Regressor.forward examples.plain_complex examples.resampling_model
            None (DynamicsModel.regressor examples.dynamics)
            examples.inputs22 true more_examples.redraw examples.uniforms
          = Some (OTensor examples.inputs22, examples.uniforms)) as H2
    by (vm_compute; reflexivity).
  assert (wf examples.inputs22) as H3 by reflexivity.
  split; [exact H1|]. split; [exact H2|]. split; [exact H3|].
  split; [reflexivity|].
  exact (forward_learned_reward examples.plain_complex
           examples.resampling_model None examples.dynamics
           more_examples.states21 more_examples.actions21 examples.inputs22
           false true more_examples.redraw examples.uniforms
           examples.inputs22 examples.uniforms 2 H1 H2 H3 eq_refl).
Defined.

Lemma set_dataset_needs_rewards_witness :
  DynamicsModel.set_dataset examples.plain_complex examples.dynamics
    examples.inputs22 examples.targets23
  = Some more_examples.fitted_dynamics
  ∧ exists n a l,
      last (shape examples.targets23) = Some n ∧ 0 < n
      ∧ column (n - 1) examples.targets23 = a :: l
      ∧ DynamicsModel.maxR more_examples.fitted_dynamics
        = Tensor [] [foldl smax a l]
      ∧ DynamicsModel.minR more_examples.fitted_dynamics
        = Tensor [] [foldl smin a l].
Proof.
  assert (DynamicsModel.set_dataset examples.plain_complex examples.dynamics
            examples.inputs22 examples.targets23
          = Some more_examples.fitted_dynamics) as Hs
    by (vm_compute; reflexivity).
  split; [exact Hs|].
  exact (set_dataset_needs_rewards _ _ _ _ _ Hs).
Defined.
